(** * berpf: a Bernoulli particle filter (src/berpf/berpf.py)

    Shallow embedding of the numerical kernels ([_logsumexp],
    [_weight_update], [_update_existance_prob], [_sysresample]) and of the
    filter object ([BerParticleFilter.__init__], [__call__], [mean],
    [covar]), followed by the properties established about them.

    Numbers.  A numpy float64 is modelled by [npfloat]: the three IEEE
    special values together with _exact_ reals for the finite values.
    Rounding, overflow to infinity, underflow and the sign of zero are not
    modelled: every statement below about finite values is a statement in
    exact real arithmetic.  Rounding can change an outcome where two
    computed values are compared: the selection loop of [_sysresample]
    compares positions with cumulative sums, and a position rounded up to
    the last cumulative sum makes the code raise IndexError where the
    exact computation returns.  The properties of the resampler and of
    the transition are therefore stated on the results that are
    returned; that a result is returned is only ever a lemma about the
    exact computation, used to build examples. *)

From Stdlib Require Import Reals Lra Lia ZArith.
From stdpp Require Import functions base list strings.

(** ** Floating-point values and the numpy primitives used by the code *)

Inductive npfloat : Type :=
| NaN
| NInf
| PInf
| Fin (r : R).

Module Np.

Local Open Scope R_scope.

Definition is_zero (a : npfloat) : bool :=
  match a with
  | Fin r => if Req_dec_T r 0 then true else false
  | _ => false
  end.

Definition isnan (a : npfloat) : bool :=
  match a with NaN => true | _ => false end.

Definition isfinite (a : npfloat) : bool :=
  match a with Fin _ => true | _ => false end.

Definition neg (a : npfloat) : npfloat :=
  match a with
  | NaN => NaN
  | NInf => PInf
  | PInf => NInf
  | Fin r => Fin (- r)
  end.

Definition add (a b : npfloat) : npfloat :=
  match a, b with
  | NaN, _ | _, NaN => NaN
  | PInf, NInf | NInf, PInf => NaN
  | PInf, _ | _, PInf => PInf
  | NInf, _ | _, NInf => NInf
  | Fin x, Fin y => Fin (x + y)
  end.

Definition sub (a b : npfloat) : npfloat := add a (neg b).

(** [inf * x] for a finite [x]: the sign of [x] decides, [inf * 0] is NaN. *)
Definition inf_times (x : R) : npfloat :=
  if Rlt_dec 0 x then PInf else if Rlt_dec x 0 then NInf else NaN.

Definition mul (a b : npfloat) : npfloat :=
  match a, b with
  | NaN, _ | _, NaN => NaN
  | Fin x, Fin y => Fin (x * y)
  | Fin x, PInf | PInf, Fin x => inf_times x
  | Fin x, NInf | NInf, Fin x => neg (inf_times x)
  | PInf, PInf | NInf, NInf => PInf
  | PInf, NInf | NInf, PInf => NInf
  end.

(** numpy division: a zero divisor gives an infinity or NaN (with a
    warning), never an exception. *)
Definition div (a b : npfloat) : npfloat :=
  match a, b with
  | NaN, _ | _, NaN => NaN
  | Fin x, Fin y => if Req_dec_T y 0 then inf_times x else Fin (x / y)
  | Fin _, (PInf | NInf) => Fin 0
  | PInf, Fin y => if Rlt_dec y 0 then NInf else PInf
  | NInf, Fin y => if Rlt_dec y 0 then PInf else NInf
  | (PInf | NInf), (PInf | NInf) => NaN
  end.

Definition exp (a : npfloat) : npfloat :=
  match a with
  | NaN => NaN
  | NInf => Fin 0
  | PInf => PInf
  | Fin r => Fin (Rtrigo_def.exp r)
  end.

Definition log (a : npfloat) : npfloat :=
  match a with
  | NaN | NInf => NaN
  | PInf => PInf
  | Fin r => if Rlt_dec 0 r then Fin (ln r)
             else if Req_dec_T r 0 then NInf else NaN
  end.

(** [a < b]; every comparison with NaN is false. *)
Definition lt (a b : npfloat) : bool :=
  match a, b with
  | NaN, _ | _, NaN => false
  | _, NInf => false
  | NInf, _ => true
  | PInf, _ => false
  | Fin _, PInf => true
  | Fin x, Fin y => if Rlt_dec x y then true else false
  end.

(** [np.maximum] and [np.minimum]: NaN propagates. *)
Definition maximum (a b : npfloat) : npfloat :=
  match a, b with
  | NaN, _ | _, NaN => NaN
  | _, _ => if lt a b then b else a
  end.

Definition minimum (a b : npfloat) : npfloat :=
  match a, b with
  | NaN, _ | _, NaN => NaN
  | _, _ => if lt b a then b else a
  end.

Definition sum (x : list npfloat) : npfloat := foldr add (Fin 0) x.

(** [np.cumsum]: running sums, left to right. *)
Fixpoint cumsum_from (acc : npfloat) (x : list npfloat) : list npfloat :=
  match x with
  | [] => []
  | a :: x => add acc a :: cumsum_from (add acc a) x
  end.

Definition cumsum (x : list npfloat) : list npfloat :=
  match x with
  | [] => []
  | a :: x => a :: cumsum_from a x
  end.

Definition square (a : npfloat) : npfloat := mul a a.

(** [np.nonzero] of a one-dimensional array: the indices of the entries
    that differ from zero, in increasing order (NaN and the infinities
    differ from zero). *)
Fixpoint nonzero_from (i : nat) (x : list npfloat) : list nat :=
  match x with
  | [] => []
  | a :: x => if is_zero a then nonzero_from (S i) x
              else i :: nonzero_from (S i) x
  end.

Definition nonzero (x : list npfloat) : list nat := nonzero_from 0 x.

End Np.

(** ** Exceptions *)

Inductive exn : Type :=
| IndexError
| ValueError
| ZeroDivisionError
| Exception (msg : string)
| FuelExhausted.
(** [FuelExhausted] is not a Python exception: it marks the exhaustion of
    the step budget of the loop of [_sysresample], which is shown below
    never to happen. *)

Inductive result (A : Type) : Type :=
| Ok (a : A)
| Raise (e : exn).
Arguments Ok {A} a.
Arguments Raise {A} e.

Definition rbind {A B} (r : result A) (k : A → result B) : result B :=
  match r with
  | Ok a => k a
  | Raise e => Raise e
  end.

Declare Scope result_scope.
Delimit Scope result_scope with res.
Notation "x <~ r ; k" := (rbind r (fun x => k))
  (at level 100, r at next level, k at level 200, right associativity,
   format "'[v' x  <~  r ; '/' k ']'") : result_scope.
Local Open Scope result_scope.

(** [a[idx]] with an index array: IndexError as soon as one index is out
    of range (all indices used by the code are nonnegative). *)
Fixpoint take_idx {A} (a : list A) (idx : list nat) : result (list A) :=
  match idx with
  | [] => Ok []
  | i :: idx =>
      match a !! i with
      | Some v => vs <~ take_idx a idx; Ok (v :: vs)
      | None => Raise IndexError
      end
  end.

(** [a[i]] and [a[i] = v] with a nonnegative integer index: IndexError
    when the index is out of range. *)
Definition index {A} (a : list A) (i : nat) : result A :=
  match a !! i with
  | Some v => Ok v
  | None => Raise IndexError
  end.

Definition setitem {A} (a : list A) (i : nat) (v : A) : result (list A) :=
  if (i <? length a)%nat then Ok (<[i:=v]> a) else Raise IndexError.

(** [a[idx] = vals] with an index array and an array of values (a single
    value is broadcast): ValueError when the two lengths differ, IndexError
    on an index out of range. *)
Fixpoint put_idx_go {A} (a : list A) (idx : list nat) (vals : list A)
  : result (list A) :=
  match idx, vals with
  | i :: idx, v :: vals => a' <~ setitem a i v; put_idx_go a' idx vals
  | _, _ => Ok a
  end.

Definition put_idx {A} (a : list A) (idx : list nat) (vals : list A)
  : result (list A) :=
  if (length idx =? length vals)%nat then put_idx_go a idx vals
  else match vals with
       | [v] => put_idx_go a idx (replicate (length idx) v)
       | _ => Raise ValueError
       end.

(** [np.max] of a one-dimensional array: ValueError on an empty array. *)
Definition np_max (x : list npfloat) : result npfloat :=
  match x with
  | [] => Raise ValueError
  | a :: x => Ok (foldl Np.maximum a x)
  end.

Definition np_min (x : list npfloat) : result npfloat :=
  match x with
  | [] => Raise ValueError
  | a :: x => Ok (foldl Np.minimum a x)
  end.

(** ** The numerical kernels *)

Definition _logsumexp (x : list npfloat) : result npfloat :=
  c <~ np_max x;
  Ok (Np.add c (Np.log (Np.sum (map (λ v, Np.exp (Np.sub v c)) x)))).

Definition _weight_update (LogLt weight_predictions : list npfloat)
  : result (list npfloat) :=
  let non_zero := Np.nonzero weight_predictions in
  y <~ take_idx LogLt non_zero;
  wnz <~ take_idx weight_predictions non_zero;
  let logw := map Np.log wnz in
  let x := zip_with Np.add y logw in
  let wp := replicate (length weight_predictions) (Fin 0) in
  lse <~ _logsumexp x;
  put_idx wp non_zero (map (λ v, Np.exp (Np.sub v lse)) x).

Definition _update_existance_prob_linear_domain
  (weight_predictions LogRatio : list npfloat) (prob_prediction : npfloat)
  : result npfloat :=
  let Ratio := map Np.exp LogRatio in
  if negb (length weight_predictions =? length Ratio)%nat
     && negb (length weight_predictions =? 1)%nat
     && negb (length Ratio =? 1)%nat
  then Raise ValueError
  else
    let I := Np.sum (match weight_predictions, Ratio with
                     | [w], _ => map (Np.mul w) Ratio
                     | _, [r] => map (λ w, Np.mul w r) weight_predictions
                     | _, _ => zip_with Np.mul weight_predictions Ratio
                     end) in
    if Np.isfinite I then
      Ok (Np.div (Np.mul I prob_prediction)
            (Np.add (Np.sub (Fin 1) prob_prediction) (Np.mul prob_prediction I)))
    else Ok (Fin 1).

Definition _update_existance_prob
  (weight_predictions LogRatio : list npfloat) (prob_prediction : npfloat)
  : result npfloat :=
  let non_zero := Np.nonzero weight_predictions in
  wp <~ take_idx weight_predictions non_zero;
  y <~ take_idx LogRatio non_zero;
  let x1 := zip_with Np.add y (map Np.log wp) in
  let x2 := zip_with Np.add (map (λ v, Np.add v (Np.log prob_prediction)) y)
              (map Np.log wp) in
  let x2 := Np.log (Np.sub (Fin 1) prob_prediction) :: x2 in
  l1 <~ _logsumexp x1;
  l2 <~ _logsumexp x2;
  let logq := Np.sub (Np.add l1 (Np.log prob_prediction)) l2 in
  let q := Np.exp logq in
  np_min [q; Fin 1].

(** ** The random source

    [numpy.random.Generator] is an external library class; the code uses
    two of its methods.  [gen_random] is [Generator.random()], a float in
    [[0,1)]; [gen_choice a size] is [Generator.choice(a, size)] for a
    positive integer [a]: [size] independent uniform draws from
    [range(a)].  Both return the advanced generator state. *)

Class Generator (G : Type) : Type := {
  gen_random : G → R * G;
  gen_choice : nat → nat → G → list nat * G
}.

Class GeneratorLaws (G : Type) `{Generator G} : Prop := {
  gen_random_range : ∀ g, (0 <= (gen_random g).1 < 1)%R;
  gen_choice_length : ∀ a n g, length (gen_choice a n g).1 = n;
  gen_choice_range : ∀ a n g, 0 < a → Forall (λ i, i < a) (gen_choice a n g).1
}.

(** A generator whose every draw is the same, for the examples: [random()]
    returns 3/4 and [choice] returns index 0. *)
Definition fixed_generator : Generator unit := {|
  gen_random := λ g, ((3 / 4)%R, g);
  gen_choice := λ a n g, (replicate n 0, g)
|}.

(** A generator is a mutable Python object: filter states hold a reference
    to it, and every state produced by [override] shares the generator of
    its parent.  The store maps references to generator states. *)
Definition loc : Type := positive.

(** Computations that read and advance generators and may raise. *)
Definition M (G A : Type) : Type := (loc → G) → result A * (loc → G).

Definition mret' {G A} (a : A) : M G A := λ σ, (Ok a, σ).

Definition mbind' {G A B} (c : M G A) (k : A → M G B) : M G B :=
  λ σ, match c σ with
       | (Ok a, σ') => k a σ'
       | (Raise e, σ') => (Raise e, σ')
       end.

Definition lift {G A} (r : result A) : M G A := λ σ, (r, σ).

Declare Scope M_scope.
Delimit Scope M_scope with M.
Notation "x <- c ;; k" := (mbind' c (fun x => k))
  (at level 100, c at next level, k at level 200, right associativity,
   format "'[v' x  <-  c ;; '/' k ']'") : M_scope.

Section Resampler.
Context {G : Type} `{Generator G}.
Local Open Scope M_scope.

Definition rng_random (rng : loc) : M G npfloat :=
  λ σ, let '(u, g) := gen_random (σ rng) in (Ok (Fin u), <[rng:=g]> σ).

(** [rng.choice(a, size)]: ValueError for a negative [size], and for an
    empty population unless no sample is taken. *)
Definition rng_choice (rng : loc) (a : nat) (size : Z) : M G (list nat) :=
  if (size <? 0)%Z then lift (Raise ValueError)
  else if (a =? 0)%nat && negb (size =? 0)%Z then lift (Raise ValueError)
  else λ σ, let '(idx, g) := gen_choice a (Z.to_nat size) (σ rng) in
            (Ok idx, <[rng:=g]> σ).

(** [np.zeros(N, int)] and [np.ones(N)]: ValueError for a negative [N]. *)
Definition np_zeros_int (N : Z) : result (list nat) :=
  if (N <? 0)%Z then Raise ValueError else Ok (replicate (Z.to_nat N) 0%nat).

Definition np_ones (N : Z) : result (list npfloat) :=
  if (N <? 0)%Z then Raise ValueError else Ok (replicate (Z.to_nat N) (Fin 1)).

(** The selection loop of [_sysresample] (lines 112-119).  Every iteration
    advances [i] or [j], so [fuel] bounds the number of iterations. *)
Fixpoint sysresample_loop (fuel : nat) (N : nat)
  (positions cumsum : list npfloat) (indices : list nat) (i j : nat)
  : result (list nat) :=
  match fuel with
  | O => Raise FuelExhausted
  | S fuel =>
      if (i <? N)%nat then
        p <~ index positions i;
        c <~ index cumsum j;
        if Np.lt p c then
          indices' <~ setitem indices i j;
          sysresample_loop fuel N positions cumsum indices' (S i) j
        else
          sysresample_loop fuel N positions cumsum indices i (S j)
      else Ok indices
  end.

(** [_sysresample] (lines 97-121).  The comparison
    [positions[i] < cumsum[j]] is made on exact reals here and on rounded
    values in the code: a position rounded up to the last cumulative sum
    sends [j] past the end, and the code raises IndexError where this
    definition returns. *)
Definition _sysresample (weights : list npfloat) (Nsuv : Z) (rng : loc)
  : M G (list nat) :=
  let N := Z.min (Z.of_nat (length weights)) Nsuv in
  if existsb Np.isnan weights then rng_choice rng (length weights) N
  else
    u <- rng_random rng;;
    let positions :=
      map (λ k : nat, Np.div (Np.add u (Fin (INR k))) (Fin (IZR N)))
        (seq 0 (Z.to_nat N)) in
    indices <- lift (np_zeros_int N);;
    let cumsum := Np.cumsum weights in
    lift (sysresample_loop (S (Z.to_nat N + length weights)) (Z.to_nat N)
            positions cumsum indices 0 0).

End Resampler.

(** ** Scalars

    [prob], [prob_birth] and [prob_surv] are Python floats at construction,
    while the [prob] written by a transition is a numpy scalar (the result
    of [np.min]).  The two differ in one respect that the code meets:
    a Python division by zero raises ZeroDivisionError, a numpy one returns
    an infinity or NaN. *)

Record scalar : Type := Scalar { is_np : bool; val : npfloat }.

Definition py_float (v : npfloat) : scalar := Scalar false v.
Definition np_float (v : npfloat) : scalar := Scalar true v.

Definition sc_lift2 (f : npfloat → npfloat → npfloat) (a b : scalar) : scalar :=
  Scalar (is_np a || is_np b) (f (val a) (val b)).

Definition sc_div (a b : scalar) : result scalar :=
  if negb (is_np a || is_np b) && Np.is_zero (val b)
  then Raise ZeroDivisionError
  else Ok (sc_lift2 Np.div a b).

(** Python's [1/n] for an integer [n]. *)
Definition py_inv_int (n : Z) : result npfloat :=
  if (n =? 0)%Z then Raise ZeroDivisionError else Ok (Fin (1 / IZR n)).

(** ** Two-dimensional arrays

    A population is a matrix with one row per particle.  The number of
    columns is kept apart from the rows, as numpy keeps the shape [(0, D)]
    of an empty population. *)

Record ndarray2 : Type := Array2 { ncols : nat; rows : list (list npfloat) }.

Definition Particles : Type := ndarray2.
Definition Measurements : Type := ndarray2.

Definition wf_array2 (P : ndarray2) : Prop :=
  Forall (λ row, length row = ncols P) (rows P).

(** [np.concatenate((A, B))] along the first axis: the other dimension
    has to agree. *)
Definition np_concatenate2 (A B : ndarray2) : result ndarray2 :=
  if (ncols A =? ncols B)%nat then Ok (Array2 (ncols A) (rows A ++ rows B))
  else Raise ValueError.

(** [P[idx]]: the rows selected by an index array. *)
Definition take_rows (P : ndarray2) (idx : list nat) : result ndarray2 :=
  r <~ take_idx (rows P) idx; Ok (Array2 (ncols P) r).

(** [w @ P] for a vector [w] and a matrix [P]. *)
Definition vecmat (w : list npfloat) (P : ndarray2) : result (list npfloat) :=
  if (length w =? length (rows P))%nat then
    Ok (map (λ c, Np.sum (zip_with
                            (λ wi row, Np.mul wi (default NaN (row !! c)))
                            w (rows P)))
          (seq 0 (ncols P)))
  else Raise ValueError.

(** [np.subtract(P, v)] for a matrix [P] and a vector [v], with numpy's
    broadcasting of the last axis. *)
Definition np_subtract (P : ndarray2) (v : list npfloat) : result ndarray2 :=
  if (ncols P =? length v)%nat then
    Ok (Array2 (ncols P) (map (λ row, zip_with Np.sub row v) (rows P)))
  else match v with
       | [b] => Ok (Array2 (ncols P)
                      (map (λ row, map (λ a, Np.sub a b) row) (rows P)))
       | _ =>
           if (ncols P =? 1)%nat then
             Ok (Array2 (length v)
                   (map (λ row, map (λ b, Np.sub (default NaN (row !! 0%nat)) b) v)
                      (rows P)))
           else Raise ValueError
       end.

(** [np.einsum("i,id,ic->dc", w, d, d)].  The summed axis [i] is shared by
    [w] and the rows of [d]: numpy broadcasts an axis of size one against
    the other size, and raises ValueError on any other mismatch. *)
Definition einsum_i_id_ic (w : list npfloat) (d : ndarray2) : result ndarray2 :=
  if negb (length w =? length (rows d))%nat
     && negb (length w =? 1)%nat
     && negb (length (rows d) =? 1)%nat
  then Raise ValueError
  else
    Ok (Array2 (ncols d)
          (map (λ a, map (λ c,
             Np.sum (match w, rows d with
                     | [w0], rs =>
                         map (λ row,
                                Np.mul (Np.mul w0 (default NaN (row !! a)))
                                  (default NaN (row !! c))) rs
                     | ws, [r0] =>
                         map (λ wi,
                                Np.mul (Np.mul wi (default NaN (r0 !! a)))
                                  (default NaN (r0 !! c))) ws
                     | ws, rs =>
                         zip_with
                           (λ wi row,
                              Np.mul (Np.mul wi (default NaN (row !! a)))
                                (default NaN (row !! c))) ws rs
                     end))
             (seq 0 (ncols d)))
             (seq 0 (ncols d)))).

(** ** The filter object *)

Section Filter.
Context {G : Type} `{Generator G}.
Local Open Scope M_scope.

Definition Likelihood : Type :=
  Particles → option Measurements → list npfloat * list npfloat.
Definition BirthModel : Type := option Measurements → Z → G → Particles * G.
Definition MotionModel : Type := Particles → Particles.

Record BerParticleFilter : Type := {
  likelihood_fn : Likelihood;
  birth_model : BirthModel;
  motion_model : MotionModel;
  Nsuv : Z;
  Nbirth : Z;
  prob_birth : scalar;
  prob_surv : scalar;
  prob : scalar;
  particles_surv : Particles;
  weights_surv : list npfloat;
  particles_born : Particles;
  weights_born : list npfloat;
  N_eff : npfloat;
  N_eff_surv : npfloat;
  N_eff_surv_normalized : npfloat;
  N_eff_born : npfloat;
  N_eff_born_normalized : npfloat;
  rng : loc
}.

(** The birth collaborator draws from the generator it is handed. *)
Definition call_birth (bm : BirthModel) (measurements : option Measurements)
  (n : Z) (rng : loc) : M G Particles :=
  λ σ, let '(p, g) := bm measurements n (σ rng) in (Ok p, <[rng:=g]> σ).

(** Default argument values of [__init__]. *)
Definition default_prob : scalar := py_float (Fin 0).
Definition default_rng : loc := 1%positive.

Definition __init__ (Nsuv Nbirth : Z) (prob_birth prob_surv : scalar)
  (likelihood_fn : Likelihood) (birth_model : BirthModel)
  (motion_model : MotionModel) (prob : scalar)
  (particles_born : option Particles) (weights_born : option (list npfloat))
  (particles_surv : option Particles) (weights_surv : option (list npfloat))
  (N_eff N_eff_surv N_eff_surv_normalized N_eff_born N_eff_born_normalized
     : npfloat)
  (rng : loc) : M G BerParticleFilter :=
  pb <- match particles_born with
        | None => call_birth birth_model None Nbirth rng
        | Some p => mret' p
        end;;
  wb <- match weights_born with
        | None => lift (c <~ py_inv_int Nbirth;
                        ones <~ np_ones Nbirth;
                        Ok (map (Np.mul c) ones))
        | Some w => mret' w
        end;;
  let ps := match particles_surv with
            | None => Array2 (ncols pb) []
            | Some p => p
            end in
  let ws := match weights_surv with
            | None => []
            | Some w => w
            end in
  mret' {| likelihood_fn := likelihood_fn;
           birth_model := birth_model;
           motion_model := motion_model;
           Nsuv := Nsuv;
           Nbirth := Nbirth;
           prob_birth := prob_birth;
           prob_surv := prob_surv;
           prob := prob;
           particles_surv := ps;
           weights_surv := ws;
           particles_born := pb;
           weights_born := wb;
           N_eff := N_eff;
           N_eff_surv := N_eff_surv;
           N_eff_surv_normalized := N_eff_surv_normalized;
           N_eff_born := N_eff_born;
           N_eff_born_normalized := N_eff_born_normalized;
           rng := rng |}.

(** [self.override(...)] with the keyword arguments of its one call site
    (lines 362-373): every other field, the generator reference included,
    is taken from [self], and the new object is built by [__init__]. *)
Definition override (self : BerParticleFilter)
  (particles_born' : Particles) (weights_born' : list npfloat)
  (particles_surv' : Particles) (weights_surv' : list npfloat)
  (prob' : scalar)
  (N_eff' N_eff_surv' N_eff_surv_normalized' N_eff_born'
     N_eff_born_normalized' : npfloat) : M G BerParticleFilter :=
  __init__ (Nsuv self) (Nbirth self) (prob_birth self) (prob_surv self)
    (likelihood_fn self) (birth_model self) (motion_model self) prob'
    (Some particles_born') (Some weights_born')
    (Some particles_surv') (Some weights_surv')
    N_eff' N_eff_surv' N_eff_surv_normalized' N_eff_born'
    N_eff_born_normalized' (rng self).

(** [1/np.sum(v**2)]. *)
Definition ess (v : list npfloat) : npfloat :=
  Np.div (Fin 1) (Np.sum (map Np.square v)).

(** [v / np.sum(v)]. *)
Definition normalize (v : list npfloat) : list npfloat :=
  map (λ a, Np.div a (Np.sum v)) v.

(** The transition.  [particles_surv] is a two-dimensional array, on which
    [np.atleast_2d] is the identity; [Ntot] and [Nborn] (lines 303-304) are
    computed and never used. *)
Definition __call__ (self : BerParticleFilter)
  (measurements : option Measurements) : M G BerParticleFilter :=
  let q := prob self in
  particles <- lift (np_concatenate2 (particles_surv self) (particles_born self));;
  let particles_p := motion_model self particles in
  let q_p := sc_lift2 Np.add
               (sc_lift2 Np.mul (prob_birth self)
                  (sc_lift2 Np.sub (py_float (Fin 1)) q))
               (sc_lift2 Np.mul (prob_surv self) q) in
  c_surv <- lift (sc_div (sc_lift2 Np.mul (prob_surv self) q) q_p);;
  c_born <- lift (sc_div (sc_lift2 Np.mul (prob_birth self)
                            (sc_lift2 Np.sub (py_float (Fin 1)) q)) q_p);;
  let weights_p := map (Np.mul (val c_surv)) (weights_surv self)
                   ++ map (Np.mul (val c_born)) (weights_born self) in
  let weights_p := normalize weights_p in
  let '(LogLt, LogRatio) := likelihood_fn self particles_p measurements in
  q' <- lift (_update_existance_prob weights_p LogRatio (val q_p));;
  w <- lift (_weight_update LogLt weights_p);;
  let w := normalize w in
  let N_eff := ess w in
  let Nsurv := length (rows (particles_surv self)) in
  let N_eff_surv := if (Nsurv =? 0)%nat then NaN else ess (take Nsurv w) in
  let N_eff_surv_normalized :=
    if (Nsurv =? 0)%nat then NaN else ess (normalize (take Nsurv w)) in
  let N_eff_born := ess (drop Nsurv w) in
  let N_eff_born_normalized := ess (normalize (drop Nsurv w)) in
  indices_surv_particles <- _sysresample w (Nsuv self) (rng self);;
  particles_surv <- lift (take_rows particles_p indices_surv_particles);;
  ones_s <- lift (np_ones (Nsuv self));;
  let w_surv := map (λ a, Np.div a (Fin (IZR (Nsuv self)))) ones_s in
  particles_born <- call_birth (birth_model self) measurements (Nbirth self)
                      (rng self);;
  ones_b <- lift (np_ones (Nbirth self));;
  let w_born := map (λ a, Np.div a (Fin (IZR (Nbirth self)))) ones_b in
  override self particles_born w_born particles_surv w_surv (np_float q')
    N_eff N_eff_surv N_eff_surv_normalized N_eff_born N_eff_born_normalized.

Definition mean (self : BerParticleFilter) : result (list npfloat) :=
  if (0 <? length (weights_surv self))%nat then
    vecmat (weights_surv self) (particles_surv self)
  else if (0 <? length (weights_born self))%nat then
    vecmat (weights_born self) (particles_born self)
  else Raise (Exception "No particles or weights").

Definition covar (self : BerParticleFilter) : result ndarray2 :=
  mean <~ mean self;
  d <~ np_subtract (particles_surv self) mean;
  einsum_i_id_ic (weights_surv self) d.

End Filter.

(** ** Vocabulary of the statements *)

(** A log-value: a finite real or minus infinity. *)
Definition logval (v : npfloat) : Prop :=
  match v with Fin _ | NInf => True | _ => False end.

Definition finite (v : npfloat) : Prop :=
  match v with Fin _ => True | _ => False end.

(** A weight: a finite, nonnegative number. *)
Definition nonneg (v : npfloat) : Prop :=
  match v with Fin r => (0 <= r)%R | _ => False end.

(** A probability: a finite number of [[0,1]]. *)
Definition unit_interval (v : npfloat) : Prop :=
  match v with Fin r => (0 <= r <= 1)%R | _ => False end.

(** The vector [L] is finite wherever the weight vector [w] is not zero. *)
Definition finite_on_support (L w : list npfloat) : Prop :=
  ∀ i a, w !! i = Some a → Np.is_zero a = false → ∃ l, L !! i = Some (Fin l).

(** The real number [exp v] of a log-value ([exp(-inf) = 0]). *)
Definition expR (v : npfloat) : R :=
  match v with Fin r => exp r | _ => 0%R end.

(** The real number held by a finite value. *)
Definition valR (v : npfloat) : R :=
  match v with Fin r => r | _ => 0%R end.

Definition sumR {A} (f : A → R) (x : list A) : R :=
  foldr (λ v acc, (f v + acc)%R) 0%R x.

(** The entries of [b] at the positions where [x] is not zero, and the
    inverse placement of values at these positions of a zero vector: what
    indexing with [Np.nonzero x] reads and writes. *)
Fixpoint sel {A} (x : list npfloat) (b : list A) : list A :=
  match x, b with
  | v :: x, u :: b => if Np.is_zero v then sel x b else u :: sel x b
  | _, _ => []
  end.

Fixpoint scatter (x : list npfloat) (vals : list npfloat) : list npfloat :=
  match x with
  | [] => []
  | v :: x =>
      if Np.is_zero v then Fin 0 :: scatter x vals
      else match vals with
           | u :: vals => u :: scatter x vals
           | [] => Fin 0 :: scatter x []
           end
  end.

(** Well-formed filter states and the contracts of the collaborators. *)

Section FilterVocabulary.
Context {G : Type} `{Generator G}.

Definition nrows (P : ndarray2) : nat := length (rows P).

(** What the filter relies on from its collaborators: the motion model
    keeps the number of particles, the likelihood returns two finite
    vectors with one entry per particle, the birth model returns as many
    particles as requested. *)
Record collaborators_ok (self : @BerParticleFilter G) : Prop := {
  motion_rows : ∀ P, nrows (motion_model self P) = nrows P;
  likelihood_length : ∀ P m,
    length (likelihood_fn self P m).1 = nrows P
    ∧ length (likelihood_fn self P m).2 = nrows P;
  likelihood_finite : ∀ P m,
    Forall finite (likelihood_fn self P m).1
    ∧ Forall finite (likelihood_fn self P m).2;
  birth_rows : ∀ m n (g : G),
    (0 ≤ n)%Z → nrows (birth_model self m n g).1 = Z.to_nat n
}.

(** The mass of the predicted mixture before normalisation, times the
    predicted existence probability:
    [prob_surv * q * sum(weights_surv) + prob_birth * (1 - q) * sum(weights_born)]. *)
Definition predicted_mass (self : @BerParticleFilter G) : R :=
  (valR (val (prob_surv self)) * valR (val (prob self))
     * sumR valR (weights_surv self)
   + valR (val (prob_birth self)) * (1 - valR (val (prob self)))
     * sumR valR (weights_born self))%R.

(** A well-formed state with finite fields: each population has one weight
    per particle and the two populations have the same dimension, the
    weights are finite and nonnegative, the probabilities lie in [[0,1]],
    the counts are nonnegative and the predicted mixture is not
    identically zero. *)
Record wf_state (self : @BerParticleFilter G) : Prop := {
  wf_dim : ncols (particles_surv self) = ncols (particles_born self);
  wf_len_surv : length (weights_surv self) = nrows (particles_surv self);
  wf_len_born : length (weights_born self) = nrows (particles_born self);
  wf_weights_surv : Forall nonneg (weights_surv self);
  wf_weights_born : Forall nonneg (weights_born self);
  wf_prob : unit_interval (val (prob self));
  wf_prob_birth : unit_interval (val (prob_birth self));
  wf_prob_surv : unit_interval (val (prob_surv self));
  wf_Nsuv : (0 ≤ Nsuv self)%Z;
  wf_Nbirth : (0 ≤ Nbirth self)%Z;
  wf_mass : (0 < predicted_mass self)%R
}.

End FilterVocabulary.

(** ** Examples

    The collaborators of tests/test_call.py, with three-dimensional
    particles; the normal draws of the birth model are replaced by zeros,
    the example generator having no other draw to offer. *)

#[export] Existing Instance fixed_generator.

Definition test_likelihood : Likelihood :=
  λ P _, (replicate (nrows P) (Fin 0), replicate (nrows P) (Fin 1)).

Definition test_birth_model : @BirthModel unit :=
  λ _ n g, (Array2 3 (replicate (Z.to_nat n) [Fin 0; Fin 0; Fin 0]), g).

Definition test_motion_model : MotionModel := λ P, P.

(** The store in which every reference holds the example generator. *)
Definition test_store : loc → unit := λ _, tt.

(** The state built by
    [BerParticleFilter(Nsuv, Nbirth, prob_birth=0.01, prob_surv=0.99, ...)]
    with every optional argument left out. *)
Definition constructed (Nsuv Nbirth : Z) : @BerParticleFilter unit := {|
  likelihood_fn := test_likelihood;
  birth_model := test_birth_model;
  motion_model := test_motion_model;
  Nsuv := Nsuv;
  Nbirth := Nbirth;
  prob_birth := py_float (Fin (1 / 100));
  prob_surv := py_float (Fin (99 / 100));
  prob := default_prob;
  particles_surv := Array2 3 [];
  weights_surv := [];
  particles_born := Array2 3 (replicate (Z.to_nat Nbirth) [Fin 0; Fin 0; Fin 0]);
  weights_born := map (Np.mul (Fin (1 / IZR Nbirth)))
                    (replicate (Z.to_nat Nbirth) (Fin 1));
  N_eff := NaN;
  N_eff_surv := NaN;
  N_eff_surv_normalized := NaN;
  N_eff_born := NaN;
  N_eff_born_normalized := NaN;
  rng := default_rng
|}.

(** ** Two runs

    [with_rng l self] is [self] holding the generator reference [l];
    [same_fields] relates two states that agree on every field but the
    reference itself, and [same_outcome] two outcomes that are both the
    same exception or both a state with the same fields. *)

Section TwoRuns.
Context {G : Type}.

Definition with_rng (l : loc) (self : @BerParticleFilter G)
  : @BerParticleFilter G := {|
  likelihood_fn := likelihood_fn self;
  birth_model := birth_model self;
  motion_model := motion_model self;
  Nsuv := Nsuv self;
  Nbirth := Nbirth self;
  prob_birth := prob_birth self;
  prob_surv := prob_surv self;
  prob := prob self;
  particles_surv := particles_surv self;
  weights_surv := weights_surv self;
  particles_born := particles_born self;
  weights_born := weights_born self;
  N_eff := N_eff self;
  N_eff_surv := N_eff_surv self;
  N_eff_surv_normalized := N_eff_surv_normalized self;
  N_eff_born := N_eff_born self;
  N_eff_born_normalized := N_eff_born_normalized self;
  rng := l
|}.

Definition same_fields (a b : @BerParticleFilter G) : Prop :=
  with_rng 1%positive a = with_rng 1%positive b.

Definition same_outcome {A} (RA : A → A → Prop) (l1 l2 : loc)
  (o1 o2 : result A * (loc → G)) : Prop :=
  match o1, o2 with
  | (Ok a, σ1), (Ok b, σ2) => RA a b ∧ σ1 l1 = σ2 l2
  | (Raise e1, σ1), (Raise e2, σ2) => e1 = e2 ∧ σ1 l1 = σ2 l2
  | _, _ => False
  end.

End TwoRuns.

(** ** The remaining functions of the module *)

(** [a * b] for two one-dimensional arrays, with numpy's broadcasting of
    an array of length one: ValueError when the shapes do not agree. *)
Definition np_multiply (a b : list npfloat) : result (list npfloat) :=
  if negb (length a =? length b)%nat
     && negb (length a =? 1)%nat
     && negb (length b =? 1)%nat
  then Raise ValueError
  else Ok (match a, b with
           | [w], _ => map (Np.mul w) b
           | _, [r] => map (λ w, Np.mul w r) a
           | _, _ => zip_with Np.mul a b
           end).

(** The linear-domain weight update (lines 36-47), the counterpart of
    [_weight_update] whose call is commented out in [__call__].  The
    exponential is exact here; in the code [exp(LogLt - c)] underflows to
    0 below about -745, which changes the result to NaN when every
    particle of nonzero weight is that far below the maximum. *)
Definition _weight_update_prime (LogLt weight_predictions : list npfloat)
  : result (list npfloat) :=
  c <~ np_max LogLt;
  let Lt := map (λ v, Np.exp (Np.sub v c)) LogLt in
  wn <~ np_multiply weight_predictions Lt;
  Ok (normalize wn).

(** [np.argmax] of a one-dimensional float array: the first index of the
    maximum, a NaN counting as the maximum; ValueError on an empty
    array.  [argmax_from best ibest i x] scans [x], whose first element
    has index [i], with the best value [best] found so far at [ibest]. *)
Fixpoint argmax_from (best : npfloat) (ibest i : nat) (x : list npfloat) : nat :=
  match x with
  | [] => ibest
  | a :: x =>
      if Np.isnan best then ibest
      else if Np.isnan a || Np.lt best a then argmax_from a i (S i) x
      else argmax_from best ibest (S i) x
  end.

Definition np_argmax (x : list npfloat) : result nat :=
  match x with
  | [] => Raise ValueError
  | a :: x => Ok (argmax_from a 0 1 x)
  end.

Section Queries.
Context {G : Type}.

(** The property [maxap] (lines 219-223). *)
Definition maxap (self : @BerParticleFilter G) : result (list npfloat) :=
  i <~ np_argmax (weights_surv self);
  index (rows (particles_surv self)) i.

End Queries.

Section Runs.
Context {G : Type} `{Generator G}.

(** A run of the filter: one transition per measurement set, each from
    the state returned by the previous one. *)
Fixpoint run (self : @BerParticleFilter G)
  (measurements : list (option Measurements)) : M G BerParticleFilter :=
  match measurements with
  | [] => mret' self
  | m :: measurements =>
      mbind' (__call__ self m) (λ self', run self' measurements)
  end.

End Runs.

(** The index array [idx] is non-decreasing. *)
Definition nondecreasing (idx : list nat) : Prop :=
  ∀ i j a b, i ≤ j → idx !! i = Some a → idx !! j = Some b → a ≤ b.

(** The integral [sum_i w_i exp(L_i)] of a log-vector against weights. *)
Definition integral (wp L : list npfloat) : R :=
  sumR valR (zip_with Np.mul wp (map Np.exp L)).

(** Position number [k] of [ps] falls in the step number [a] of the
    staircase [cs]: below [cs[a]] and not below any earlier entry. *)
Definition brackets (ps cs : list R) (k a : nat) : Prop :=
  ∃ p c, ps !! k = Some p ∧ cs !! a = Some c ∧ (p < c)%R
         ∧ ∀ t c', t < a → cs !! t = Some c' → (c' <= p)%R.

(** Entry [(a, b)] of a matrix. *)
Definition entry (C : ndarray2) (a b : nat) : option npfloat :=
  match rows C !! a with
  | Some row => row !! b
  | None => None
  end.

(** A state with two surviving particles, for the examples. *)
Definition tracked : @BerParticleFilter unit := {|
  likelihood_fn := test_likelihood;
  birth_model := test_birth_model;
  motion_model := test_motion_model;
  Nsuv := 2;
  Nbirth := 2;
  prob_birth := py_float (Fin (1 / 100));
  prob_surv := py_float (Fin (99 / 100));
  prob := np_float (Fin (1 / 2));
  particles_surv := Array2 3 [[Fin 0; Fin 0; Fin 0]; [Fin 2; Fin 4; Fin 6]];
  weights_surv := [Fin (1 / 4); Fin (3 / 4)];
  particles_born := Array2 3 [[Fin 0; Fin 0; Fin 0]; [Fin 0; Fin 0; Fin 0]];
  weights_born := [Fin (1 / 2); Fin (1 / 2)];
  N_eff := NaN;
  N_eff_surv := NaN;
  N_eff_surv_normalized := NaN;
  N_eff_born := NaN;
  N_eff_born_normalized := NaN;
  rng := default_rng
|}.

Section RunVocabulary.
Context {G : Type} `{Generator G}.

(** The predicted existence probability
    [q_p = prob_birth (1 - q) + prob_surv q] of a state with finite
    fields. *)
Definition predicted_prob (self : @BerParticleFilter G) : R :=
  (valR (val (prob_birth self)) * (1 - valR (val (prob self)))
   + valR (val (prob_surv self)) * valR (val (prob self)))%R.

(** The predicted joint weights (lines 311-315). *)
Definition predicted_weights (self : @BerParticleFilter G) : list npfloat :=
  normalize
    (map (Np.mul (Fin (valR (val (prob_surv self)) * valR (val (prob self))
                       / predicted_prob self)))
       (weights_surv self)
     ++ map (Np.mul (Fin (valR (val (prob_birth self))
                          * (1 + - valR (val (prob self)))
                          / predicted_prob self)))
          (weights_born self)).

(** The propagated joint population (lines 306-307). *)
Definition propagated (self : @BerParticleFilter G) : Particles :=
  motion_model self
    (Array2 (ncols (particles_born self))
       (rows (particles_surv self) ++ rows (particles_born self))).

(** A state from which the filter can be run: well formed, with
    collaborators that honour their contracts and keep the dimension of
    the particles, at least [Nsuv >= 1] particles in all, at least one
    newborn particle per transition, and positive survival and birth
    probabilities. *)
Record runnable (self : @BerParticleFilter G) : Prop := {
  run_wf : wf_state self;
  run_collaborators : collaborators_ok self;
  run_motion_dim : ∀ P, ncols (motion_model self P) = ncols P;
  run_birth_dim : ∀ m n (g : G),
    ncols (birth_model self m n g).1 = ncols (particles_born self);
  run_Nsuv : (1 ≤ Nsuv self)%Z;
  run_enough : (Nsuv self
                ≤ Z.of_nat (length (weights_surv self)
                            + length (weights_born self)))%Z;
  run_Nbirth : (1 ≤ Nbirth self)%Z;
  run_prob_surv : (0 < valR (val (prob_surv self)))%R;
  run_prob_birth : (0 < valR (val (prob_birth self)))%R
}.

End RunVocabulary.

(** The state built with [prob_birth=0.0] and every optional argument
    left out, the existence probability at its default of 0. *)
Definition constructed_no_birth : @BerParticleFilter unit := {|
  likelihood_fn := test_likelihood;
  birth_model := test_birth_model;
  motion_model := test_motion_model;
  Nsuv := 2;
  Nbirth := 2;
  prob_birth := py_float (Fin 0);
  prob_surv := py_float (Fin (99 / 100));
  prob := default_prob;
  particles_surv := Array2 3 [];
  weights_surv := [];
  particles_born := Array2 3 [[Fin 0; Fin 0; Fin 0]; [Fin 0; Fin 0; Fin 0]];
  weights_born := [Fin (1 / 2); Fin (1 / 2)];
  N_eff := NaN;
  N_eff_surv := NaN;
  N_eff_surv_normalized := NaN;
  N_eff_born := NaN;
  N_eff_born_normalized := NaN;
  rng := default_rng
|}.

(** ** The existence update over the floating-point library

    [np.exp] and [np.log] return rounded values, so the quotient computed
    on lines 85-89 may come out slightly above 1.  The two definitions
    below are [_logsumexp] and [_update_existance_prob] with these two
    library functions as parameters; at [Np.exp] and [Np.log] they are
    the kernels above. *)

Section LibraryArithmetic.
Variables (np_exp np_log : npfloat → npfloat).

Definition _logsumexp_with (x : list npfloat) : result npfloat :=
  c <~ np_max x;
  Ok (Np.add c (np_log (Np.sum (map (λ v, np_exp (Np.sub v c)) x)))).

Definition _update_existance_prob_with
  (weight_predictions LogRatio : list npfloat) (prob_prediction : npfloat)
  : result npfloat :=
  let non_zero := Np.nonzero weight_predictions in
  wp <~ take_idx weight_predictions non_zero;
  y <~ take_idx LogRatio non_zero;
  let x1 := zip_with Np.add y (map np_log wp) in
  let x2 := zip_with Np.add (map (λ v, Np.add v (np_log prob_prediction)) y)
              (map np_log wp) in
  let x2 := np_log (Np.sub (Fin 1) prob_prediction) :: x2 in
  l1 <~ _logsumexp_with x1;
  l2 <~ _logsumexp_with x2;
  let logq := Np.sub (Np.add l1 (np_log prob_prediction)) l2 in
  let q := np_exp logq in
  np_min [q; Fin 1].

End LibraryArithmetic.

(** ** Facts about the primitives *)

Section Primitives.
Local Open Scope R_scope.

Lemma sumR_app {A} (f : A → R) x y : sumR f (x ++ y) = sumR f x + sumR f y.
Proof. induction x as [|a x IH]; simpl; [lra | rewrite IH; lra]. Qed.

Lemma sumR_scal {A} (f : A → R) k x :
  sumR (λ v, k * f v) x = k * sumR f x.
Proof. induction x as [|a x IH]; simpl; [lra | rewrite IH; lra]. Qed.

Lemma sumR_ext {A} (f g : A → R) x :
  Forall (λ v, f v = g v) x → sumR f x = sumR g x.
Proof. induction 1 as [|a x Ha _ IH]; simpl; [done | by rewrite Ha, IH]. Qed.

Lemma sumR_nonneg {A} (f : A → R) x :
  Forall (λ v, 0 <= f v) x → 0 <= sumR f x.
Proof. induction 1 as [|a x Ha _ IH]; simpl; lra. Qed.

Lemma sumR_pos {A} (f : A → R) x a :
  Forall (λ v, 0 <= f v) x → a ∈ x → 0 < f a → 0 < sumR f x.
Proof.
  induction 1 as [|b x Hb Hx IH]; intros Hin Hpos.
  - by apply elem_of_nil in Hin.
  - simpl. apply sumR_nonneg in Hx as Hs.
    apply elem_of_cons in Hin as [->|Hin]; [lra|].
    specialize (IH Hin Hpos). lra.
Qed.

Lemma expR_nonneg v : 0 <= expR v.
Proof. destruct v; simpl; try lra. left. apply exp_pos. Qed.

Lemma sum_map_Fin {A} (f : A → R) (x : list A) :
  Np.sum (map (λ v, Fin (f v)) x) = Fin (sumR f x).
Proof.
  unfold Np.sum. induction x as [|a x IH]; simpl; [done|].
  by rewrite IH.
Qed.

Lemma sum_Fin_ext {A} (g : A → npfloat) (f : A → R) (x : list A) :
  Forall (λ v, g v = Fin (f v)) x → Np.sum (map g x) = Fin (sumR f x).
Proof.
  intros H. rewrite <- sum_map_Fin. f_equal.
  induction H as [|a x Ha _ IH]; simpl; [done | by rewrite Ha, IH].
Qed.

Lemma sum_exp_logval (x : list npfloat) :
  Forall logval x → Np.sum (map Np.exp x) = Fin (sumR expR x).
Proof.
  intros H. apply sum_Fin_ext. eapply Forall_impl; [exact H|].
  by intros [| | |r] Hv.
Qed.

Lemma maximum_logval a b :
  logval (Np.maximum a b) →
  logval a ∧ logval b ∧ (Np.maximum a b = a ∨ Np.maximum a b = b).
Proof.
  destruct a as [| | |x], b as [| | |y]; simpl; try tauto.
  destruct (Rlt_dec x y); simpl; tauto.
Qed.

Lemma foldl_maximum_Fin x : ∀ a m,
  foldl Np.maximum a x = Fin m →
  Forall logval (a :: x) ∧ Fin m ∈ a :: x.
Proof.
  induction x as [|b x IH]; intros a m H; simpl in H.
  - subst a. split; [by repeat constructor | by left].
  - apply IH in H as [Hall Hin].
    apply Forall_cons in Hall as [Hab Hx].
    apply maximum_logval in Hab as (Ha & Hb & Hor).
    split; [by repeat constructor|].
    apply elem_of_cons in Hin as [Hm|Hin].
    + destruct Hor as [E|E]; rewrite E in Hm; subst.
      * by left.
      * right; by left.
    + by do 2 right.
Qed.

Lemma np_max_Fin x m :
  np_max x = Ok (Fin m) → Forall logval x ∧ Fin m ∈ x.
Proof.
  destruct x as [|a x]; simpl; [done|].
  intros [= H]. by apply foldl_maximum_Fin.
Qed.

Lemma exp_shift_logval v m :
  logval v → Np.exp (Np.sub v (Fin m)) = Fin (exp (- m) * expR v).
Proof.
  destruct v as [| | |r]; simpl; try done; intros _; f_equal.
  - lra.
  - by rewrite exp_plus, Rmult_comm.
Qed.

(** The max-shifted sum evaluated on log-values with at least one finite
    entry. *)
Lemma logsumexp_shifted_value (x : list npfloat) (c : R) (a : R) :
  Forall logval x → Fin a ∈ x →
  Np.add (Fin c) (Np.log (Np.sum (map (λ v, Np.exp (Np.sub v (Fin c))) x)))
  = Fin (ln (sumR expR x)).
Proof.
  intros Hall Hin.
  assert (Hpos : 0 < sumR expR x).
  { eapply sumR_pos; [|exact Hin|simpl; apply exp_pos].
    eapply Forall_impl; [exact Hall|]. intros; apply expR_nonneg. }
  rewrite (sum_Fin_ext _ (λ v, exp (- c) * expR v)).
  2:{ eapply Forall_impl; [exact Hall|]. intros v Hv.
      by apply exp_shift_logval. }
  rewrite sumR_scal. simpl.
  pose proof (exp_pos (- c)) as He.
  destruct (Rlt_dec 0 (exp (- c) * sumR expR x)) as [_|Hn].
  2:{ exfalso. apply Hn. by apply Rmult_lt_0_compat. }
  simpl. f_equal.
  rewrite ln_mult by done. rewrite ln_exp. lra.
Qed.

Lemma logsumexp_value (x : list npfloat) (m : R) :
  np_max x = Ok (Fin m) →
  _logsumexp x = Ok (Fin (ln (sumR expR x))).
Proof.
  intros Hmax. unfold _logsumexp. rewrite Hmax. simpl.
  apply np_max_Fin in Hmax as [Hall Hin].
  f_equal. by eapply logsumexp_shifted_value.
Qed.

Lemma log_Fin_pos r : 0 < r → Np.log (Fin r) = Fin (ln r).
Proof. intros H. simpl. by destruct (Rlt_dec 0 r). Qed.

End Primitives.

(** ** Indexing with [np.nonzero] *)

Section Support.

Lemma nonzero_from_all_zero x k :
  (∀ i v, x !! i = Some v → Np.is_zero v = true) → Np.nonzero_from k x = [].
Proof.
  revert k. induction x as [|v x IH]; intros k Hz; simpl; [done|].
  rewrite (Hz 0%nat v) by done. apply IH. intros i w Hi. by apply (Hz (S i)).
Qed.

Lemma take_idx_nonzero_from {A} (x : list npfloat) : ∀ (b pre : list A),
  (∀ i v, x !! i = Some v → Np.is_zero v = false → i < length b) →
  take_idx (pre ++ b) (Np.nonzero_from (length pre) x) = Ok (sel x b).
Proof.
  induction x as [|v x IH]; intros b pre Hcov; simpl; [done|].
  destruct b as [|u b].
  - rewrite nonzero_from_all_zero.
    2:{ intros i w Hi. destruct (Np.is_zero w) eqn:E; [done|].
        specialize (Hcov (S i) w Hi E). simpl in Hcov. lia. }
    destruct (Np.is_zero v) eqn:E; [done|].
    specialize (Hcov 0%nat v eq_refl E). simpl in Hcov. lia.
  - assert (Hpre : pre ++ u :: b = (pre ++ [u]) ++ b) by by rewrite <- app_assoc.
    assert (Hlen : S (length pre) = length (pre ++ [u]))
      by (rewrite length_app; simpl; lia).
    assert (Hcov' : ∀ i w, x !! i = Some w → Np.is_zero w = false → i < length b).
    { intros i w Hi E. specialize (Hcov (S i) w Hi E). simpl in Hcov. lia. }
    destruct (Np.is_zero v) eqn:E.
    + rewrite Hpre, Hlen. by apply IH.
    + simpl. rewrite list_lookup_middle by done.
      rewrite Hpre, Hlen, IH by done. done.
Qed.

Lemma take_idx_nonzero {A} (x : list npfloat) (b : list A) :
  (∀ i v, x !! i = Some v → Np.is_zero v = false → i < length b) →
  take_idx b (Np.nonzero x) = Ok (sel x b).
Proof. intros Hcov. by apply (take_idx_nonzero_from x b []). Qed.

Lemma sel_nil_r {A} x : sel x (@nil A) = [].
Proof. by destruct x. Qed.

Lemma sel_map {A B} (g : A → B) x : ∀ b, sel x (map g b) = map g (sel x b).
Proof.
  induction x as [|v x IH]; intros [|u b]; simpl; try done.
  destruct (Np.is_zero v); simpl; by rewrite IH.
Qed.

Lemma sel_zip_with {A B C} (f : A → B → C) x : ∀ a b,
  sel x (zip_with f a b) = zip_with f (sel x a) (sel x b).
Proof.
  induction x as [|v x IH]; intros [|u a] [|w b]; simpl; try done.
  - by destruct (Np.is_zero v), (sel x a).
  - destruct (Np.is_zero v); simpl; by rewrite IH.
Qed.

Lemma length_sel {A B} x : ∀ (a : list A) (b : list B),
  (∀ i v, x !! i = Some v → Np.is_zero v = false → i < length a) →
  (∀ i v, x !! i = Some v → Np.is_zero v = false → i < length b) →
  length (sel x a) = length (sel x b).
Proof.
  induction x as [|v x IH]; intros a b Ha Hb; [done|].
  assert (Hnz : Np.is_zero v = false → 0 < length a ∧ 0 < length b).
  { intros E. split; [by apply (Ha 0%nat v) | by apply (Hb 0%nat v)]. }
  destruct a as [|u a], b as [|w b]; simpl in *.
  - done.
  - destruct (Np.is_zero v); [|lia].
    rewrite <- (IH [] b); [by rewrite sel_nil_r| |].
    + intros i z Hi E. specialize (Ha (S i) z Hi E). lia.
    + intros i z Hi E. specialize (Hb (S i) z Hi E). lia.
  - destruct (Np.is_zero v); [|lia].
    rewrite (IH a []); [by rewrite sel_nil_r| |].
    + intros i z Hi E. specialize (Ha (S i) z Hi E). lia.
    + intros i z Hi E. specialize (Hb (S i) z Hi E). lia.
  - assert (length (sel x a) = length (sel x b)) as Hl.
    { apply IH.
      - intros i z Hi E. specialize (Ha (S i) z Hi E). lia.
      - intros i z Hi E. specialize (Hb (S i) z Hi E). lia. }
    destruct (Np.is_zero v); simpl; by rewrite Hl.
Qed.

Lemma length_nonzero_from x : ∀ k,
  length (Np.nonzero_from k x) = length (sel x x).
Proof.
  induction x as [|v x IH]; intros k; simpl; [done|].
  destruct (Np.is_zero v); simpl; rewrite IH; done.
Qed.

Lemma length_scatter x : ∀ vals, length (scatter x vals) = length x.
Proof.
  induction x as [|v x IH]; intros vals; simpl; [done|].
  destruct (Np.is_zero v); simpl; [by rewrite IH|].
  destruct vals; simpl; by rewrite IH.
Qed.

Lemma put_idx_go_nonzero_from (x : list npfloat) : ∀ pre vals,
  length vals = length (sel x x) →
  put_idx_go (pre ++ replicate (length x) (Fin 0))
    (Np.nonzero_from (length pre) x) vals
  = Ok (pre ++ scatter x vals).
Proof.
  induction x as [|v x IH]; intros pre vals Hlen; simpl in *.
  - by rewrite app_nil_r.
  - assert (Hpre : ∀ u, pre ++ u :: replicate (length x) (Fin 0)
                        = (pre ++ [u]) ++ replicate (length x) (Fin 0))
      by (intros; by rewrite <- app_assoc).
    assert (Hl : S (length pre) = length (pre ++ [Fin 0]))
      by (rewrite length_app; simpl; lia).
    destruct (Np.is_zero v) eqn:E.
    + rewrite Hpre, Hl, IH by done. by rewrite <- app_assoc.
    + destruct vals as [|u vals]; simpl in Hlen; [done|].
      simpl. unfold setitem.
      assert (length pre < length (pre ++ Fin 0 :: replicate (length x) (Fin 0)))
        as Hlt by (rewrite length_app; simpl; lia).
      apply Nat.ltb_lt in Hlt. rewrite Hlt. simpl.
      rewrite insert_app_r_alt, Nat.sub_diag by lia. simpl.
      rewrite Hpre.
      replace (S (length pre)) with (length (pre ++ [u]))
        by (rewrite length_app; simpl; lia).
      rewrite IH by lia. by rewrite <- app_assoc.
Qed.

Lemma put_idx_nonzero (x vals : list npfloat) :
  length vals = length (sel x x) →
  put_idx (replicate (length x) (Fin 0)) (Np.nonzero x) vals
  = Ok (scatter x vals).
Proof.
  intros Hlen. unfold put_idx, Np.nonzero.
  rewrite length_nonzero_from, <- Hlen, Nat.eqb_refl.
  by apply (put_idx_go_nonzero_from x []).
Qed.

Lemma add_zero_l v : Np.add (Fin 0) v = v.
Proof. destruct v; simpl; try done. f_equal. lra. Qed.

Lemma sum_scatter x : ∀ vals,
  length vals = length (sel x x) → Np.sum (scatter x vals) = Np.sum vals.
Proof.
  unfold Np.sum.
  induction x as [|v x IH]; intros vals Hlen; simpl in *.
  - by destruct vals.
  - destruct (Np.is_zero v).
    + simpl. rewrite IH by done. apply add_zero_l.
    + destruct vals as [|u vals]; simpl in *; [done|].
      rewrite IH by lia. done.
Qed.

Lemma scatter_lookup_zero x : ∀ vals i v,
  x !! i = Some v → Np.is_zero v = true → scatter x vals !! i = Some (Fin 0).
Proof.
  induction x as [|w x IH]; intros vals i v Hi Hz; [done|].
  destruct i as [|i]; simpl in *.
  - injection Hi as ->. by rewrite Hz.
  - destruct (Np.is_zero w); simpl; [by eapply IH|].
    destruct vals; simpl; by eapply IH.
Qed.

Lemma scatter_sel_lookup {A} (g : A → npfloat) x : ∀ (X : list A) i v u,
  x !! i = Some v → Np.is_zero v = false → X !! i = Some u →
  scatter x (map g (sel x X)) !! i = Some (g u).
Proof.
  induction x as [|w x IH]; intros X i v u Hi Hz HX; [done|].
  destruct X as [|a X]; [done|].
  destruct i as [|i]; simpl in *.
  - injection Hi as ->. injection HX as ->. by rewrite Hz.
  - destruct (Np.is_zero w); simpl; by eapply IH.
Qed.

Lemma Forall_scatter (P : npfloat → Prop) x : ∀ vals,
  P (Fin 0) → Forall P vals → Forall P (scatter x vals).
Proof.
  induction x as [|v x IH]; intros vals H0 Hv; simpl; [done|].
  destruct (Np.is_zero v).
  - constructor; [done | by apply IH].
  - destruct Hv as [|u vals Hu Hv]; constructor; try done; by apply IH.
Qed.

End Support.

(** ** The log-domain kernels *)

(** Decide the comparisons of real constants met while evaluating a
    primitive on concrete numbers. *)
Ltac Rdec :=
  repeat match goal with
    | |- context [Req_dec_T ?a ?b] => destruct (Req_dec_T a b); try lra
    | |- context [Rlt_dec ?a ?b] => destruct (Rlt_dec a b); try lra
    | H : context [Req_dec_T ?a ?b] |- _ => destruct (Req_dec_T a b); try lra
    | H : context [Rlt_dec ?a ?b] |- _ => destruct (Rlt_dec a b); try lra
    end.

Section Kernels.
Local Open Scope R_scope.

Lemma maximum_logval_Fin a b :
  logval a → logval b →
  logval (Np.maximum a b) ∧
  (finite a ∨ finite b → finite (Np.maximum a b)).
Proof.
  destruct a as [| | |x], b as [| | |y]; simpl; try tauto.
  destruct (Rlt_dec x y); simpl; tauto.
Qed.

Lemma foldl_maximum_logval x : ∀ a,
  Forall logval (a :: x) → Exists finite (a :: x) →
  ∃ m, foldl Np.maximum a x = Fin m.
Proof.
  induction x as [|b x IH]; intros a Hall Hex; simpl.
  - apply Exists_cons in Hex as [Hf|Hex]; [|by apply Exists_nil in Hex].
    destruct a; try done. by eexists.
  - apply Forall_cons in Hall as [Ha Hall].
    apply Forall_cons in Hall as [Hb Hall].
    destruct (maximum_logval_Fin a b Ha Hb) as [Hl Hf].
    apply IH; [by constructor|].
    apply Exists_cons in Hex as [Hfa|Hex]; [left; tauto|].
    apply Exists_cons in Hex as [Hfb|Hex]; [left; tauto|by right].
Qed.

Lemma np_max_logval x :
  Forall logval x → Exists finite x → ∃ m, np_max x = Ok (Fin m).
Proof.
  destruct x as [|a x]; intros Hall Hex; [by apply Exists_nil in Hex|].
  destruct (foldl_maximum_logval x a Hall Hex) as [m Hm].
  exists m. simpl. by rewrite Hm.
Qed.

Lemma finite_logval v : finite v → logval v.
Proof. by destruct v. Qed.

Lemma Exists_finite_elem x : Exists finite x → ∃ r, Fin r ∈ x.
Proof.
  intros (v & Hin & Hv)%Exists_exists. destruct v; try done. by eexists.
Qed.

Lemma elem_finite_Exists x r : Fin r ∈ x → Exists finite x.
Proof. intros Hin. apply Exists_exists. by exists (Fin r). Qed.

Lemma sumR_expR_pos x :
  Forall logval x → Exists finite x → 0 < sumR expR x.
Proof.
  intros Hall (r & Hin)%Exists_finite_elem.
  eapply sumR_pos; [|exact Hin|simpl; apply exp_pos].
  eapply Forall_impl; [exact Hall|]. intros; apply expR_nonneg.
Qed.

(** [_logsumexp] on log-values of which one at least is finite. *)
Lemma logsumexp_logval x :
  Forall logval x → Exists finite x →
  _logsumexp x = Ok (Fin (ln (sumR expR x))).
Proof.
  intros Hall Hex. destruct (np_max_logval x Hall Hex) as [m Hm].
  by eapply logsumexp_value.
Qed.

(** Subtracting the log-sum-exp and exponentiating normalises. *)
Lemma softmax_entry x v :
  Forall logval x → Exists finite x → logval v →
  Np.exp (Np.sub v (Fin (ln (sumR expR x)))) = Fin (expR v / sumR expR x).
Proof.
  intros Hall Hex Hv. pose proof (sumR_expR_pos x Hall Hex) as Hpos.
  rewrite exp_shift_logval by done. f_equal.
  rewrite exp_Ropp, exp_ln by done. unfold Rdiv. lra.
Qed.

Lemma softmax_sum x :
  Forall logval x → Exists finite x →
  Np.sum (map (λ v, Np.exp (Np.sub v (Fin (ln (sumR expR x))))) x) = Fin 1.
Proof.
  intros Hall Hex. pose proof (sumR_expR_pos x Hall Hex) as Hpos.
  rewrite (sum_Fin_ext _ (λ v, / sumR expR x * expR v)).
  2:{ eapply Forall_impl; [exact Hall|]. intros v Hv. simpl.
      rewrite softmax_entry by done. f_equal. unfold Rdiv. lra. }
  rewrite sumR_scal. f_equal. field. lra.
Qed.

Lemma sel_Forall {A} (P : A → Prop) x : ∀ X,
  (∀ i v u, x !! i = Some v → Np.is_zero v = false → X !! i = Some u → P u) →
  Forall P (sel x X).
Proof.
  induction x as [|v x IH]; intros [|u X] HP; simpl; try done.
  assert (Forall P (sel x X)) as Ht.
  { apply IH. intros i w a Hi Hz Ha. by apply (HP (S i) w a). }
  destruct (Np.is_zero v) eqn:E; [done|].
  constructor; [|done]. by apply (HP 0%nat v u).
Qed.

Lemma sel_nonempty {A} x : ∀ (X : list A),
  Exists (λ v, Np.is_zero v = false) x →
  (∀ i v, x !! i = Some v → Np.is_zero v = false → (i < length X)%nat) →
  sel x X ≠ [].
Proof.
  induction x as [|v x IH]; intros X Hex Hcov.
  - by apply Exists_nil in Hex.
  - destruct X as [|u X].
    + apply Exists_exists in Hex as (w & Hin & Hw).
      apply list_elem_of_lookup in Hin as [i Hi].
      specialize (Hcov i w Hi Hw). simpl in Hcov. lia.
    + simpl. destruct (Np.is_zero v) eqn:E; [|done].
      apply IH.
      * apply Exists_cons in Hex as [Hv|Hex]; [congruence|done].
      * intros i w Hi Hw. specialize (Hcov (S i) w Hi Hw). simpl in Hcov. lia.
Qed.

Lemma Forall_finite_Exists x : Forall finite x → x ≠ [] → Exists finite x.
Proof. intros [|v y Hv _] Hne; [done|]. by left. Qed.

Lemma nonneg_nonzero_log v :
  nonneg v → Np.is_zero v = false → ∃ w, v = Fin w ∧ 0 < w ∧ Np.log v = Fin (ln w).
Proof.
  destruct v as [| | |w]; simpl; try done. intros Hw Hz.
  exists w. destruct (Req_dec_T w 0) as [->|Hne]; [done|].
  assert (0 < w) as Hpos by lra.
  destruct (Rlt_dec 0 w); [done|lra].
Qed.

Lemma lookup_zip_with_add_log (L wp : list npfloat) i u :
  zip_with Np.add L (map Np.log wp) !! i = Some u →
  ∃ l w, L !! i = Some l ∧ wp !! i = Some w ∧ u = Np.add l (Np.log w).
Proof.
  rewrite lookup_zip_with. intros H.
  destruct (L !! i) as [l|] eqn:El; simpl in H; [|done].
  rewrite list_lookup_fmap in H.
  destruct (wp !! i) as [w|] eqn:Ew; simpl in H; [|done].
  injection H as <-. by exists l, w.
Qed.

(** The restricted vector [x = (L + log w)[nonzero w]] is finite. *)
Lemma support_logs_finite (L wp : list npfloat) :
  Forall nonneg wp → finite_on_support L wp →
  Forall finite (sel wp (zip_with Np.add L (map Np.log wp))).
Proof.
  intros Hnn Hfin. apply sel_Forall. intros i v u Hi Hz Hu.
  apply lookup_zip_with_add_log in Hu as (l & w & Hl & Hw & ->).
  rewrite Hi in Hw. injection Hw as <-.
  destruct (Hfin i v Hi Hz) as [l' Hl']. rewrite Hl in Hl'. injection Hl' as ->.
  rewrite Forall_lookup in Hnn. specialize (Hnn i v Hi).
  destruct (nonneg_nonzero_log v Hnn Hz) as (w & -> & Hpos & ->). done.
Qed.

Lemma support_cover (L wp : list npfloat) :
  finite_on_support L wp →
  ∀ i v, wp !! i = Some v → Np.is_zero v = false → (i < length L)%nat.
Proof.
  intros Hfin i v Hi Hz. destruct (Hfin i v Hi Hz) as [l Hl].
  by eapply lookup_lt_Some.
Qed.

Lemma self_cover (wp : list npfloat) :
  ∀ i v, wp !! i = Some v → Np.is_zero v = false → (i < length wp)%nat.
Proof. intros i v Hi _. by eapply lookup_lt_Some. Qed.

Lemma zip_cover (L wp : list npfloat) :
  finite_on_support L wp →
  ∀ i v, wp !! i = Some v → Np.is_zero v = false →
         (i < length (zip_with Np.add L (map Np.log wp)))%nat.
Proof.
  intros Hfin i v Hi Hz. rewrite length_zip_with, length_map.
  pose proof (support_cover L wp Hfin i v Hi Hz).
  pose proof (self_cover wp i v Hi Hz). lia.
Qed.

End Kernels.

Section KernelSpecs.
Local Open Scope R_scope.

Lemma sumR_expR_single pre post m :
  Forall (eq NInf) pre → Forall (eq NInf) post →
  sumR expR (pre ++ Fin m :: post) = exp m.
Proof.
  intros Hpre Hpost. rewrite sumR_app. simpl.
  assert (∀ l, Forall (eq NInf) l → sumR expR l = 0) as Hz.
  { induction 1 as [|v l <- _ IH]; simpl; [done|]. rewrite IH. lra. }
  rewrite (Hz pre), (Hz post) by done. lra.
Qed.

(** C8. For every nonempty array [x] of log-values whose maximum is a
    finite [m], [_logsumexp x] is [log(sum(exp(x)))], obtained in the
    max-shifted form [m + log(sum(exp(x - m)))]; and when every element
    but one is minus infinity the result is that one element, the
    maximum. *)
Theorem logsumexp_spec (x : list npfloat) (m : R) :
  np_max x = Ok (Fin m) →
  _logsumexp x = Ok (Np.log (Np.sum (map Np.exp x)))
  ∧ _logsumexp x
    = Ok (Np.add (Fin m)
            (Np.log (Np.sum (map (λ v, Np.exp (Np.sub v (Fin m))) x))))
  ∧ _logsumexp x = Ok (Fin (ln (sumR expR x)))
  ∧ (∀ pre post, x = pre ++ Fin m :: post →
       Forall (eq NInf) pre → Forall (eq NInf) post →
       _logsumexp x = Ok (Fin m)).
Proof.
  intros Hmax. pose proof (logsumexp_value x m Hmax) as Hval.
  destruct (np_max_Fin x m Hmax) as [Hall Hin].
  pose proof (elem_finite_Exists x m Hin) as Hex.
  pose proof (sumR_expR_pos x Hall Hex) as Hpos.
  repeat split.
  - rewrite Hval, sum_exp_logval by done. by rewrite log_Fin_pos.
  - unfold _logsumexp. by rewrite Hmax.
  - done.
  - intros pre post -> Hpre Hpost. rewrite Hval.
    by rewrite sumR_expR_single, ln_exp.
Qed.

Lemma logsumexp_spec_witness :
  np_max [Fin 0; NInf] = Ok (Fin 0)
  ∧ _logsumexp [Fin 0; NInf] = Ok (Fin 0).
Proof.
  split; [reflexivity|].
  destruct (logsumexp_spec [Fin 0; NInf] 0 eq_refl) as (_ & _ & _ & Hone).
  apply (Hone [] [NInf] eq_refl).
  - constructor.
  - by repeat constructor.
Defined.

(** C4. For a nonnegative, not-all-zero [weight_predictions] and a [LogLt]
    finite wherever the weight is not zero, [_weight_update] returns a
    vector of the length of [weight_predictions] that is exactly 0 where
    the weight is 0 and [exp(x - logsumexp(x))] elsewhere, for
    [x = (LogLt + log(weight_predictions))] restricted to the nonzero
    weights; every entry is nonnegative and the entries sum to 1. *)
Theorem weight_update_spec (LogLt weight_predictions : list npfloat) :
  Forall nonneg weight_predictions →
  Exists (λ v, Np.is_zero v = false) weight_predictions →
  finite_on_support LogLt weight_predictions →
  ∃ out x lse,
    _weight_update LogLt weight_predictions = Ok out
    ∧ take_idx (zip_with Np.add LogLt (map Np.log weight_predictions))
        (Np.nonzero weight_predictions) = Ok x
    ∧ _logsumexp x = Ok lse
    ∧ length out = length weight_predictions
    ∧ (∀ i v, weight_predictions !! i = Some v → Np.is_zero v = true →
         out !! i = Some (Fin 0))
    ∧ (∀ i v l, weight_predictions !! i = Some v → Np.is_zero v = false →
         LogLt !! i = Some l →
         out !! i = Some (Np.exp (Np.sub (Np.add l (Np.log v)) lse)))
    ∧ Forall nonneg out
    ∧ Np.sum out = Fin 1.
Proof.
  intros Hnn Hnz Hfin.
  set (wp := weight_predictions) in *.
  set (X := zip_with Np.add LogLt (map Np.log wp)).
  pose proof (support_logs_finite LogLt wp Hnn Hfin) as Hallf. fold X in Hallf.
  pose proof (zip_cover LogLt wp Hfin) as HcX. fold X in HcX.
  assert (Hall : Forall logval (sel wp X)).
  { eapply Forall_impl; [exact Hallf|]. apply finite_logval. }
  assert (Hex : Exists finite (sel wp X)).
  { apply Forall_finite_Exists; [done|]. by apply sel_nonempty. }
  set (S := sumR expR (sel wp X)).
  set (g := λ v, Np.exp (Np.sub v (Fin (ln S)))).
  assert (Hlen : length (map g (sel wp X)) = length (sel wp wp)).
  { rewrite length_map. apply length_sel; [done | apply self_cover]. }
  exists (scatter wp (map g (sel wp X))), (sel wp X), (Fin (ln S)).
  split.
  { unfold _weight_update. fold wp.
    rewrite (take_idx_nonzero wp LogLt) by by apply support_cover.
    simpl. rewrite (take_idx_nonzero wp wp) by apply self_cover.
    simpl. rewrite <- sel_map, <- sel_zip_with. fold X.
    rewrite logsumexp_logval by done. simpl. fold S. fold g.
    by apply put_idx_nonzero. }
  split; [by apply take_idx_nonzero|].
  split; [by apply logsumexp_logval|].
  split; [apply length_scatter|].
  split; [intros i v Hi Hz; by eapply scatter_lookup_zero|].
  split.
  { intros i v l Hi Hz Hl.
    apply (scatter_sel_lookup g wp X i v); try done.
    unfold X. rewrite lookup_zip_with, Hl, list_lookup_fmap, Hi. done. }
  split.
  { apply Forall_scatter; [simpl; lra|].
    apply Forall_map. eapply Forall_impl; [exact Hall|].
    intros v Hv. unfold g, S. rewrite softmax_entry by done. simpl.
    pose proof (sumR_expR_pos _ Hall Hex). pose proof (expR_nonneg v).
    apply Rmult_le_pos; [done|]. left. by apply Rinv_0_lt_compat. }
  rewrite sum_scatter by done. by apply softmax_sum.
Qed.

Lemma weight_update_spec_witness :
  ∃ out, _weight_update [Fin 0; NInf] [Fin 1; Fin 0] = Ok out
         ∧ Np.sum out = Fin 1.
Proof.
  destruct (weight_update_spec [Fin 0; NInf] [Fin 1; Fin 0])
    as (out & x & lse & Hout & _ & _ & _ & _ & _ & _ & Hsum).
  - repeat constructor; simpl; lra.
  - left. simpl. Rdec.
  - intros [|[|i]] a Hi Hz; simpl in Hi; try done.
    + by exists 0.
    + injection Hi as <-. simpl in Hz. Rdec.
  - by exists out.
Defined.

End KernelSpecs.

(** ** The existence update *)

Section ExistenceUpdate.
Local Open Scope R_scope.

Lemma sumR_sel_rel {A B} (f : A → R) (g : B → R) x : ∀ (X : list A) (Y : list B),
  length X = length Y →
  (∀ i v a b, x !! i = Some v → Np.is_zero v = false →
              X !! i = Some a → Y !! i = Some b → f a = g b) →
  sumR f (sel x X) = sumR g (sel x Y).
Proof.
  induction x as [|v x IH]; intros [|a X] [|b Y] Hlen Hrel; simpl in *;
    try done.
  assert (sumR f (sel x X) = sumR g (sel x Y)) as Ht.
  { apply IH; [lia|]. intros i w c d Hi Hz Hc Hd. by apply (Hrel (S i) w c d). }
  destruct (Np.is_zero v) eqn:E; [done|].
  simpl. rewrite Ht. f_equal. by apply (Hrel 0%nat v a b).
Qed.

Lemma sel_elem {A} x : ∀ (X : list A) i v u,
  x !! i = Some v → Np.is_zero v = false → X !! i = Some u → u ∈ sel x X.
Proof.
  induction x as [|w x IH]; intros [|a X] i v u Hi Hz Hu; try done.
  destruct i as [|i]; simpl in *.
  - injection Hi as ->. injection Hu as ->. rewrite Hz. by left.
  - destruct (Np.is_zero w); [|right]; by eapply IH.
Qed.

Lemma lookup_zip_with_add_shift_log (L wp : list npfloat) c i u :
  zip_with Np.add (map (λ v, Np.add v c) L) (map Np.log wp) !! i = Some u →
  ∃ l w, L !! i = Some l ∧ wp !! i = Some w
         ∧ u = Np.add (Np.add l c) (Np.log w).
Proof.
  rewrite lookup_zip_with, !list_lookup_fmap. intros H.
  destruct (L !! i) as [l|] eqn:El; simpl in H; [|done].
  destruct (wp !! i) as [w|] eqn:Ew; simpl in H; [|done].
  injection H as <-. by exists l, w.
Qed.

Section Body.
Variables (wp L : list npfloat) (p : R).
Hypothesis Hnn : Forall nonneg wp.
Hypothesis Hlv : ∀ i a, wp !! i = Some a → Np.is_zero a = false →
                        ∃ l, L !! i = Some l ∧ logval l.
Hypothesis Hone : ∃ i a l, wp !! i = Some a ∧ Np.is_zero a = false
                           ∧ L !! i = Some (Fin l).
Hypothesis Hp : 0 < p <= 1.

Local Abbreviation X := (zip_with Np.add L (map Np.log wp)).
Local Abbreviation X2 :=
  (zip_with Np.add (map (λ v, Np.add v (Fin (ln p))) L) (map Np.log wp)).
Local Abbreviation I := (sumR expR (sel wp X)).
Local Abbreviation a0 := (Np.log (Np.sub (Fin 1) (Fin p))).

Local Lemma cover_L :
  ∀ i v, wp !! i = Some v → Np.is_zero v = false → (i < length L)%nat.
Proof.
  intros i v Hi Hz. destruct (Hlv i v Hi Hz) as (l & Hl & _).
  by eapply lookup_lt_Some.
Qed.

Local Lemma x1_logval : Forall logval (sel wp X).
Proof.
  apply sel_Forall. intros i v u Hi Hz Hu.
  apply lookup_zip_with_add_log in Hu as (l & w & Hl & Hw & ->).
  rewrite Hi in Hw. injection Hw as <-.
  destruct (Hlv i v Hi Hz) as (l' & Hl' & Hlog).
  rewrite Hl in Hl'. injection Hl' as <-.
  rewrite Forall_lookup in Hnn. specialize (Hnn i v Hi).
  destruct (nonneg_nonzero_log v Hnn Hz) as (w & -> & Hpos & ->).
  by destruct l.
Qed.

Local Lemma x1_finite : Exists finite (sel wp X).
Proof.
  destruct Hone as (i & a & l & Hi & Hz & Hl).
  rewrite Forall_lookup in Hnn. specialize (Hnn i a Hi).
  destruct (nonneg_nonzero_log a Hnn Hz) as (w & -> & Hpos & Hlog).
  apply Exists_exists. exists (Fin (l + ln w)). split; [|done].
  apply (sel_elem wp X i (Fin w)); try done.
  rewrite lookup_zip_with, Hl, list_lookup_fmap, Hi.
  cbn -[Np.log]. by rewrite Hlog.
Qed.

Local Lemma x2_logval : Forall logval (sel wp X2).
Proof.
  apply sel_Forall. intros i v u Hi Hz Hu.
  apply lookup_zip_with_add_shift_log in Hu as (l & w & Hl & Hw & ->).
  rewrite Hi in Hw. injection Hw as <-.
  destruct (Hlv i v Hi Hz) as (l' & Hl' & Hlog).
  rewrite Hl in Hl'. injection Hl' as <-.
  rewrite Forall_lookup in Hnn. specialize (Hnn i v Hi).
  destruct (nonneg_nonzero_log v Hnn Hz) as (w & -> & Hpos & ->).
  by destruct l.
Qed.

Local Lemma x2_finite : Exists finite (sel wp X2).
Proof.
  destruct Hone as (i & a & l & Hi & Hz & Hl).
  rewrite Forall_lookup in Hnn. specialize (Hnn i a Hi).
  destruct (nonneg_nonzero_log a Hnn Hz) as (w & -> & Hpos & Hlog).
  apply Exists_exists. exists (Fin (l + ln p + ln w)). split; [|done].
  apply (sel_elem wp X2 i (Fin w)); try done.
  rewrite lookup_zip_with, !list_lookup_fmap, Hl, Hi.
  cbn -[Np.log]. by rewrite Hlog.
Qed.

Local Lemma x2_sum : sumR expR (sel wp X2) = p * I.
Proof.
  rewrite <- sumR_scal. apply sumR_sel_rel.
  { by rewrite !length_zip_with, !length_map. }
  intros i v b a Hi Hz Hb Ha.
  apply lookup_zip_with_add_shift_log in Hb as (l & w & Hl & Hw & ->).
  apply lookup_zip_with_add_log in Ha as (l' & w' & Hl' & Hw' & ->).
  rewrite Hl in Hl'. injection Hl' as <-.
  rewrite Hw in Hw'. injection Hw' as <-.
  rewrite Hi in Hw. injection Hw as <-.
  destruct (Hlv i v Hi Hz) as (l' & Hl' & Hlog).
  rewrite Hl in Hl'. injection Hl' as <-.
  rewrite Forall_lookup in Hnn. specialize (Hnn i v Hi).
  destruct (nonneg_nonzero_log v Hnn Hz) as (w & -> & Hpos & ->).
  destruct l as [| | |r]; simpl in *; try done; [lra|].
  rewrite !exp_plus, exp_ln by lra. lra.
Qed.

Local Lemma a0_logval : logval a0 ∧ expR a0 = 1 - p.
Proof.
  simpl.
  destruct (Rlt_dec 0 (1 + - p)) as [Hlt|Hge]; simpl.
  - split; [done|]. rewrite exp_ln by done. lra.
  - destruct (Req_dec_T (1 + - p) 0); simpl; [|lra].
    split; [done|]. lra.
Qed.

Local Lemma I_pos : 0 < I.
Proof. apply sumR_expR_pos; [apply x1_logval | apply x1_finite]. Qed.

(** The value of the log-domain update in exact arithmetic. *)
Lemma update_existance_prob_value :
  _update_existance_prob wp L (Fin p) = Ok (Fin (I * p / (1 - p + p * I)))
  ∧ 0 < I * p / (1 - p + p * I) <= 1
  ∧ _logsumexp (sel wp X) = Ok (Fin (ln I))
  ∧ _logsumexp (a0 :: sel wp X2) = Ok (Fin (ln (1 - p + p * I))).
Proof.
  pose proof I_pos as HI. destruct a0_logval as [Ha0 Hea0].
  pose proof x1_logval as H1. pose proof x1_finite as H1f.
  pose proof x2_logval as H2. pose proof x2_finite as H2f.
  assert (Hl1 : _logsumexp (sel wp X) = Ok (Fin (ln I)))
    by by apply logsumexp_logval.
  assert (Hl2 : _logsumexp (a0 :: sel wp X2) = Ok (Fin (ln (1 - p + p * I)))).
  { rewrite logsumexp_logval; [|by constructor|by right].
    unfold sumR at 1. cbn [foldr]. fold (sumR expR (sel wp X2)).
    by rewrite Hea0, x2_sum. }
  assert (HS : 0 < 1 - p + p * I) by nra.
  assert (Hq : 0 < I * p / (1 - p + p * I) <= 1).
  { split.
    - apply Rdiv_lt_0_compat; nra.
    - apply (Rmult_le_reg_r (1 - p + p * I)); [done|].
      unfold Rdiv. rewrite Rmult_assoc, Rinv_l by lra. nra. }
  split; [|done].
  unfold _update_existance_prob.
  rewrite (take_idx_nonzero wp wp) by apply self_cover. cbn [rbind].
  rewrite (take_idx_nonzero wp L) by apply cover_L. cbn [rbind].
  rewrite <- !sel_map, <- !sel_zip_with.
  assert (Hlogp : Np.log (Fin p) = Fin (ln p)) by (apply log_Fin_pos; lra).
  rewrite Hlogp, Hl1. cbn [rbind]. rewrite Hl2. simpl.
  assert (exp (ln I + ln p + - ln (1 - p + p * I)) = I * p / (1 - p + p * I))
    as ->.
  { rewrite !exp_plus, exp_Ropp, !exp_ln by lra. unfold Rdiv. lra. }
  destruct (Rlt_dec 1 (I * p / (1 - p + p * I))); [lra|done].
Qed.

End Body.
End ExistenceUpdate.

(** ** The systematic resampler *)

Section ResamplerFacts.
Context {G : Type} `{GL : GeneratorLaws G}.
Local Open Scope R_scope.

Lemma mbind_Ok {A B} (c : M G A) (k : A → M G B) σ b σ' :
  mbind' c k σ = (Ok b, σ') →
  ∃ a σ1, c σ = (Ok a, σ1) ∧ k a σ1 = (Ok b, σ').
Proof.
  unfold mbind'. destruct (c σ) as [[a|e] σ1]; [|done].
  intros Hk. by exists a, σ1.
Qed.

Lemma lift_Ok {A} (r : result A) (σ : loc → G) a σ' :
  lift r σ = (Ok a, σ') → r = Ok a ∧ σ' = σ.
Proof. unfold lift. by intros [= -> ->]. Qed.

Lemma setitem_Ok {A} (a : list A) i v a' :
  setitem a i v = Ok a' → a' = <[i:=v]> a ∧ (i < length a)%nat.
Proof.
  unfold setitem. destruct (i <? length a)%nat eqn:E; [|done].
  intros [= <-]. split; [done|]. by apply Nat.ltb_lt.
Qed.

(** The loop always finishes within its step budget. *)
Lemma sysresample_loop_fuel N positions cumsum : ∀ fuel indices i j,
  (N - i + (length cumsum - j) < fuel)%nat →
  sysresample_loop fuel N positions cumsum indices i j ≠ Raise FuelExhausted.
Proof.
  induction fuel as [|fuel IH]; intros indices i j Hfuel; [lia|].
  simpl. destruct (i <? N)%nat eqn:Ei; [|congruence].
  apply Nat.ltb_lt in Ei.
  unfold index. destruct (positions !! i) as [p|]; simpl; [|congruence].
  destruct (cumsum !! j) as [c|] eqn:Ec; simpl; [|congruence].
  apply lookup_lt_Some in Ec.
  destruct (Np.lt p c).
  - unfold setitem. destruct (i <? length indices)%nat; simpl; [|congruence].
    apply IH. lia.
  - apply IH. lia.
Qed.

(** The loop keeps the length of [indices]. *)
Lemma sysresample_loop_length N positions cumsum : ∀ fuel indices i j out,
  sysresample_loop fuel N positions cumsum indices i j = Ok out →
  length out = length indices.
Proof.
  induction fuel as [|fuel IH]; intros indices i j out Hout; [done|].
  simpl in Hout. destruct (i <? N)%nat; [|by injection Hout as <-].
  destruct (index positions i) as [p|]; simpl in Hout; [|done].
  destruct (index cumsum j) as [c|]; simpl in Hout; [|done].
  destruct (Np.lt p c).
  - destruct (setitem indices i j) as [ind'|] eqn:Es; simpl in Hout; [|done].
    apply setitem_Ok in Es as [-> _].
    apply IH in Hout. by rewrite length_insert in Hout.
  - by eapply IH.
Qed.

(** When every position lies below the last cumulative sum, the pointer
    [j] stays in range and the loop returns. *)
Lemma sysresample_loop_in_range N positions cumsum last :
  length positions = N →
  cumsum !! (length cumsum - 1)%nat = Some last →
  Forall (λ p, Np.lt p last = true) positions →
  ∀ fuel indices i j,
    (N - i + (length cumsum - 1 - j) < fuel)%nat →
    (j ≤ length cumsum - 1)%nat →
    length indices = N →
    Forall (λ e, e < length cumsum)%nat indices →
    ∃ out, sysresample_loop fuel N positions cumsum indices i j = Ok out
           ∧ length out = N
           ∧ Forall (λ e, e < length cumsum)%nat out.
Proof.
  intros Hpos Hlast Hbelow.
  assert (HM : (0 < length cumsum)%nat) by by apply lookup_lt_Some in Hlast; lia.
  induction fuel as [|fuel IH]; intros indices i j Hfuel Hj Hlen Hall; [lia|].
  simpl. destruct (i <? N)%nat eqn:Ei.
  2:{ by exists indices. }
  apply Nat.ltb_lt in Ei.
  destruct (lookup_lt_is_Some_2 positions i) as [p Hp]; [lia|].
  destruct (lookup_lt_is_Some_2 cumsum j) as [c Hc]; [lia|].
  unfold index. rewrite Hp, Hc. simpl.
  destruct (Np.lt p c) eqn:Elt.
  - unfold setitem.
    assert ((i <? length indices)%nat = true) as -> by (apply Nat.ltb_lt; lia).
    simpl. apply IH; [lia|done|by rewrite length_insert|].
    apply Forall_insert; [done|lia].
  - assert (j ≠ length cumsum - 1)%nat as Hne.
    { intros ->. rewrite Hlast in Hc. injection Hc as <-.
      rewrite Forall_lookup in Hbelow. specialize (Hbelow i p Hp).
      simpl in Hbelow. congruence. }
    apply IH; [lia|lia|done|done].
Qed.

Lemma cumsum_from_last (w : list npfloat) : ∀ acc,
  Forall finite w → w ≠ [] →
  Np.cumsum_from (Fin acc) w !! (length w - 1)%nat
  = Some (Fin (acc + sumR valR w)).
Proof.
  induction w as [|a w IH]; intros acc Hall Hne; [done|].
  apply Forall_cons in Hall as [Ha Hall].
  destruct a as [| | |r]; try done. simpl.
  destruct w as [|b w].
  - simpl. do 2 f_equal. lra.
  - replace (length (b :: w) - 0)%nat with (S (length (b :: w) - 1))
      by (simpl; lia).
    simpl lookup at 1. 
    change (Np.cumsum_from (Fin (acc + r)) (b :: w) !! (length (b :: w) - 1)%nat
            = Some (Fin (acc + (r + sumR valR (b :: w))))).
    rewrite IH by done. do 2 f_equal. lra.
Qed.

Lemma length_cumsum_from w : ∀ acc, length (Np.cumsum_from acc w) = length w.
Proof. induction w as [|a w IH]; intros acc; simpl; [done|by rewrite IH]. Qed.

Lemma length_cumsum w : length (Np.cumsum w) = length w.
Proof. destruct w; simpl; [done|]. by rewrite length_cumsum_from. Qed.

Lemma cumsum_last (w : list npfloat) :
  Forall finite w → w ≠ [] →
  Np.cumsum w !! (length w - 1)%nat = Some (Fin (sumR valR w)).
Proof.
  destruct w as [|a w]; intros Hall Hne; [done|].
  apply Forall_cons in Hall as [Ha Hall].
  destruct a as [| | |r]; try done. simpl.
  destruct w as [|b w]; [simpl; do 2 f_equal; lra|].
  replace (length (b :: w) - 0)%nat with (S (length (b :: w) - 1))
    by (simpl; lia).
  simpl lookup at 1.
  change (Np.cumsum_from (Fin r) (b :: w) !! (length (b :: w) - 1)%nat
          = Some (Fin (r + sumR valR (b :: w)))).
  by rewrite cumsum_from_last.
Qed.

Lemma sum_finite (w : list npfloat) :
  Forall finite w → Np.sum w = Fin (sumR valR w).
Proof.
  unfold Np.sum. induction 1 as [|a w Ha _ IH]; simpl; [done|].
  rewrite IH. by destruct a.
Qed.

Lemma existsb_isnan_finite (w : list npfloat) :
  Forall finite w → existsb Np.isnan w = false.
Proof.
  induction 1 as [|a w Ha _ IH]; simpl; [done|].
  rewrite IH. by destruct a.
Qed.

End ResamplerFacts.

Section ResamplerSpecs.
Context {G : Type} `{GL : GeneratorLaws G}.
Local Open Scope R_scope.

(** [_sysresample] never exhausts the step budget of its loop: the model
    of the [while] loop is total. *)
Lemma sysresample_total (weights : list npfloat) (Nsuv : Z) (rng : loc)
  (σ : loc → G) :
  (_sysresample weights Nsuv rng σ).1 ≠ Raise FuelExhausted.
Proof.
  unfold _sysresample.
  destruct (existsb Np.isnan weights).
  - unfold rng_choice. destruct (_ <? 0)%Z; [simpl; congruence|].
    destruct (_ && _); [simpl; congruence|].
    destruct (gen_choice _ _ _). simpl. congruence.
  - unfold mbind', rng_random. destruct (gen_random (σ rng)) as [u g].
    unfold lift, np_zeros_int.
    destruct (_ <? 0)%Z; [simpl; congruence|]. cbn [fst].
    apply sysresample_loop_fuel. rewrite length_cumsum. lia.
Qed.

(** Whenever [_sysresample] returns, it returns [min(len(weights), Nsuv)]
    indices. *)
Lemma sysresample_length (weights : list npfloat) (Nsuv : Z) (rng : loc)
  (σ σ' : loc → G) (idx : list nat) :
  _sysresample weights Nsuv rng σ = (Ok idx, σ') →
  (0 ≤ Z.min (Z.of_nat (length weights)) Nsuv)%Z
  ∧ length idx = Z.to_nat (Z.min (Z.of_nat (length weights)) Nsuv).
Proof.
  unfold _sysresample. set (N := Z.min _ _).
  destruct (existsb Np.isnan weights).
  - unfold rng_choice. destruct (N <? 0)%Z eqn:EN; [done|].
    apply Z.ltb_ge in EN.
    destruct (_ && _); [done|].
    pose proof (gen_choice_length (length weights) (Z.to_nat N) (σ rng)) as Hl.
    destruct (gen_choice _ _ _) as [i g]. intros [= <- <-]. done.
  - unfold mbind', rng_random. destruct (gen_random (σ rng)) as [u g].
    unfold lift, np_zeros_int.
    destruct (N <? 0)%Z eqn:EN; [done|]. apply Z.ltb_ge in EN.
    intros Hloop. apply (f_equal fst) in Hloop. cbn [fst] in Hloop.
    apply sysresample_loop_length in Hloop.
    by rewrite length_replicate in Hloop.
Qed.

(** On finite weights that sum to one (exactly), every selection position
    [(u + k)/N] lies below the last cumulative sum: the loop stays in
    range and [_sysresample] returns valid indices. *)
Lemma sysresample_normalised (weights : list npfloat) (Nsuv : Z) (rng : loc)
  (σ : loc → G) :
  Forall finite weights → sumR valR weights = 1 → (0 ≤ Nsuv)%Z →
  ∃ idx,
    _sysresample weights Nsuv rng σ
    = (Ok idx, <[rng:=(gen_random (σ rng)).2]> σ)
    ∧ length idx = Z.to_nat (Z.min (Z.of_nat (length weights)) Nsuv)
    ∧ Forall (λ i, i < length weights)%nat idx.
Proof.
  intros Hfin Hsum HN.
  assert (Hne : weights ≠ []) by (intros ->; simpl in Hsum; lra).
  unfold _sysresample. set (N := Z.min _ _).
  assert (0 ≤ N)%Z as HN0 by lia.
  rewrite existsb_isnan_finite by done.
  unfold mbind', rng_random.
  pose proof (gen_random_range (σ rng)) as Hu.
  destruct (gen_random (σ rng)) as [u g]. simpl in Hu. simpl snd.
  unfold lift, np_zeros_int.
  assert ((N <? 0)%Z = false) as -> by by apply Z.ltb_ge.
  set (positions := map _ _).
  destruct (sysresample_loop_in_range (Z.to_nat N) positions
              (Np.cumsum weights) (Fin 1)) with
    (fuel := S (Z.to_nat N + length weights))
    (indices := replicate (Z.to_nat N) 0%nat) (i := 0%nat) (j := 0%nat)
    as (out & Hout & Hlen & Hall).
  - unfold positions. by rewrite length_map, length_seq.
  - rewrite length_cumsum, cumsum_last by done. by rewrite Hsum.
  - unfold positions. apply Forall_map, Forall_forall.
    intros k Hk%elem_of_seq. simpl.
    assert (INR (Z.to_nat N) = IZR N) as HNR
      by by rewrite INR_IZR_INZ, Z2Nat.id.
    assert (INR k + 1 <= IZR N) as Hk1.
    { rewrite <- HNR, <- S_INR. apply le_INR. lia. }
    pose proof (pos_INR k) as Hk0.
    destruct (Req_dec_T (IZR N) 0) as [E|_]; [lra|].
    simpl. destruct (Rlt_dec ((u + INR k) / IZR N) 1) as [_|Hn]; [done|].
    exfalso. apply Hn.
    apply (Rmult_lt_reg_r (IZR N)); [lra|].
    unfold Rdiv. rewrite Rmult_assoc, Rinv_l by lra. lra.
  - rewrite length_cumsum. lia.
  - lia.
  - by rewrite length_replicate.
  - rewrite length_cumsum. apply Forall_replicate.
    destruct weights; [done|simpl; lia].
  - exists out. rewrite length_cumsum in Hall. cbn [fst snd]. by rewrite Hout.
Qed.

(** With a NaN among the weights, [_sysresample] is one call of
    [rng.choice]. *)
Lemma sysresample_nan_branch (weights : list npfloat) (Nsuv : Z) (rng : loc) :
  NaN ∈ weights →
  _sysresample weights Nsuv rng
  = rng_choice rng (length weights)
      (Z.min (Z.of_nat (length weights)) Nsuv).
Proof.
  intros Hin. unfold _sysresample.
  assert (existsb Np.isnan weights = true) as ->; [|done].
  apply existsb_exists. exists NaN. split; [|done].
  by apply list_elem_of_In.
Qed.

End ResamplerSpecs.

(** ** The transition *)

Section TransitionShape.
Context {G : Type} `{GL : GeneratorLaws G}.
Local Open Scope R_scope.

Lemma put_idx_go_length {A} (idx : list nat) : ∀ (a : list A) vals a',
  put_idx_go a idx vals = Ok a' → length a' = length a.
Proof.
  induction idx as [|i idx IH]; intros a vals a' Hput; simpl in Hput.
  - by injection Hput as <-.
  - destruct vals as [|v vals]; [by injection Hput as <-|].
    destruct (setitem a i v) as [a1|] eqn:Es; simpl in Hput; [|done].
    apply setitem_Ok in Es as [-> _]. apply IH in Hput.
    by rewrite length_insert in Hput.
Qed.

Lemma put_idx_length {A} (idx : list nat) (a : list A) vals a' :
  put_idx a idx vals = Ok a' → length a' = length a.
Proof.
  unfold put_idx. destruct (_ =? _)%nat; [apply put_idx_go_length|].
  destruct vals as [|v [|]]; try done. apply put_idx_go_length.
Qed.

Lemma rbind_Ok {A B} (r : result A) (k : A → result B) b :
  rbind r k = Ok b → ∃ a, r = Ok a ∧ k a = Ok b.
Proof. destruct r as [a|]; [|done]. intros Hk. by exists a. Qed.

(** [_weight_update] returns, when it returns, a vector of the length of
    [weight_predictions]. *)
Lemma weight_update_length LogLt wp out :
  _weight_update LogLt wp = Ok out → length out = length wp.
Proof.
  unfold _weight_update. intros Hout.
  apply rbind_Ok in Hout as (y & _ & Hout).
  apply rbind_Ok in Hout as (wnz & _ & Hout).
  apply rbind_Ok in Hout as (lse & _ & Hout).
  apply put_idx_length in Hout. by rewrite length_replicate in Hout.
Qed.

Lemma length_normalize v : length (normalize v) = length v.
Proof. unfold normalize. by rewrite length_map. Qed.

Lemma take_idx_length {A} (a : list A) : ∀ idx vs,
  take_idx a idx = Ok vs → length vs = length idx.
Proof.
  induction idx as [|i idx IH]; intros vs Hvs; simpl in Hvs.
  - by injection Hvs as <-.
  - destruct (a !! i); [|done].
    apply rbind_Ok in Hvs as (vs' & Hvs' & [= <-]).
    simpl. f_equal. by apply IH.
Qed.

Lemma take_idx_in_range {A} (a : list A) : ∀ idx,
  Forall (λ i, i < length a)%nat idx → ∃ vs, take_idx a idx = Ok vs.
Proof.
  induction 1 as [|i idx Hi _ [vs IH]]; [by exists []|].
  destruct (lookup_lt_is_Some_2 a i Hi) as [v Hv].
  exists (v :: vs). simpl. by rewrite Hv, IH.
Qed.

Lemma np_ones_Ok n l :
  np_ones n = Ok l → (0 ≤ n)%Z ∧ l = replicate (Z.to_nat n) (Fin 1).
Proof.
  unfold np_ones. destruct (n <? 0)%Z eqn:E; [done|].
  apply Z.ltb_ge in E. by intros [= <-].
Qed.

(** [np.ones(n)/n] is the uniform weight vector (empty for [n = 0]). *)
Lemma uniform_weights (n : Z) :
  (0 ≤ n)%Z →
  map (λ a, Np.div a (Fin (IZR n))) (replicate (Z.to_nat n) (Fin 1))
  = replicate (Z.to_nat n) (Fin (1 / IZR n)).
Proof.
  intros Hn. destruct (Z.eq_dec n 0%Z) as [->|Hne]; [done|].
  assert (IZR n ≠ 0) as HR by by apply not_0_IZR.
  induction (Z.to_nat n) as [|k IH]; simpl; [done|].
  rewrite IH. by destruct (Req_dec_T (IZR n) 0).
Qed.

Lemma call_birth_Ok (bm : BirthModel) m n rng (σ σ' : loc → G) p :
  call_birth bm m n rng σ = (Ok p, σ') →
  p = (bm m n (σ rng)).1 ∧ σ' = <[rng:=(bm m n (σ rng)).2]> σ.
Proof.
  unfold call_birth. destruct (bm m n (σ rng)) as [p' g]. by intros [= <- <-].
Qed.

(** Shape of the state returned by a transition, for every input state:
    the surviving population has [min(M, Nsuv)] particles, where [M] is
    the length of the joint weight vector, while both weight vectors are
    uniform of lengths [Nsuv] and [Nbirth]. *)
Lemma call_returns_shape (self : @BerParticleFilter G) measurements
  (σ σ' : loc → G) (st' : BerParticleFilter) :
  (∀ m n g, (0 ≤ n)%Z → nrows (birth_model self m n g).1 = Z.to_nat n) →
  __call__ self measurements σ = (Ok st', σ') →
  (0 ≤ Nsuv self)%Z ∧ (0 ≤ Nbirth self)%Z
  ∧ nrows (particles_surv st')
    = Z.to_nat (Z.min (Z.of_nat (length (weights_surv self)
                                  + length (weights_born self)))
                  (Nsuv self))
  ∧ weights_surv st'
    = replicate (Z.to_nat (Nsuv self)) (Fin (1 / IZR (Nsuv self)))
  ∧ nrows (particles_born st') = Z.to_nat (Nbirth self)
  ∧ weights_born st'
    = replicate (Z.to_nat (Nbirth self)) (Fin (1 / IZR (Nbirth self)))
  ∧ Nsuv st' = Nsuv self ∧ Nbirth st' = Nbirth self ∧ rng st' = rng self.
Proof.
  intros Hbirth Hcall. unfold __call__ in Hcall.
  apply mbind_Ok in Hcall as (particles & σ1 & _ & Hcall).
  apply mbind_Ok in Hcall as (c_surv & σ2 & _ & Hcall).
  apply mbind_Ok in Hcall as (c_born & σ3 & _ & Hcall).
  destruct (likelihood_fn self _ measurements) as [LogLt LogRatio].
  apply mbind_Ok in Hcall as (q' & σ4 & _ & Hcall).
  apply mbind_Ok in Hcall as (w & σ5 & [Hw _]%lift_Ok & Hcall).
  apply mbind_Ok in Hcall as (idx & σ6 & Hidx & Hcall).
  apply mbind_Ok in Hcall as (ps' & σ7 & [Hps _]%lift_Ok & Hcall).
  apply mbind_Ok in Hcall as (ones_s & σ8 & [Hos _]%lift_Ok & Hcall).
  apply mbind_Ok in Hcall as (pb' & σ9 & Hpb & Hcall).
  apply mbind_Ok in Hcall as (ones_b & σ10 & [Hob _]%lift_Ok & Hcall).
  apply np_ones_Ok in Hos as [HNs ->]. apply np_ones_Ok in Hob as [HNb ->].
  apply weight_update_length in Hw.
  rewrite length_normalize, length_app, !length_map in Hw.
  apply sysresample_length in Hidx as [_ Hidx].
  rewrite length_normalize, Hw in Hidx.
  unfold take_rows in Hps. apply rbind_Ok in Hps as (r & Hr & [= <-]).
  apply take_idx_length in Hr.
  apply call_birth_Ok in Hpb as [-> _].
  unfold override, __init__, mbind', mret' in Hcall.
  injection Hcall as <- _. simpl.
  rewrite !uniform_weights by done. unfold nrows at 1. simpl.
  rewrite Hr, Hidx, Hbirth by done. done.
Qed.

End TransitionShape.

Section TransitionReturns.
Context {G : Type} `{GL : GeneratorLaws G}.
Local Open Scope R_scope.

Lemma mbind_lift_eq {A B} (r : result A) (a : A) (k : A → M G B) σ :
  r = Ok a → mbind' (lift r) k σ = k a σ.
Proof. by intros ->. Qed.

Lemma mbind_step {A B} (c : M G A) (k : A → M G B) σ a σ1 :
  c σ = (Ok a, σ1) → mbind' c k σ = k a σ1.
Proof. unfold mbind'. by intros ->. Qed.

Lemma sc_div_nonzero a b :
  Np.is_zero (val b) = false → sc_div a b = Ok (sc_lift2 Np.div a b).
Proof. unfold sc_div. intros ->. by rewrite andb_false_r. Qed.

Lemma nonneg_finite v : nonneg v → finite v.
Proof. by destruct v. Qed.

Lemma nonneg_valR v : nonneg v → v = Fin (valR v) ∧ 0 <= valR v.
Proof. by destruct v. Qed.

Lemma sumR_valR_nonneg l : Forall nonneg l → 0 <= sumR valR l.
Proof.
  intros Hl. apply sumR_nonneg. eapply Forall_impl; [exact Hl|].
  intros v Hv. by apply nonneg_valR.
Qed.

Lemma scale_nonneg c l :
  0 <= c → Forall nonneg l →
  Forall nonneg (map (Np.mul (Fin c)) l)
  ∧ sumR valR (map (Np.mul (Fin c)) l) = c * sumR valR l.
Proof.
  intros Hc. induction 1 as [|v l Hv _ [IH1 IH2]]; simpl; [split; [done|lra]|].
  destruct v as [| | |r]; try done. simpl in *. split.
  - constructor; [simpl; nra|done].
  - rewrite IH2. lra.
Qed.

Lemma sum_pos_exists l :
  Forall nonneg l → 0 < sumR valR l → Exists (λ v, Np.is_zero v = false) l.
Proof.
  induction 1 as [|v l Hv Hl IH]; simpl; intros Hpos; [lra|].
  destruct v as [| | |r]; try done. simpl in *.
  destruct (Req_dec_T r 0) as [->|Hne] eqn:E.
  - right. apply IH. lra.
  - left. simpl. by rewrite E.
Qed.

Lemma normalize_nonneg l :
  Forall nonneg l → 0 < sumR valR l →
  Forall nonneg (normalize l)
  ∧ sumR valR (normalize l) = 1
  ∧ Exists (λ v, Np.is_zero v = false) (normalize l).
Proof.
  intros Hl Hpos.
  assert (Hn : normalize l = map (λ a, Fin (valR a / sumR valR l)) l).
  { unfold normalize. rewrite sum_finite.
    2:{ eapply Forall_impl; [exact Hl|]. apply nonneg_finite. }
    apply Forall_fmap_ext_1. eapply Forall_impl; [exact Hl|].
    intros [| | |r] Hr; try done. simpl.
    destruct (Req_dec_T (sumR valR l) 0); [lra|done]. }
  assert (H1 : Forall nonneg (normalize l)).
  { rewrite Hn. apply Forall_map. eapply Forall_impl; [exact Hl|].
    intros v [_ Hv]%nonneg_valR. simpl.
    apply Rmult_le_pos; [done|]. left. by apply Rinv_0_lt_compat. }
  assert (H2 : sumR valR (normalize l) = 1).
  { rewrite Hn.
    assert (∀ S l', sumR valR (map (λ a, Fin (valR a / S)) l')
                    = sumR valR l' / S) as Hs.
    { intros S l'. induction l' as [|a l' IH]; simpl; [lra|].
      rewrite IH. lra. }
    rewrite Hs. field. lra. }
  split; [done|]. split; [done|].
  apply sum_pos_exists; [done|lra].
Qed.

Lemma finite_support_of_finite (L w : list npfloat) :
  Forall finite L → length L = length w → finite_on_support L w.
Proof.
  intros HL Hlen i a Hi _.
  destruct (lookup_lt_is_Some_2 L i) as [l Hl].
  { rewrite Hlen. by eapply lookup_lt_Some. }
  rewrite Forall_lookup in HL. specialize (HL i l Hl).
  destruct l; try done. by eexists.
Qed.

(** The log-domain update on a weight vector and a log-ratio vector that
    is finite on its support, for a predicted probability in (0,1]. *)
Lemma update_existance_prob_finite (wp L : list npfloat) (p : R) :
  Forall nonneg wp → Exists (λ v, Np.is_zero v = false) wp →
  finite_on_support L wp → 0 < p <= 1 →
  ∃ l1 l2 q,
    _logsumexp (sel wp (zip_with Np.add L (map Np.log wp))) = Ok (Fin l1)
    ∧ _logsumexp
        (Np.log (Np.sub (Fin 1) (Fin p))
           :: sel wp (zip_with Np.add (map (λ v, Np.add v (Fin (ln p))) L)
                        (map Np.log wp)))
      = Ok (Fin l2)
    ∧ _update_existance_prob wp L (Fin p) = Ok (Fin q)
    ∧ q = exp (l1 + ln p - l2)
    ∧ 0 < q <= 1.
Proof.
  intros Hnn Hex Hfin Hp.
  assert (Hlv : ∀ i a, wp !! i = Some a → Np.is_zero a = false →
                       ∃ l, L !! i = Some l ∧ logval l).
  { intros i a Hi Hz. destruct (Hfin i a Hi Hz) as [l Hl]. by exists (Fin l). }
  assert (Hone : ∃ i a l, wp !! i = Some a ∧ Np.is_zero a = false
                          ∧ L !! i = Some (Fin l)).
  { apply Exists_exists in Hex as (a & Hin & Hz).
    apply list_elem_of_lookup in Hin as [i Hi].
    destruct (Hfin i a Hi Hz) as [l Hl]. by exists i, a, l. }
  destruct (update_existance_prob_value wp L p Hnn Hlv Hone Hp)
    as (Hq & Hrange & Hl1 & Hl2).
  pose proof (I_pos wp L Hnn Hlv Hone) as HI.
  set (I := sumR expR (sel wp (zip_with Np.add L (map Np.log wp)))) in *.
  assert (HS : 0 < 1 - p + p * I) by nra.
  exists (ln I), (ln (1 - p + p * I)), (I * p / (1 - p + p * I)).
  repeat split; try done; try lra.
  unfold Rminus. rewrite !exp_plus, exp_Ropp, !exp_ln by lra.
  unfold Rdiv. lra.
Qed.

End TransitionReturns.

Section TransitionTotal.
Context {G : Type} `{GL : GeneratorLaws G}.
Local Open Scope R_scope.

(** In exact arithmetic, a transition from a well-formed state returns,
    and the existence probability of the returned state lies in (0,1]. *)
Lemma call_returns (self : @BerParticleFilter G) measurements (σ : loc → G) :
  collaborators_ok self → wf_state self →
  ∃ st' σ' q',
    __call__ self measurements σ = (Ok st', σ')
    ∧ prob st' = np_float (Fin q')
    ∧ 0 < q' <= 1.
Proof.
  intros [Hmot Hlen Hfin Hbirth] [Hdim Hls Hlb Hws Hwb Hq Hpb Hps HNs HNb Hmass].
  unfold predicted_mass in Hmass.
  destruct self as [lf bm mm Ns Nb [tb vb] [ts vs] [tq vq] ps ws pb wb
                      ne1 ne2 ne3 ne4 ne5 rg].
  simpl in *.
  destruct vq as [| | |q]; try done.
  destruct vb as [| | |b]; try done.
  destruct vs as [| | |s]; try done.
  simpl in *.
  pose proof (sumR_valR_nonneg ws Hws) as HSs.
  pose proof (sumR_valR_nonneg wb Hwb) as HSb.
  set (qp := b * (1 + - q) + s * q).
  assert (HA : 0 <= s * q) by nra.
  assert (HB : 0 <= b * (1 + - q)) by nra.
  assert (Hqp : 0 < qp <= 1).
  { unfold qp. split; [|nra].
    destruct (Rle_lt_dec (b * (1 + - q) + s * q) 0) as [Hle|]; [|done].
    assert (s * q = 0) as E1 by lra. assert (b * (1 + - q) = 0) as E2 by lra.
    replace (1 - q) with (1 + - q) in Hmass by lra.
    rewrite E1, E2 in Hmass. lra. }
  unfold __call__. cbn [prob particles_surv particles_born motion_model
    prob_birth prob_surv weights_surv weights_born likelihood_fn Nsuv Nbirth
    rng birth_model].
  erewrite mbind_lift_eq.
  2:{ unfold np_concatenate2. by rewrite Hdim, Nat.eqb_refl. }
  set (particles := Array2 (ncols pb) (rows ps ++ rows pb)).
  set (particles_p := mm particles).
  assert (Hnp : nrows particles_p = (length ws + length wb)%nat).
  { unfold particles_p. rewrite Hmot. unfold nrows, particles. simpl.
    rewrite length_app. unfold nrows in Hls, Hlb. lia. }
  set (QP := sc_lift2 Np.add _ _).
  assert (HQP : val QP = Fin qp) by reflexivity.
  assert (HQPz : Np.is_zero (val QP) = false).
  { rewrite HQP. simpl. destruct (Req_dec_T qp 0); [lra|done]. }
  erewrite mbind_lift_eq; [|by apply sc_div_nonzero].
  erewrite mbind_lift_eq; [|by apply sc_div_nonzero].
  set (CS := sc_lift2 Np.div _ QP).
  set (CB := sc_lift2 Np.div _ QP).
  assert (HCS : val CS = Fin (s * q / qp)).
  { unfold CS, QP. simpl. fold qp. destruct (Req_dec_T qp 0); [lra|done]. }
  assert (HCB : val CB = Fin (b * (1 + - q) / qp)).
  { unfold CB, QP. simpl. fold qp. destruct (Req_dec_T qp 0); [lra|done]. }
  rewrite HCS, HCB, HQP.
  set (wp0 := map _ ws ++ map _ wb).
  assert (Hcs0 : 0 <= s * q / qp).
  { apply Rmult_le_pos; [done|]. left. apply Rinv_0_lt_compat. lra. }
  assert (Hcb0 : 0 <= b * (1 + - q) / qp).
  { apply Rmult_le_pos; [done|]. left. apply Rinv_0_lt_compat. lra. }
  destruct (scale_nonneg _ ws Hcs0 Hws) as [Hn1 Hs1].
  destruct (scale_nonneg _ wb Hcb0 Hwb) as [Hn2 Hs2].
  assert (Hwp0 : Forall nonneg wp0) by by apply Forall_app.
  assert (Hwp0s : 0 < sumR valR wp0).
  { unfold wp0. rewrite sumR_app, Hs1, Hs2.
    replace (s * q / qp * sumR valR ws + b * (1 + - q) / qp * sumR valR wb)
      with ((s * q * sumR valR ws + b * (1 - q) * sumR valR wb) / qp)
      by (field; lra).
    apply Rdiv_lt_0_compat; lra. }
  destruct (normalize_nonneg wp0 Hwp0 Hwp0s) as (Hwp & Hwps & Hwpe).
  set (wp := normalize wp0) in *.
  assert (Hwpl : length wp = (length ws + length wb)%nat).
  { unfold wp, wp0. by rewrite length_normalize, length_app, !length_map. }
  specialize (Hlen particles_p measurements).
  specialize (Hfin particles_p measurements).
  destruct (lf particles_p measurements) as [LogLt LogRatio].
  simpl in Hlen, Hfin. destruct Hlen as [HlL HlR]. destruct Hfin as [HfL HfR].
  assert (HsupL : finite_on_support LogLt wp).
  { apply finite_support_of_finite; [done|]. lia. }
  assert (HsupR : finite_on_support LogRatio wp).
  { apply finite_support_of_finite; [done|]. lia. }
  destruct (update_existance_prob_finite wp LogRatio qp Hwp Hwpe HsupR Hqp)
    as (l1 & l2 & q' & _ & _ & Hupd & _ & Hq').
  erewrite mbind_lift_eq; [|exact Hupd].
  destruct (weight_update_spec LogLt wp Hwp Hwpe HsupL)
    as (out & x & lse & Hout & _ & _ & Hlo & _ & _ & Hon & Hos).
  erewrite mbind_lift_eq; [|exact Hout].
  assert (Hos' : sumR valR out = 1).
  { rewrite sum_finite in Hos; [by injection Hos|].
    eapply Forall_impl; [exact Hon|]. apply nonneg_finite. }
  destruct (normalize_nonneg out Hon) as (Hw & Hws1 & _); [lra|].
  set (w := normalize out) in *.
  destruct (sysresample_normalised w Ns rg σ) as (idx & Hidx & Hil & Hir);
    [eapply Forall_impl; [exact Hw|]; apply nonneg_finite|done|done|].
  erewrite mbind_step; [|exact Hidx].
  assert (Hwl : length w = nrows particles_p).
  { unfold w. rewrite length_normalize, Hlo. lia. }
  destruct (take_idx_in_range (rows particles_p) idx) as [r Hr].
  { eapply Forall_impl; [exact Hir|]. intros i Hi. simpl in Hi.
    unfold nrows in Hwl. lia. }
  erewrite mbind_lift_eq; [|unfold take_rows; rewrite Hr; reflexivity].
  erewrite mbind_lift_eq.
  2:{ unfold np_ones. by destruct (Z.ltb_spec Ns 0); [lia|]. }
  unfold mbind' at 1, call_birth.
  destruct (bm measurements Nb _) as [pb' g'].
  erewrite mbind_lift_eq.
  2:{ unfold np_ones. by destruct (Z.ltb_spec Nb 0); [lia|]. }
  unfold override, __init__, mbind', mret'.
  eexists _, _, q'. split; [reflexivity|]. by split.
Qed.

End TransitionTotal.

(** ** The example generator *)

#[export] Instance fixed_generator_laws : GeneratorLaws unit.
Proof.
  split.
  - intros g. simpl. lra.
  - intros a n g. simpl. by rewrite length_replicate.
  - intros a n g Ha. simpl. by apply Forall_replicate.
Qed.

Section ResamplerClaims.
Local Open Scope R_scope.

(** C6. When at least one weight is NaN, [_sysresample] does no systematic
    resampling: for every nonnegative requested count it returns exactly
    what one call [rng.choice(len(weights), min(len(weights), N))] of the
    generator returns, that is [min(len(weights), N)] indices, each an
    index of the input population, drawn by the generator's uniform
    [choice]; the result is the same for every other weight vector of
    that length holding a NaN, so the weights are not consulted. *)
Theorem sysresample_nan_fallback {G : Type} `{GeneratorLaws G}
  (weights : list npfloat) (Nsuv : Z) (rng : loc) (σ : loc → G) :
  NaN ∈ weights → (0 ≤ Nsuv)%Z →
  let N := Z.to_nat (Z.min (Z.of_nat (length weights)) Nsuv) in
  let draw := gen_choice (length weights) N (σ rng) in
  _sysresample weights Nsuv rng σ = (Ok draw.1, <[rng:=draw.2]> σ)
  ∧ length draw.1 = N
  ∧ N = Nat.min (length weights) (Z.to_nat Nsuv)
  ∧ Forall (λ i, i < length weights)%nat draw.1
  ∧ (∀ weights', length weights' = length weights → NaN ∈ weights' →
       _sysresample weights' Nsuv rng σ = _sysresample weights Nsuv rng σ).
Proof.
  intros Hnan HN N draw.
  assert (Hlen : (0 < length weights)%nat).
  { destruct weights; [by apply elem_of_nil in Hnan|simpl; lia]. }
  assert (Hbranch : ∀ w, length w = length weights → NaN ∈ w →
            _sysresample w Nsuv rng σ = (Ok draw.1, <[rng:=draw.2]> σ)).
  { intros w Hw Hin. rewrite sysresample_nan_branch by done.
    unfold rng_choice. rewrite Hw.
    destruct (Z.ltb_spec (Z.min (Z.of_nat (length weights)) Nsuv) 0); [lia|].
    destruct (Nat.eqb_spec (length weights) 0); [lia|]. simpl.
    fold N. fold draw. by destruct draw. }
  split; [by apply Hbranch|].
  split; [apply gen_choice_length|].
  split; [unfold N; lia|].
  split; [by apply gen_choice_range|].
  intros w Hw Hin. by rewrite !Hbranch.
Qed.

Lemma sysresample_nan_fallback_witness :
  (_sysresample [Fin 1; NaN; Fin 2] 2 default_rng test_store).1 = Ok [0; 0]%nat.
Proof.
  destruct (sysresample_nan_fallback [Fin 1; NaN; Fin 2] 2 default_rng
              test_store) as [Hrun _].
  - right. by left.
  - lia.
  - by rewrite Hrun.
Defined.

(** C5, at the failing input: the weights [[0.5, 0.25]] hold no NaN and
    one index is requested; the offset drawn is 0.75, so the only position
    0.75 is not below the last cumulative sum 0.75; the pointer [j] runs
    past the last index and the read [cumsum[j]] raises IndexError.  There
    is no clamp. *)
Theorem sysresample_pointer_overrun :
  (_sysresample [Fin (1 / 2); Fin (1 / 4)] 1 default_rng test_store).1
  = Raise IndexError.
Proof.
  unfold _sysresample. simpl existsb. cbv iota.
  unfold mbind', rng_random, lift, np_zeros_int. simpl.
  change (Z.min (Z.of_nat 2) 1) with 1%Z.
  Rdec. unfold Np.lt. Rdec. done.
Qed.

End ResamplerClaims.

(** ** Construction and the read-only queries *)

Section ObjectClaims.
Context {G : Type} `{Generator G}.
Local Open Scope R_scope.

(** C7, as the code has it. The constructor validates nothing: when the
    newborn particles and weights are supplied, construction returns a
    state for every value of the counts, of the probabilities and of the
    arrays, raising no error, touching no generator and storing every
    value as it was given; the optional surviving population defaults to
    the empty one. *)
Theorem init_validates_nothing (Nsuv Nbirth : Z) (prob_birth prob_surv : scalar)
  (likelihood_fn : Likelihood) (birth_model : @BirthModel G)
  (motion_model : MotionModel) (prob : scalar)
  (particles_born : Particles) (weights_born : list npfloat)
  (particles_surv : option Particles) (weights_surv : option (list npfloat))
  (N_eff N_eff_surv N_eff_surv_normalized N_eff_born N_eff_born_normalized
     : npfloat)
  (rng : loc) (σ : loc → G) :
  __init__ Nsuv Nbirth prob_birth prob_surv likelihood_fn birth_model
    motion_model prob (Some particles_born) (Some weights_born)
    particles_surv weights_surv N_eff N_eff_surv N_eff_surv_normalized
    N_eff_born N_eff_born_normalized rng σ
  = (Ok {| likelihood_fn := likelihood_fn;
           birth_model := birth_model;
           motion_model := motion_model;
           Nsuv := Nsuv;
           Nbirth := Nbirth;
           prob_birth := prob_birth;
           prob_surv := prob_surv;
           prob := prob;
           particles_surv :=
             default (Array2 (ncols particles_born) []) particles_surv;
           weights_surv := default [] weights_surv;
           particles_born := particles_born;
           weights_born := weights_born;
           N_eff := N_eff;
           N_eff_surv := N_eff_surv;
           N_eff_surv_normalized := N_eff_surv_normalized;
           N_eff_born := N_eff_born;
           N_eff_born_normalized := N_eff_born_normalized;
           rng := rng |}, σ).
Proof.
  unfold __init__, mbind', mret'.
  by destruct particles_surv, weights_surv.
Qed.

Lemma vecmat_length (w : list npfloat) (P : ndarray2) v :
  vecmat w P = Ok v → length v = ncols P.
Proof.
  unfold vecmat. destruct (_ =? _)%nat; [|done].
  intros [= <-]. by rewrite length_map, length_seq.
Qed.

Lemma map_const_seq {A} (x : A) n k :
  map (λ _, x) (seq k n) = replicate n x.
Proof.
  revert k. induction n as [|n IH]; intros k; simpl; [done|]. by rewrite IH.
Qed.

(** C10. For a state whose surviving population is empty (no surviving
    weight, no surviving particle) and whose newborn population is not,
    both populations having dimension [D] and the newborn one a weight per
    particle, [mean] is the weighted average [weights_born @ particles_born]
    of the newborn population while [covar] is the [D x D] matrix of
    zeros. *)
Theorem covar_empty_survivors (self : @BerParticleFilter G) :
  weights_surv self = [] →
  rows (particles_surv self) = [] →
  ncols (particles_surv self) = ncols (particles_born self) →
  length (weights_born self) = nrows (particles_born self) →
  (0 < length (weights_born self))%nat →
  let D := ncols (particles_born self) in
  mean self = vecmat (weights_born self) (particles_born self)
  ∧ (∃ v, mean self = Ok v ∧ length v = D)
  ∧ covar self = Ok (Array2 D (replicate D (replicate D (Fin 0)))).
Proof.
  intros Hws Hps Hdim Hlen Hpos D.
  assert (Hmean : mean self = vecmat (weights_born self) (particles_born self)).
  { unfold mean. rewrite Hws. simpl.
    by destruct (Nat.ltb_spec 0 (length (weights_born self))); [|lia]. }
  destruct (vecmat (weights_born self) (particles_born self)) as [v|e] eqn:Ev.
  2:{ unfold vecmat in Ev. unfold nrows in Hlen.
      rewrite Hlen, Nat.eqb_refl in Ev. done. }
  pose proof (vecmat_length _ _ _ Ev) as Hv. fold D in Hv.
  split; [done|]. split; [by exists v|].
  unfold covar. rewrite Hmean. simpl.
  unfold np_subtract. rewrite Hdim. fold D. rewrite Hv, Nat.eqb_refl. simpl.
  unfold einsum_i_id_ic. rewrite Hws, Hps. simpl.
  by rewrite !map_const_seq.
Qed.

End ObjectClaims.

Section ObjectExamples.
Local Open Scope R_scope.

(** C7, counterexample: a negative [Nsuv], a negative [Nbirth], a
    [prob_birth] of 2, a [prob_surv] of -1 and a newborn population of no
    particle with one weight are all accepted by the constructor, which
    returns a state holding these very values. *)
Lemma init_accepts_invalid :
  ∃ st : @BerParticleFilter unit,
    (__init__ (-1) (-2) (py_float (Fin 2)) (py_float (Fin (-1)))
       test_likelihood test_birth_model test_motion_model default_prob
       (Some (Array2 3 [])) (Some [Fin 1]) None None
       NaN NaN NaN NaN NaN default_rng test_store).1 = Ok st
    ∧ Nsuv st = (-1)%Z ∧ Nbirth st = (-2)%Z
    ∧ prob_birth st = py_float (Fin 2) ∧ prob_surv st = py_float (Fin (-1))
    ∧ nrows (particles_born st) = 0%nat ∧ length (weights_born st) = 1%nat.
Proof. eexists. split; [reflexivity|]. by repeat split. Qed.

Lemma covar_empty_survivors_witness :
  covar (constructed 2 2) = Ok (Array2 3 (replicate 3 (replicate 3 (Fin 0)))).
Proof.
  destruct (covar_empty_survivors (constructed 2 2)) as (_ & _ & Hc);
    try done.
  simpl. lia.
Defined.

(** The state [constructed] is the one [__init__] builds. *)
Example init_constructed :
  (__init__ 2 2 (py_float (Fin (1 / 100))) (py_float (Fin (99 / 100)))
     test_likelihood test_birth_model test_motion_model default_prob
     None None None None NaN NaN NaN NaN NaN default_rng test_store).1
  = Ok (constructed 2 2).
Proof. reflexivity. Qed.

End ObjectExamples.

(** ** The existence probability and the populations after a transition *)

Section ExampleStates.
Local Open Scope R_scope.

Lemma test_collaborators_ok (Nsuv Nbirth : Z) :
  collaborators_ok (constructed Nsuv Nbirth).
Proof.
  split; simpl.
  - done.
  - intros P m. unfold test_likelihood. simpl. by rewrite !length_replicate.
  - intros P m. unfold test_likelihood. simpl.
    split; by apply Forall_replicate.
  - intros m n g Hn. unfold test_birth_model, nrows. simpl.
    by rewrite length_replicate.
Qed.

Lemma constructed_wf_2_2 : wf_state (constructed 2 2).
Proof.
  split; simpl; try done; try lia; try lra.
  - repeat constructor; simpl; lra.
  - unfold predicted_mass. simpl. lra.
Qed.

Lemma constructed_wf_2_1 : wf_state (constructed 2 1).
Proof.
  split; simpl; try done; try lia; try lra.
  - repeat constructor; simpl; lra.
  - unfold predicted_mass. simpl. lra.
Qed.

End ExampleStates.

Section ExistenceClaims.
Local Open Scope R_scope.

Lemma logsumexp_nonempty x : x ≠ [] → ∃ l, _logsumexp x = Ok l.
Proof. destruct x as [|a x]; [done|]. intros _. by eexists. Qed.

Lemma minimum_one_clamps a : Np.lt (Fin 1) (Np.minimum a (Fin 1)) = false.
Proof.
  destruct a as [| | |r]; simpl; try done.
  - destruct (Rlt_dec 1 1); [lra|done].
  - destruct (Rlt_dec 1 r) as [Hlt|Hge]; simpl.
    + destruct (Rlt_dec 1 1); [lra|done].
    + by destruct (Rlt_dec 1 r).
Qed.

(** C3. Whatever [np.exp] and [np.log] return, rounding errors included,
    [_update_existance_prob] returns [min(q, 1)] for the [q] it computed,
    which is never greater than 1.  For a weight vector with a nonzero
    entry, a [LogRatio] finite wherever the weight is not zero and a
    [prob_prediction] strictly between 0 and 1, it returns
    [min(exp(logq), 1)] with
    [logq = logsumexp(x1) + log(prob_prediction) - logsumexp(x2)], which
    lies in [[0,1]] when the weights are nonnegative.  Consequently the
    state returned by a transition from a well-formed state with finite
    inputs has an existence probability in [[0,1]]. *)
Theorem existence_prob_at_most_one {G : Type} `{GeneratorLaws G} :
  (∀ (np_exp np_log : npfloat → npfloat)
     (weight_predictions LogRatio : list npfloat)
     (prob_prediction q : npfloat),
     _update_existance_prob_with np_exp np_log weight_predictions LogRatio
       prob_prediction = Ok q →
     (∃ q0, q = Np.minimum q0 (Fin 1)) ∧ Np.lt (Fin 1) q = false)
  ∧ (∀ (weight_predictions LogRatio : list npfloat)
       (prob_prediction : npfloat),
       _update_existance_prob weight_predictions LogRatio prob_prediction
       = _update_existance_prob_with Np.exp Np.log weight_predictions
           LogRatio prob_prediction)
  ∧ (∀ (weight_predictions LogRatio : list npfloat) (p : R),
     Exists (λ v, Np.is_zero v = false) weight_predictions →
     finite_on_support LogRatio weight_predictions →
     0 < p < 1 →
     ∃ wp y l1 l2 q,
       take_idx weight_predictions (Np.nonzero weight_predictions) = Ok wp
       ∧ take_idx LogRatio (Np.nonzero weight_predictions) = Ok y
       ∧ _logsumexp (zip_with Np.add y (map Np.log wp)) = Ok l1
       ∧ _logsumexp
           (Np.log (Np.sub (Fin 1) (Fin p))
              :: zip_with Np.add (map (λ v, Np.add v (Np.log (Fin p))) y)
                   (map Np.log wp)) = Ok l2
       ∧ _update_existance_prob weight_predictions LogRatio (Fin p) = Ok q
       ∧ q = Np.minimum
               (Np.exp (Np.sub (Np.add l1 (Np.log (Fin p))) l2)) (Fin 1)
       ∧ Np.lt (Fin 1) q = false
       ∧ (Forall nonneg weight_predictions → unit_interval q))
  ∧ (∀ (self : @BerParticleFilter G) measurements (σ σ' : loc → G)
       (st' : @BerParticleFilter G),
       collaborators_ok self → wf_state self →
       __call__ self measurements σ = (Ok st', σ') →
       unit_interval (val (prob st'))).
Proof.
  split; [|split; [done|split]].
  - intros np_exp np_log wp L pp q Hq.
    unfold _update_existance_prob_with in Hq.
    apply rbind_Ok in Hq as (w & _ & Hq).
    apply rbind_Ok in Hq as (y & _ & Hq).
    apply rbind_Ok in Hq as (l1 & _ & Hq).
    apply rbind_Ok in Hq as (l2 & _ & Hq).
    cbn [np_min foldl] in Hq. injection Hq as <-.
    split; [by eexists|apply minimum_one_clamps].
  - intros wp L p Hex Hfin Hp.
    pose proof (support_cover L wp Hfin) as HcL.
    pose proof (zip_cover L wp Hfin) as HcX.
    assert (Hx1 : zip_with Np.add (sel wp L) (map Np.log (sel wp wp))
                  = sel wp (zip_with Np.add L (map Np.log wp)))
      by by rewrite <- sel_map, <- sel_zip_with.
    destruct (logsumexp_nonempty
                (zip_with Np.add (sel wp L) (map Np.log (sel wp wp))))
      as [l1 Hl1].
    { rewrite Hx1. by apply sel_nonempty. }
    destruct (logsumexp_nonempty
                (Np.log (Np.sub (Fin 1) (Fin p))
                   :: zip_with Np.add
                        (map (λ v, Np.add v (Np.log (Fin p))) (sel wp L))
                        (map Np.log (sel wp wp)))) as [l2 Hl2]; [done|].
    exists (sel wp wp), (sel wp L), l1, l2.
    eexists. split; [apply take_idx_nonzero, self_cover|].
    split; [by apply take_idx_nonzero|].
    split; [exact Hl1|]. split; [exact Hl2|].
    assert (Hrun : _update_existance_prob wp L (Fin p)
                   = Ok (Np.minimum
                           (Np.exp (Np.sub (Np.add l1 (Np.log (Fin p))) l2))
                           (Fin 1))).
    { unfold _update_existance_prob.
      rewrite (take_idx_nonzero wp wp) by apply self_cover. cbn [rbind].
      rewrite (take_idx_nonzero wp L) by done. cbn [rbind].
      rewrite Hl1. cbn [rbind]. rewrite Hl2. cbn [rbind]. done. }
    split; [exact Hrun|]. split; [done|].
    split; [apply minimum_one_clamps|].
    intros Hnn.
    destruct (update_existance_prob_finite wp L p Hnn Hex Hfin)
      as (r1 & r2 & q & _ & _ & Hq & _ & Hrange); [lra|].
    set (Q := Np.minimum _ (Fin 1)) in *.
    rewrite Hrun in Hq. injection Hq as Hq. rewrite Hq. simpl. lra.
  - intros self m σ σ' st' Hc Hwf Hcall.
    destruct (call_returns self m σ Hc Hwf)
      as (st'' & σ'' & q' & Hrun & Hq & Hr).
    rewrite Hcall in Hrun. injection Hrun as <- <-.
    rewrite Hq. simpl. lra.
Qed.

(** With an [np.exp] that returns 2, a value no exact exponential of
    this quotient takes, the update still returns 1: the bound is the
    work of line 91. *)
Example update_existance_prob_clamps :
  _update_existance_prob_with (λ _, Fin 2) Np.log [Fin 1] [Fin 0]
    (Fin (1 / 2)) = Ok (Fin 1).
Proof.
  unfold _update_existance_prob_with, _logsumexp_with, Np.nonzero.
  cbn [Np.nonzero_from Np.is_zero]. Rdec.
  cbn [take_idx lookup list_lookup rbind].
  cbn [map zip_with np_max foldl rbind np_min Np.minimum].
  unfold Np.lt. by Rdec.
Qed.

Lemma existence_prob_at_most_one_witness :
  (∃ q, _update_existance_prob [Fin 1; Fin 0] [Fin 0; NInf] (Fin (1 / 2)) = Ok q
        ∧ unit_interval q)
  ∧ (∃ st' σ', __call__ (constructed 2 2) None test_store = (Ok st', σ')
               ∧ unit_interval (val (prob st'))).
Proof.
  destruct (@existence_prob_at_most_one unit _ _) as (_ & _ & Hupd & Hcall).
  split.
  - destruct (Hupd [Fin 1; Fin 0] [Fin 0; NInf] (1 / 2))
      as (wp & y & l1 & l2 & q & _ & _ & _ & _ & Hq & _ & _ & Hunit).
    + left. simpl. Rdec.
    + intros [|[|i]] a Hi Hz; simpl in Hi; try done.
      * by exists 0.
      * injection Hi as <-. simpl in Hz. Rdec.
    + lra.
    + exists q. split; [done|]. apply Hunit.
      repeat constructor; simpl; lra.
  - destruct (call_returns (constructed 2 2) None test_store
                (test_collaborators_ok 2 2) constructed_wf_2_2)
      as (st' & σ' & q' & Hrun & _).
    exists st', σ'. split; [exact Hrun|].
    by apply (Hcall (constructed 2 2) None test_store σ' st'
                (test_collaborators_ok 2 2) constructed_wf_2_2).
Defined.

End ExistenceClaims.

Section PopulationClaims.
Local Open Scope R_scope.

(** C1, as the code has it. For every filter state whose birth model
    returns as many particles as requested and every optional measurement
    set, a state returned by one transition call has a surviving
    population of exactly [min(M, Nsuv)] particles, [M] being the length
    of the joint weight vector of the input state; whenever [Nsuv <= M]
    these are exactly [Nsuv] particles, with a weight vector exactly
    uniform (each entry [1/Nsuv]) of the same length.  The newborn
    population has exactly [Nbirth] particles, with a weight vector
    exactly uniform (each entry [1/Nbirth]) of the same length.  Nothing
    is asked of the likelihood or of the motion model, and nothing is
    said of a transition that raises. *)
Theorem transition_populations {G : Type} `{GeneratorLaws G}
  (self : @BerParticleFilter G) measurements (σ σ' : loc → G)
  (st' : @BerParticleFilter G) :
  (∀ m n g, (0 ≤ n)%Z → nrows (birth_model self m n g).1 = Z.to_nat n) →
  __call__ self measurements σ = (Ok st', σ') →
  let M := (length (weights_surv self) + length (weights_born self))%nat in
  nrows (particles_surv st') = Nat.min M (Z.to_nat (Nsuv self))
  ∧ ((Nsuv self ≤ Z.of_nat M)%Z →
       nrows (particles_surv st') = Z.to_nat (Nsuv self)
       ∧ weights_surv st'
         = replicate (Z.to_nat (Nsuv self)) (Fin (1 / IZR (Nsuv self)))
       ∧ length (weights_surv st') = nrows (particles_surv st'))
  ∧ nrows (particles_born st') = Z.to_nat (Nbirth self)
  ∧ weights_born st'
    = replicate (Z.to_nat (Nbirth self)) (Fin (1 / IZR (Nbirth self)))
  ∧ length (weights_born st') = nrows (particles_born st').
Proof.
  intros Hbirth Hrun M.
  destruct (call_returns_shape self measurements σ σ' st')
    as (HNs & HNb & Hps & Hws & Hpb & Hwb & _); [apply Hbirth|done|].
  fold M in Hps.
  split; [rewrite Hps; lia|].
  split.
  { intros HM. split; [rewrite Hps; lia|]. split; [done|].
    rewrite Hws, length_replicate, Hps. lia. }
  split; [done|]. split; [done|].
  by rewrite Hwb, length_replicate, Hpb.
Qed.

Lemma constructed_first_call :
  ∃ st' σ', __call__ (constructed 2 2) None test_store = (Ok st', σ').
Proof.
  destruct (call_returns (constructed 2 2) None test_store
              (test_collaborators_ok 2 2) constructed_wf_2_2)
    as (st' & σ' & q' & Hrun & _). by exists st', σ'.
Qed.

Lemma transition_populations_witness :
  ∃ st' σ',
    __call__ (constructed 2 2) None test_store = (Ok st', σ')
    ∧ nrows (particles_surv st') = 2%nat
    ∧ weights_surv st' = [Fin (1 / 2); Fin (1 / 2)]
    ∧ nrows (particles_born st') = 2%nat
    ∧ weights_born st' = [Fin (1 / 2); Fin (1 / 2)].
Proof.
  destruct constructed_first_call as (st' & σ' & Hrun).
  destruct (transition_populations (constructed 2 2) None test_store σ' st')
    as (_ & Hsurv & Hpb & Hwb & _); [|exact Hrun|].
  { intros m n g Hn. by apply (birth_rows _ (test_collaborators_ok 2 2)). }
  destruct Hsurv as (Hps & Hws & _); [simpl; lia|].
  exists st', σ'. by repeat split.
Defined.

(** C1, counterexample: the first transition of a filter constructed with
    [Nsuv = 2] and [Nbirth = 1] returns a state with one surviving
    particle, neither [Nsuv] particles nor as many as its two surviving
    weights. *)
Lemma transition_fewer_survivors :
  ∃ st' σ',
    __call__ (constructed 2 1) None test_store = (Ok st', σ')
    ∧ Nsuv st' = 2%Z
    ∧ nrows (particles_surv st') = 1%nat
    ∧ length (weights_surv st') = 2%nat.
Proof.
  destruct (call_returns (constructed 2 1) None test_store
              (test_collaborators_ok 2 1) constructed_wf_2_1)
    as (st' & σ' & q' & Hrun & _).
  destruct (call_returns_shape (constructed 2 1) None test_store σ' st')
    as (_ & _ & Hps & Hws & _ & _ & HNs & _); [|done|].
  { intros m n g Hn. by apply (birth_rows _ (test_collaborators_ok 2 1)). }
  exists st', σ'. split; [done|]. split; [done|].
  split; [by rewrite Hps|]. by rewrite Hws.
Qed.

End PopulationClaims.

(** ** Two runs of a transition *)

Section Determinism.
Context {G : Type} `{Generator G}.

Lemma same_outcome_bind {A B} (RA : A → A → Prop) (RB : B → B → Prop)
  (l1 l2 : loc) (c1 c2 : M G A) (k1 k2 : A → M G B) (σ1 σ2 : loc → G) :
  same_outcome RA l1 l2 (c1 σ1) (c2 σ2) →
  (∀ a b s1 s2, RA a b → s1 l1 = s2 l2 →
                same_outcome RB l1 l2 (k1 a s1) (k2 b s2)) →
  same_outcome RB l1 l2 (mbind' c1 k1 σ1) (mbind' c2 k2 σ2).
Proof.
  unfold mbind', same_outcome at 1.
  destruct (c1 σ1) as [[a|e1] s1], (c2 σ2) as [[b|e2] s2]; try done.
  intros [Hab Hs] Hk. by apply Hk.
Qed.

Lemma same_outcome_lift {A} (r : result A) l1 l2 (σ1 σ2 : loc → G) :
  σ1 l1 = σ2 l2 → same_outcome eq l1 l2 (lift r σ1) (lift r σ2).
Proof. intros Hs. unfold lift. by destruct r. Qed.

Lemma same_outcome_random l1 l2 (σ1 σ2 : loc → G) :
  σ1 l1 = σ2 l2 →
  same_outcome eq l1 l2 (rng_random l1 σ1) (rng_random l2 σ2).
Proof.
  intros Hs. unfold rng_random. rewrite Hs.
  destruct (gen_random (σ2 l2)) as [u g]. simpl.
  by rewrite !fn_lookup_insert.
Qed.

Lemma same_outcome_choice a n l1 l2 (σ1 σ2 : loc → G) :
  σ1 l1 = σ2 l2 →
  same_outcome eq l1 l2 (rng_choice l1 a n σ1) (rng_choice l2 a n σ2).
Proof.
  intros Hs. unfold rng_choice.
  destruct (n <? 0)%Z; [by apply same_outcome_lift|].
  destruct (_ && _); [by apply same_outcome_lift|].
  rewrite Hs. destruct (gen_choice _ _ _) as [i g]. simpl.
  by rewrite !fn_lookup_insert.
Qed.

Lemma same_outcome_birth (bm : BirthModel) m n l1 l2 (σ1 σ2 : loc → G) :
  σ1 l1 = σ2 l2 →
  same_outcome eq l1 l2 (call_birth bm m n l1 σ1) (call_birth bm m n l2 σ2).
Proof.
  intros Hs. unfold call_birth. rewrite Hs.
  destruct (bm m n (σ2 l2)) as [p g]. simpl.
  by rewrite !fn_lookup_insert.
Qed.

Lemma same_outcome_sysresample w n l1 l2 (σ1 σ2 : loc → G) :
  σ1 l1 = σ2 l2 →
  same_outcome eq l1 l2 (_sysresample w n l1 σ1) (_sysresample w n l2 σ2).
Proof.
  intros Hs. unfold _sysresample.
  destruct (existsb Np.isnan w); [by apply same_outcome_choice|].
  eapply same_outcome_bind; [by apply same_outcome_random|].
  intros u ? s1 s2 <- Hs1.
  eapply same_outcome_bind; [by apply same_outcome_lift|].
  intros idx ? s3 s4 <- Hs3. by apply same_outcome_lift.
Qed.

(** C9. Two runs of the transition from states with the same fields, on
    the same measurements, each with its own generator object, the two
    generators being in the same state: either both raise the same
    exception or both return, and then the two returned states have the
    same fields (particles, weights, existence probability, diagnostics
    and configuration); in both cases the two generators are again in the
    same state. *)
Theorem transition_deterministic (st1 st2 : @BerParticleFilter G)
  (measurements : option Measurements) (σ1 σ2 : loc → G) :
  same_fields st1 st2 →
  σ1 (rng st1) = σ2 (rng st2) →
  same_outcome same_fields (rng st1) (rng st2)
    (__call__ st1 measurements σ1) (__call__ st2 measurements σ2).
Proof.
  intros Hf Hs. unfold same_fields in Hf.
  destruct st1 as [lf bm mm Ns Nb pb ps q P1 w1 P2 w2 e1 e2 e3 e4 e5 l1].
  destruct st2 as [lf' bm' mm' Ns' Nb' pb' ps' q' P1' w1' P2' w2'
                     e1' e2' e3' e4' e5' l2].
  unfold with_rng in Hf. simpl in Hf, Hs.
  injection Hf as <- <- <- <- <- <- <- <- <- <- <- <- <- <- <- <- <-.
  unfold __call__.
  cbn [prob particles_surv particles_born motion_model prob_birth prob_surv
       weights_surv weights_born likelihood_fn Nsuv Nbirth rng birth_model].
  eapply same_outcome_bind; [by apply same_outcome_lift|].
  intros particles ? s1 s2 <- Hs1.
  eapply same_outcome_bind; [by apply same_outcome_lift|].
  intros c_surv ? s3 s4 <- Hs3.
  eapply same_outcome_bind; [by apply same_outcome_lift|].
  intros c_born ? s5 s6 <- Hs5.
  destruct (lf (mm particles) measurements) as [LogLt LogRatio].
  eapply same_outcome_bind; [by apply same_outcome_lift|].
  intros qn ? s7 s8 <- Hs7.
  eapply same_outcome_bind; [by apply same_outcome_lift|].
  intros w ? s9 s10 <- Hs9.
  eapply same_outcome_bind; [by apply same_outcome_sysresample|].
  intros idx ? s11 s12 <- Hs11.
  eapply same_outcome_bind; [by apply same_outcome_lift|].
  intros psn ? s13 s14 <- Hs13.
  eapply same_outcome_bind; [by apply same_outcome_lift|].
  intros ones_s ? s15 s16 <- Hs15.
  eapply same_outcome_bind; [by apply same_outcome_birth|].
  intros pbn ? s17 s18 <- Hs17.
  eapply same_outcome_bind; [by apply same_outcome_lift|].
  intros ones_b ? s19 s20 <- Hs19.
  unfold override, __init__, mbind', mret'. simpl. done.
Qed.

End Determinism.

Section DeterminismExample.

Lemma transition_deterministic_witness :
  same_outcome same_fields 1%positive 2%positive
    (__call__ (with_rng 1%positive (constructed 2 2)) None test_store)
    (__call__ (with_rng 2%positive (constructed 2 2)) None test_store).
Proof.
  apply (transition_deterministic (with_rng 1%positive (constructed 2 2))
           (with_rng 2%positive (constructed 2 2)) None test_store test_store).
  - reflexivity.
  - reflexivity.
Defined.

End DeterminismExample.

(** ** The log-domain update against the direct formula *)

Section Refinement.
Local Open Scope R_scope.

(** C2, at the failing input: one particle of weight 1 whose log-ratio is
    minus infinity, and a predicted probability of 1/2.  The integral [I]
    is 0, finite, and the direct formula gives [q = 0]; the log-domain
    update returns NaN, [logsumexp(x1)] being [-inf + log(sum(exp(nan)))]. *)
Theorem existence_update_all_minus_inf :
  _update_existance_prob [Fin 1] [NInf] (Fin (1 / 2)) = Ok NaN
  ∧ _update_existance_prob_linear_domain [Fin 1] [NInf] (Fin (1 / 2))
    = Ok (Fin 0)
  ∧ Np.sum (zip_with Np.mul [Fin 1] (map Np.exp [NInf])) = Fin 0.
Proof.
  split; [|split].
  - unfold _update_existance_prob, Np.nonzero.
    repeat (progress (simpl; Rdec)). done.
  - unfold _update_existance_prob_linear_domain.
    repeat (progress (simpl; Rdec)).
    do 2 f_equal. field.
  - simpl. f_equal. lra.
Qed.

Lemma sum_Fin_inv (x : list npfloat) s :
  Np.sum x = Fin s → Forall finite x.
Proof.
  revert s. unfold Np.sum.
  induction x as [|a x IH]; intros s Hs; [done|]. simpl in Hs.
  destruct a as [| | |r]; try done;
    destruct (foldr Np.add (Fin 0) x) as [| | |t] eqn:E; try done.
  constructor; [done|]. by eapply IH.
Qed.

Lemma mul_exp_finite r l : finite (Np.mul (Fin r) (Np.exp l)) → logval l.
Proof.
  destruct l as [| | |x]; simpl; try done.
  unfold Np.inf_times. by Rdec.
Qed.

Lemma broadcast_same_length (w Ratio : list npfloat) :
  length w = length Ratio →
  match w, Ratio with
  | [a], _ => map (Np.mul a) Ratio
  | _, [r] => map (λ a, Np.mul a r) w
  | _, _ => zip_with Np.mul w Ratio
  end = zip_with Np.mul w Ratio.
Proof.
  destruct w as [|a [|b w]], Ratio as [|r [|t Ratio]]; simpl; try done.
Qed.

Lemma integral_on_support (wp L : list npfloat) :
  Forall nonneg wp → Forall logval L → length L = length wp →
  sumR expR (sel wp (zip_with Np.add L (map Np.log wp)))
  = sumR valR (zip_with Np.mul wp (map Np.exp L)).
Proof.
  intros Hnn. revert L.
  induction Hnn as [|w wp Hw _ IH]; intros [|l L] HL Hlen; try done.
  apply Forall_cons in HL as [Hl HL].
  simpl in Hlen. injection Hlen as Hlen.
  specialize (IH L HL Hlen).
  destruct w as [| | |r]; try done. simpl in Hw.
  cbn [map zip_with sel].
  destruct (Np.is_zero (Fin r)) eqn:Ez.
  - rewrite IH. simpl in Ez. destruct (Req_dec_T r 0) as [->|]; [|done].
    simpl. destruct l; try done; simpl; lra.
  - destruct (nonneg_nonzero_log (Fin r) Hw Ez) as (r' & [= <-] & Hpos & Hlog).
    rewrite Hlog. simpl sumR. rewrite IH.
    destruct l as [| | |x]; try done; simpl; [lra|].
    rewrite exp_plus, exp_ln by done. lra.
Qed.

Lemma sumR_nonzero_elem {A} (f : A → R) (x : list A) :
  sumR f x ≠ 0 → ∃ v, v ∈ x ∧ f v ≠ 0.
Proof.
  induction x as [|a x IH]; simpl; intros Hs; [done|].
  destruct (Req_dec_T (f a) 0) as [E|Hne].
  - destruct IH as (v & Hin & Hv); [by rewrite E, Rplus_0_l in Hs|].
    exists v. split; [by right|done].
  - exists a. split; [by left|done].
Qed.

Lemma sel_elem_inv {A} x : ∀ (X : list A) u,
  u ∈ sel x X →
  ∃ i v, x !! i = Some v ∧ Np.is_zero v = false ∧ X !! i = Some u.
Proof.
  induction x as [|w x IH]; intros [|a X] u Hin; simpl in Hin;
    try by apply elem_of_nil in Hin.
  destruct (Np.is_zero w) eqn:E.
  - destruct (IH X u Hin) as (i & v & Hi & Hz & HX). by exists (S i), v.
  - apply elem_of_cons in Hin as [->|Hin].
    + by exists 0%nat, w.
    + destruct (IH X u Hin) as (i & v & Hi & Hz & HX). by exists (S i), v.
Qed.

(** X8. Outside the failing case, that is for a finite integral [I] other than
    0, the log-domain update and the direct formula return the same
    value [I p / (1 - p + p I)], which the clamp leaves unchanged. *)
Lemma existence_update_refines (wp L : list npfloat) (p I : R) :
  Forall nonneg wp → length L = length wp → 0 < p < 1 →
  Np.sum (zip_with Np.mul wp (map Np.exp L)) = Fin I → I ≠ 0 →
  _update_existance_prob wp L (Fin p) = Ok (Fin (I * p / (1 - p + p * I)))
  ∧ _update_existance_prob_linear_domain wp L (Fin p)
    = Ok (Fin (I * p / (1 - p + p * I))).
Proof.
  intros Hnn Hlen Hp HI HI0.
  pose proof (sum_Fin_inv _ _ HI) as Hterms.
  assert (HL : Forall logval L).
  { apply Forall_lookup. intros i l Hl.
    destruct (lookup_lt_is_Some_2 wp i) as [w Hw].
    { rewrite <- Hlen. by eapply lookup_lt_Some. }
    rewrite Forall_lookup in Hterms.
    specialize (Hterms i (Np.mul w (Np.exp l))).
    rewrite lookup_zip_with, Hw, list_lookup_fmap, Hl in Hterms.
    specialize (Hterms eq_refl).
    rewrite Forall_lookup in Hnn. specialize (Hnn i w Hw).
    destruct w as [| | |r]; try done. by eapply mul_exp_finite. }
  pose proof (integral_on_support wp L Hnn HL Hlen) as Hsupp.
  rewrite sum_finite in HI by done. injection HI as HI. rewrite HI in Hsupp.
  assert (Hlv : ∀ i a, wp !! i = Some a → Np.is_zero a = false →
                       ∃ l, L !! i = Some l ∧ logval l).
  { intros i a Hi _.
    destruct (lookup_lt_is_Some_2 L i) as [l Hl].
    { rewrite Hlen. by eapply lookup_lt_Some. }
    exists l. split; [done|]. rewrite Forall_lookup in HL. by eapply HL. }
  assert (Hone : ∃ i a l, wp !! i = Some a ∧ Np.is_zero a = false
                          ∧ L !! i = Some (Fin l)).
  { destruct (sumR_nonzero_elem expR
                (sel wp (zip_with Np.add L (map Np.log wp))))
      as (u & Hin & Hu); [by rewrite Hsupp|].
    apply sel_elem_inv in Hin as (i & v & Hi & Hz & HX).
    apply lookup_zip_with_add_log in HX as (l & w & Hl & Hw & ->).
    rewrite Hi in Hw. injection Hw as <-.
    rewrite Forall_lookup in Hnn. specialize (Hnn i v Hi).
    destruct (nonneg_nonzero_log v Hnn Hz) as (r & -> & Hpos & Hlog).
    rewrite Hlog in Hu.
    destruct l as [| | |x]; try done. by exists i, (Fin r), x. }
  destruct (update_existance_prob_value wp L p Hnn Hlv Hone) as (Hq & Hr & _);
    [lra|].
  pose proof (I_pos wp L Hnn Hlv Hone) as Hpos.
  rewrite Hsupp in Hq, Hpos. split; [done|].
  unfold _update_existance_prob_linear_domain.
  rewrite length_map, Hlen, Nat.eqb_refl. cbn [negb andb].
  rewrite broadcast_same_length by by rewrite length_map.
  rewrite sum_finite by done. rewrite HI. cbn [Np.isfinite].
  simpl. destruct (Req_dec_T (1 + - p + p * I) 0) as [E|_]; [nra|].
  do 2 f_equal.
Qed.

End Refinement.

(** * Further properties of the code *)

(** ** [_logsumexp]: bounds, shifts and degenerate inputs *)

Section LogSumExpMore.
Local Open Scope R_scope.

Lemma exp_le x y : x <= y → exp x <= exp y.
Proof. intros [Hlt| ->]; [left; by apply exp_increasing | right; done]. Qed.

Lemma ln_le x y : 0 < x → x <= y → ln x <= ln y.
Proof. intros Hx [Hlt| ->]; [left; by apply ln_increasing | right; done]. Qed.

Lemma maximum_logval_upper a b :
  logval (Np.maximum a b) →
  ∀ r, a = Fin r ∨ b = Fin r → ∃ r', Np.maximum a b = Fin r' ∧ r <= r'.
Proof.
  destruct a as [| | |x], b as [| | |y]; simpl; try done.
  all: try destruct (Rlt_dec x y) as [Hlt|Hge].
  all: intros _ r [E|E]; try discriminate E.
  all: injection E as <-; eexists; (split; [reflexivity|lra]).
Qed.

Lemma foldl_maximum_upper x : ∀ a m,
  foldl Np.maximum a x = Fin m → ∀ r, Fin r ∈ a :: x → r <= m.
Proof.
  induction x as [|b x IH]; intros a m Hm r Hin; simpl in Hm.
  - apply list_elem_of_singleton in Hin. subst a. injection Hin as ->. lra.
  - pose proof (foldl_maximum_Fin x _ m Hm) as [Hall _].
    apply Forall_cons in Hall as [Hab _].
    apply elem_of_cons in Hin as [Ha|Hin].
    + destruct (maximum_logval_upper a b Hab r) as (r' & Hr' & Hle);
        [by left|].
      assert (r' <= m); [|lra].
      apply (IH _ m Hm). rewrite Hr'. by left.
    + apply elem_of_cons in Hin as [Hb|Hin].
      * destruct (maximum_logval_upper a b Hab r) as (r' & Hr' & Hle);
          [by right|].
        assert (r' <= m); [|lra].
        apply (IH _ m Hm). rewrite Hr'. by left.
      * apply (IH _ m Hm). by right.
Qed.

Lemma np_max_upper x m :
  np_max x = Ok (Fin m) → ∀ r, Fin r ∈ x → r <= m.
Proof.
  destruct x as [|a x]; [done|]. simpl. intros [= Hm].
  by apply foldl_maximum_upper.
Qed.

Lemma sumR_le_const {A} (f : A → R) (c : R) (x : list A) :
  Forall (λ v, f v <= c) x → sumR f x <= INR (length x) * c.
Proof.
  induction 1 as [|a x Ha _ IH]; [simpl; lra|].
  change (length (a :: x)) with (S (length x)). rewrite S_INR. simpl. lra.
Qed.

Lemma sumR_ge_elem {A} (f : A → R) (x : list A) a :
  Forall (λ v, 0 <= f v) x → a ∈ x → f a <= sumR f x.
Proof.
  induction 1 as [|b x Hb Hx IH]; intros Hin; [by apply elem_of_nil in Hin|].
  simpl. pose proof (sumR_nonneg f x Hx).
  apply elem_of_cons in Hin as [->|Hin]; [lra|].
  specialize (IH Hin). lra.
Qed.

(** X2. For an array whose maximum [m] is finite, the result lies between
    [m] and [m + log(len(x))]. *)
Theorem logsumexp_bounds (x : list npfloat) (m : R) :
  np_max x = Ok (Fin m) →
  ∃ l, _logsumexp x = Ok (Fin l) ∧ m <= l <= m + ln (INR (length x)).
Proof.
  intros Hmax. exists (ln (sumR expR x)).
  split; [by eapply logsumexp_value|].
  destruct (np_max_Fin x m Hmax) as [Hall Hin].
  pose proof (np_max_upper x m Hmax) as Hup.
  assert (Hnn : Forall (λ v, 0 <= expR v) x).
  { eapply Forall_impl; [exact Hall|]. intros; apply expR_nonneg. }
  assert (Hlo : exp m <= sumR expR x)
    by apply (sumR_ge_elem expR x (Fin m) Hnn Hin).
  assert (Hhi : sumR expR x <= INR (length x) * exp m).
  { apply sumR_le_const, Forall_forall. intros v Hv.
    destruct v as [| | |r]; simpl; try (left; apply exp_pos).
    apply exp_le. by apply Hup. }
  pose proof (exp_pos m) as Hm.
  assert (Hlen : 0 < INR (length x)).
  { apply lt_0_INR. destruct x; [by apply elem_of_nil in Hin|simpl; lia]. }
  split.
  - rewrite <- (ln_exp m) at 1. apply ln_le; lra.
  - replace (m + ln (INR (length x))) with (ln (INR (length x) * exp m))
      by (rewrite ln_mult, ln_exp by lra; lra).
    apply ln_le; lra.
Qed.

Lemma logsumexp_bounds_witness :
  ∃ l, _logsumexp [Fin 0; Fin 0] = Ok (Fin l) ∧ 0 <= l <= 0 + ln (INR 2).
Proof. apply (logsumexp_bounds [Fin 0; Fin 0] 0). simpl. by Rdec. Defined.

Lemma add_Fin_logval c v : logval v → logval (Np.add v (Fin c)).
Proof. by destruct v. Qed.

Lemma expR_add_Fin c v : logval v → expR (Np.add v (Fin c)) = exp c * expR v.
Proof.
  destruct v as [| | |r]; simpl; try done; intros _; [lra|].
  rewrite exp_plus. lra.
Qed.

(** X3. Adding a constant [c] to every entry adds [c] to the result. *)
Theorem logsumexp_shift (x : list npfloat) (m c : R) :
  np_max x = Ok (Fin m) →
  ∃ l, _logsumexp x = Ok (Fin l)
       ∧ _logsumexp (map (λ v, Np.add v (Fin c)) x) = Ok (Fin (l + c)).
Proof.
  intros Hmax. destruct (np_max_Fin x m Hmax) as [Hall Hin].
  pose proof (elem_finite_Exists x m Hin) as Hex.
  pose proof (sumR_expR_pos x Hall Hex) as Hpos.
  exists (ln (sumR expR x)). split; [by apply logsumexp_logval|].
  rewrite logsumexp_logval.
  - do 2 f_equal.
    assert (sumR expR (map (λ v, Np.add v (Fin c)) x)
            = exp c * sumR expR x) as ->.
    { rewrite <- sumR_scal. clear -Hall.
      induction Hall as [|v x Hv _ IH]; simpl; [done|].
      by rewrite IH, expR_add_Fin. }
    rewrite ln_mult, ln_exp; [lra|apply exp_pos|done].
  - apply Forall_map. eapply Forall_impl; [exact Hall|].
    intros v Hv. by apply add_Fin_logval.
  - apply Exists_exists. exists (Fin (m + c)). split; [|done].
    apply list_elem_of_fmap. by exists (Fin m).
Qed.

Lemma logsumexp_shift_witness :
  ∃ l, _logsumexp [Fin 0; NInf] = Ok (Fin l)
       ∧ _logsumexp (map (λ v, Np.add v (Fin 5)) [Fin 0; NInf]) = Ok (Fin (l + 5)).
Proof. apply (logsumexp_shift [Fin 0; NInf] 0 5). reflexivity. Defined.

Lemma foldl_maximum_NaN x : foldl Np.maximum NaN x = NaN.
Proof. induction x as [|b x IH]; simpl; [done|exact IH]. Qed.

Lemma maximum_choice a b :
  Np.maximum a b = NaN ∨ Np.maximum a b = a ∨ Np.maximum a b = b.
Proof.
  destruct a as [| | |x], b as [| | |y]; simpl; auto.
  destruct (Rlt_dec x y); auto.
Qed.

Lemma foldl_maximum_elem x : ∀ a c,
  foldl Np.maximum a x = c → c ≠ NaN → c ∈ a :: x.
Proof.
  induction x as [|b x IH]; intros a c Hc Hn; simpl in Hc.
  - subst. by left.
  - destruct (maximum_choice a b) as [E|[E|E]]; rewrite E in Hc.
    + rewrite foldl_maximum_NaN in Hc. congruence.
    + apply IH in Hc; [|done].
      apply elem_of_cons in Hc as [->|Hc]; [by left|by do 2 right].
    + apply IH in Hc; [|done]. by right.
Qed.

Lemma add_NaN_r a : Np.add a NaN = NaN.
Proof. by destruct a. Qed.

Lemma sum_NaN x : NaN ∈ x → Np.sum x = NaN.
Proof.
  unfold Np.sum. induction x as [|a x IH]; intros Hin;
    [by apply elem_of_nil in Hin|].
  simpl. apply elem_of_cons in Hin as [<-|Hin]; [done|].
  rewrite IH by done. apply add_NaN_r.
Qed.

Lemma logsumexp_cases (x : list npfloat) :
  match np_max x with
  | Raise e => x = [] ∧ _logsumexp x = Raise ValueError
  | Ok (Fin m) => ∃ l, _logsumexp x = Ok (Fin l)
  | Ok _ => _logsumexp x = Ok NaN
  end.
Proof.
  destruct (np_max x) as [c|e] eqn:Hmax.
  2:{ destruct x; [by split|done]. }
  assert (Hdeg : c = PInf ∨ c = NInf → _logsumexp x = Ok NaN).
  { intros Hc. unfold _logsumexp. rewrite Hmax. simpl.
    rewrite sum_NaN; [by rewrite add_NaN_r|].
    apply list_elem_of_fmap. exists c. split; [by destruct Hc as [->| ->]|].
    destruct x as [|a x]; [done|]. simpl in Hmax. injection Hmax as Hmax.
    apply (foldl_maximum_elem x a c Hmax). by destruct Hc as [->| ->]. }
  destruct c as [| | |m].
  - unfold _logsumexp. by rewrite Hmax.
  - apply Hdeg. by right.
  - apply Hdeg. by left.
  - eexists. by eapply logsumexp_value.
Qed.

(** X1. The outcomes of [_logsumexp]: ValueError on an empty array; a finite
    value when the maximum is finite; NaN in every other case, that is
    when an entry is NaN or plus infinity or when all entries are minus
    infinity.  It never returns an infinity. *)
Theorem logsumexp_outcomes (x : list npfloat) :
  match np_max x with
  | Raise e => x = [] ∧ _logsumexp x = Raise ValueError
  | Ok (Fin m) => ∃ l, _logsumexp x = Ok (Fin l)
  | Ok _ => _logsumexp x = Ok NaN
  end.
Proof. exact (logsumexp_cases x). Qed.

End LogSumExpMore.

(** ** [_weight_update] and [_weight_update_prime] *)

Section WeightUpdateMore.
Local Open Scope R_scope.

Lemma scatter_softmax (S : R) (wp : list npfloat) : ∀ L,
  Forall nonneg wp → Forall logval L → length L = length wp →
  scatter wp (map (λ v, Fin (expR v / S))
                (sel wp (zip_with Np.add L (map Np.log wp))))
  = zip_with (λ w l, Fin (valR w * expR l / S)) wp L.
Proof.
  intros L Hnn. revert L.
  induction Hnn as [|w wp Hw _ IH]; intros [|l L] HL Hlen; try done.
  apply Forall_cons in HL as [Hl HL]. simpl in Hlen. injection Hlen as Hlen.
  specialize (IH L HL Hlen).
  destruct w as [| | |r]; try done. simpl in Hw.
  cbn [map zip_with sel scatter].
  destruct (Np.is_zero (Fin r)) eqn:Ez.
  - rewrite IH. simpl in Ez. destruct (Req_dec_T r 0) as [->|]; [|done].
    f_equal. f_equal. simpl. unfold Rdiv. lra.
  - destruct (nonneg_nonzero_log (Fin r) Hw Ez) as (r' & [= <-] & Hpos & Hlog).
    rewrite Hlog. cbn [map]. rewrite IH. f_equal. f_equal. simpl.
    destruct l as [| | |x]; try done; simpl; [unfold Rdiv; lra|].
    rewrite exp_plus, exp_ln by done. unfold Rdiv. lra.
Qed.

Lemma support_of_logval (wp L : list npfloat) :
  Forall logval L → length L = length wp →
  ∀ i a, wp !! i = Some a → Np.is_zero a = false →
         ∃ l, L !! i = Some l ∧ logval l.
Proof.
  intros HL Hlen i a Hi _.
  destruct (lookup_lt_is_Some_2 L i) as [l Hl].
  { rewrite Hlen. by eapply lookup_lt_Some. }
  exists l. split; [done|]. rewrite Forall_lookup in HL. by eapply HL.
Qed.

Lemma support_of_integral (wp L : list npfloat) :
  Forall nonneg wp → Forall logval L → length L = length wp →
  integral wp L ≠ 0 →
  ∃ i a l, wp !! i = Some a ∧ Np.is_zero a = false ∧ L !! i = Some (Fin l).
Proof.
  intros Hnn HL Hlen HI. unfold integral in HI.
  rewrite <- integral_on_support in HI by done.
  destruct (sumR_nonzero_elem expR _ HI) as (u & Hin & Hu).
  apply sel_elem_inv in Hin as (i & v & Hi & Hz & HX).
  apply lookup_zip_with_add_log in HX as (l & w & Hl & Hw & ->).
  rewrite Hi in Hw. injection Hw as <-.
  rewrite Forall_lookup in Hnn. specialize (Hnn i v Hi).
  destruct (nonneg_nonzero_log v Hnn Hz) as (r & -> & Hpos & Hlog).
  rewrite Hlog in Hu.
  destruct l as [| | |x]; try done. by exists i, (Fin r), x.
Qed.

Lemma weight_update_closed_form (LogLt weight_predictions : list npfloat) :
  Forall nonneg weight_predictions → Forall logval LogLt →
  length LogLt = length weight_predictions →
  integral weight_predictions LogLt ≠ 0 →
  _weight_update LogLt weight_predictions
  = Ok (zip_with
          (λ w l, Fin (valR w * expR l / integral weight_predictions LogLt))
          weight_predictions LogLt).
Proof.
  intros Hnn HL Hlen HI.
  set (wp := weight_predictions) in *. set (L := LogLt) in *.
  pose proof (support_of_logval wp L HL Hlen) as Hlv.
  pose proof (support_of_integral wp L Hnn HL Hlen HI) as Hone.
  pose proof (x1_logval wp L Hnn Hlv) as Hall.
  pose proof (x1_finite wp L Hnn Hone) as Hex.
  set (X := zip_with Np.add L (map Np.log wp)) in *.
  assert (HcL : ∀ i v, wp !! i = Some v → Np.is_zero v = false →
                       (i < length L)%nat).
  { intros i v Hi _. rewrite Hlen. by eapply lookup_lt_Some. }
  assert (HcX : ∀ i v, wp !! i = Some v → Np.is_zero v = false →
                       (i < length X)%nat).
  { intros i v Hi Hz. unfold X. rewrite length_zip_with, length_map.
    pose proof (HcL i v Hi Hz). lia. }
  unfold _weight_update. fold wp L.
  rewrite (take_idx_nonzero wp L) by done. cbn [rbind].
  rewrite (take_idx_nonzero wp wp) by apply self_cover. cbn [rbind].
  rewrite <- sel_map, <- sel_zip_with. fold X.
  rewrite logsumexp_logval by done. cbn [rbind].
  rewrite put_idx_nonzero.
  2:{ rewrite length_map. apply length_sel; [done|apply self_cover]. }
  f_equal.
  rewrite (Forall_fmap_ext_1 _ (λ v, Fin (expR v / sumR expR (sel wp X)))).
  2:{ eapply Forall_impl; [exact Hall|]. intros v Hv.
      by apply softmax_entry. }
  unfold X. rewrite integral_on_support by done.
  by apply scatter_softmax.
Qed.

(** X4. Bayes' rule. For nonnegative weights and log-likelihoods that are
    finite or minus infinity, one per weight, with a nonzero integral
    [S = sum_j w_j exp(L_j)], the result is the vector of the
    [w_i exp(L_i) / S]. *)
Theorem weight_update_value (LogLt weight_predictions : list npfloat) :
  Forall nonneg weight_predictions → Forall logval LogLt →
  length LogLt = length weight_predictions →
  integral weight_predictions LogLt ≠ 0 →
  _weight_update LogLt weight_predictions
  = Ok (zip_with
          (λ w l, Fin (valR w * expR l / integral weight_predictions LogLt))
          weight_predictions LogLt).
Proof. exact (weight_update_closed_form LogLt weight_predictions). Qed.

Lemma weight_update_value_witness :
  ∃ S, _weight_update [Fin 0; NInf] [Fin 1; Fin 1]
       = Ok [Fin (1 * exp 0 / S); Fin (1 * 0 / S)].
Proof.
  eexists.
  rewrite (weight_update_value [Fin 0; NInf] [Fin 1; Fin 1]).
  - reflexivity.
  - repeat constructor; simpl; lra.
  - by repeat constructor.
  - reflexivity.
  - unfold integral. simpl. rewrite exp_0. lra.
Defined.

Lemma integral_shift (wp L : list npfloat) c :
  Forall nonneg wp → Forall logval L → length L = length wp →
  integral wp (map (λ v, Np.add v (Fin c)) L) = exp c * integral wp L.
Proof.
  intros Hnn HL Hlen. unfold integral.
  rewrite <- !integral_on_support; try done.
  - rewrite <- sumR_scal. apply sumR_sel_rel.
    { by rewrite !length_zip_with, !length_map. }
    intros i v a b Hi Hz Ha Hb.
    apply lookup_zip_with_add_log in Ha as (l & w & Hl & Hw & ->).
    apply lookup_zip_with_add_log in Hb as (l' & w' & Hl' & Hw' & ->).
    rewrite Hw in Hw'. injection Hw' as <-.
    rewrite list_lookup_fmap, Hl' in Hl. injection Hl as <-.
    rewrite Hi in Hw. injection Hw as <-.
    rewrite Forall_lookup in Hnn. specialize (Hnn i v Hi).
    destruct (nonneg_nonzero_log v Hnn Hz) as (r & -> & Hpos & ->).
    rewrite Forall_lookup in HL. specialize (HL i l' Hl').
    destruct l' as [| | |x]; try done; simpl; [lra|].
    rewrite !exp_plus. lra.
  - apply Forall_map. eapply Forall_impl; [exact HL|].
    intros v Hv. by apply add_Fin_logval.
  - by rewrite length_map.
Qed.

(** X5. Adding one constant to every log-likelihood leaves the updated
    weights unchanged. *)
Theorem weight_update_shift (LogLt weight_predictions : list npfloat) (c : R) :
  Forall nonneg weight_predictions → Forall logval LogLt →
  length LogLt = length weight_predictions →
  integral weight_predictions LogLt ≠ 0 →
  _weight_update (map (λ v, Np.add v (Fin c)) LogLt) weight_predictions
  = _weight_update LogLt weight_predictions.
Proof.
  intros Hnn HL Hlen HI.
  pose proof (integral_shift weight_predictions LogLt c Hnn HL Hlen) as Hs.
  pose proof (exp_pos c) as Hc.
  rewrite !weight_update_closed_form; try done.
  - f_equal. rewrite Hs.
    set (I := integral weight_predictions LogLt) in *. clearbody I.
    clear -HL Hc HI. revert LogLt HL. induction weight_predictions as [|w wp IH];
      intros [|l L] HL; try done.
    apply Forall_cons in HL as [Hl HL]. cbn [map zip_with].
    rewrite IH by done. do 2 f_equal.
    rewrite expR_add_Fin by done. field. split; lra.
  - apply Forall_map. eapply Forall_impl; [exact HL|].
    intros v Hv. by apply add_Fin_logval.
  - by rewrite length_map.
  - rewrite Hs. nra.
Qed.

Lemma weight_update_shift_witness :
  _weight_update (map (λ v, Np.add v (Fin 7)) [Fin 0; NInf]) [Fin 1; Fin 1]
  = _weight_update [Fin 0; NInf] [Fin 1; Fin 1].
Proof.
  apply (weight_update_shift [Fin 0; NInf] [Fin 1; Fin 1] 7).
  - repeat constructor; simpl; lra.
  - by repeat constructor.
  - reflexivity.
  - unfold integral. simpl. rewrite exp_0. lra.
Defined.

Lemma nonzero_all_zero x :
  Forall (λ v, Np.is_zero v = true) x → Np.nonzero x = [].
Proof.
  intros Hz. apply nonzero_from_all_zero. intros i v Hi.
  rewrite Forall_lookup in Hz. by eapply Hz.
Qed.

(** X6. With weights that are all zero (an empty weight vector included),
    both log-domain kernels raise ValueError, whatever the log-vector:
    the restricted vector is empty and [np.max] has nothing to reduce. *)
Theorem kernels_all_zero_weights (weight_predictions L : list npfloat)
  (prob_prediction : npfloat) :
  Forall (λ v, Np.is_zero v = true) weight_predictions →
  _weight_update L weight_predictions = Raise ValueError
  ∧ _update_existance_prob weight_predictions L prob_prediction
    = Raise ValueError.
Proof.
  intros Hz. unfold _weight_update, _update_existance_prob.
  by rewrite nonzero_all_zero.
Qed.

Lemma kernels_all_zero_weights_witness :
  _weight_update [Fin 3; Fin 4] [Fin 0; Fin 0] = Raise ValueError
  ∧ _update_existance_prob [Fin 0; Fin 0] [Fin 3; Fin 4] (Fin (1 / 2))
    = Raise ValueError.
Proof.
  apply (kernels_all_zero_weights [Fin 0; Fin 0] [Fin 3; Fin 4] (Fin (1 / 2))).
  repeat constructor; simpl; Rdec.
Defined.

Lemma normalize_value l :
  Forall finite l → sumR valR l ≠ 0 →
  normalize l = map (λ a, Fin (valR a / sumR valR l)) l.
Proof.
  intros Hl Hs. unfold normalize. rewrite sum_finite by done.
  apply Forall_fmap_ext_1. eapply Forall_impl; [exact Hl|].
  intros [| | |r] Hr; try done. simpl.
  by destruct (Req_dec_T (sumR valR l) 0).
Qed.

Lemma np_multiply_same_length a b :
  length a = length b → np_multiply a b = Ok (zip_with Np.mul a b).
Proof.
  intros Hlen. unfold np_multiply. rewrite Hlen, Nat.eqb_refl. cbn [negb andb].
  by rewrite broadcast_same_length.
Qed.

Lemma weight_update_prime_exact (LogLt weight_predictions : list npfloat)
  (m : R) :
  Forall nonneg weight_predictions →
  np_max LogLt = Ok (Fin m) →
  length LogLt = length weight_predictions →
  integral weight_predictions LogLt ≠ 0 →
  _weight_update_prime LogLt weight_predictions
  = _weight_update LogLt weight_predictions.
Proof.
  intros Hnn Hmax Hlen HI.
  destruct (np_max_Fin LogLt m Hmax) as [HL _].
  rewrite weight_update_closed_form by done.
  unfold _weight_update_prime. rewrite Hmax. cbn [rbind].
  rewrite np_multiply_same_length by by rewrite length_map.
  cbn [rbind]. f_equal.
  set (I := integral weight_predictions LogLt) in *.
  assert (Hterms : zip_with Np.mul weight_predictions
                     (map (λ v, Np.exp (Np.sub v (Fin m))) LogLt)
                   = zip_with (λ w l, Fin (exp (- m) * (valR w * expR l)))
                       weight_predictions LogLt).
  { clear -Hnn HL Hlen. revert LogLt HL Hlen.
    induction Hnn as [|w wp Hw _ IH]; intros [|l L] HL Hlen; try done.
    apply Forall_cons in HL as [Hl HL]. simpl in Hlen. injection Hlen as Hlen.
    cbn [map zip_with]. rewrite IH by done. f_equal.
    rewrite exp_shift_logval by done.
    destruct w as [| | |r]; try done. simpl. f_equal. lra. }
  rewrite Hterms.
  assert (Hsum : sumR valR
                   (zip_with (λ w l, Fin (exp (- m) * (valR w * expR l)))
                      weight_predictions LogLt) = exp (- m) * I).
  { unfold I, integral. clear -Hnn HL Hlen. revert LogLt HL Hlen.
    induction Hnn as [|w wp Hw _ IH]; intros [|l L] HL Hlen; try done;
      [simpl; lra|].
    apply Forall_cons in HL as [Hl HL]. simpl in Hlen. injection Hlen as Hlen.
    cbn [map zip_with sumR foldr].
    fold (sumR valR (zip_with (λ w l, Fin (exp (- m) * (valR w * expR l))) wp L)).
    fold (sumR valR (zip_with Np.mul wp (map Np.exp L))).
    rewrite IH by done.
    destruct w as [| | |r]; try done.
    destruct l as [| | |x]; try done; simpl; lra. }
  pose proof (exp_pos (- m)) as Hm. clearbody I.
  rewrite normalize_value.
  - rewrite Hsum. clear -Hm HI.
    revert LogLt. induction weight_predictions as [|w wp IH];
      intros [|l L]; try done.
    cbn [map zip_with]. rewrite IH. do 2 f_equal. simpl. field. split; lra.
  - clear. revert LogLt. induction weight_predictions as [|w wp IH];
      intros [|l L]; try done; constructor; try done; apply IH.
  - rewrite Hsum. nra.
Qed.

Lemma integral_pos_at (wp : list npfloat) :
  Forall nonneg wp → ∀ (L : list npfloat) i w l,
  Forall logval L →
  wp !! i = Some w → Np.is_zero w = false → L !! i = Some (Fin l) →
  0 < integral wp L.
Proof.
  unfold integral.
  induction 1 as [|a wp Ha Hwp IH]; intros [|b L] i w l HL Hw Hz Hl;
    try done.
  apply Forall_cons in HL as [Hb HL].
  assert (Hrest : 0 <= sumR valR (zip_with Np.mul wp (map Np.exp L))).
  { clear -Hwp HL. revert L HL.
    induction Hwp as [|a wp Ha _ IH]; intros [|b L] HL; simpl; try lra.
    apply Forall_cons in HL as [Hb HL]. specialize (IH L HL).
    destruct a as [| | |r]; try done.
    destruct b as [| | |x]; try done; simpl in *; [lra|].
    pose proof (exp_pos x). nra. }
  assert (Hhead : 0 <= valR (Np.mul a (Np.exp b))).
  { destruct a as [| | |r]; try done.
    destruct b as [| | |x]; try done; simpl in *; [lra|].
    pose proof (exp_pos x). nra. }
  cbn [map zip_with sumR foldr].
  fold (sumR valR (zip_with Np.mul wp (map Np.exp L))).
  destruct i as [|i]; simpl in Hw, Hl.
  - injection Hw as ->. injection Hl as ->.
    destruct w as [| | |r]; try done. simpl in Hz, Ha.
    destruct (Req_dec_T r 0) as [|Hr]; [done|].
    simpl. pose proof (exp_pos l). nra.
  - specialize (IH L i w l HL Hw Hz Hl). unfold integral in IH. lra.
Qed.

(** X7. The linear-domain update agrees with the log-domain one when the
    largest log-likelihood is finite and belongs to a particle of nonzero
    weight: for nonnegative weights and one log-likelihood per weight,
    [_weight_update_prime] and [_weight_update] then return the same
    vector.  The term of that particle is its weight itself, so the sum
    that [_weight_update_prime] divides by is not zero. *)
Theorem weight_update_prime_agrees (LogLt weight_predictions : list npfloat)
  (m : R) (i : nat) (w : npfloat) :
  Forall nonneg weight_predictions →
  np_max LogLt = Ok (Fin m) →
  length LogLt = length weight_predictions →
  LogLt !! i = Some (Fin m) →
  weight_predictions !! i = Some w → Np.is_zero w = false →
  _weight_update_prime LogLt weight_predictions
  = _weight_update LogLt weight_predictions.
Proof.
  intros Hnn Hmax Hlen Hi Hw Hz.
  apply (weight_update_prime_exact LogLt weight_predictions m);
    try done.
  destruct (np_max_Fin LogLt m Hmax) as [HL _].
  pose proof (integral_pos_at weight_predictions Hnn LogLt i w m HL Hw Hz Hi).
  lra.
Qed.

Lemma weight_update_prime_agrees_witness :
  _weight_update_prime [Fin 0; NInf] [Fin 1; Fin 1]
  = _weight_update [Fin 0; NInf] [Fin 1; Fin 1].
Proof.
  apply (weight_update_prime_agrees [Fin 0; NInf] [Fin 1; Fin 1] 0 0 (Fin 1)).
  - repeat constructor; simpl; lra.
  - reflexivity.
  - reflexivity.
  - reflexivity.
  - reflexivity.
  - simpl. by Rdec.
Defined.

End WeightUpdateMore.

(** ** The two existence updates *)

Section ExistenceMore.
Local Open Scope R_scope.

Lemma existence_update_refines_witness :
  ∃ q, _update_existance_prob [Fin 1; Fin 0] [Fin 0; NInf] (Fin (1 / 2)) = Ok q
       ∧ _update_existance_prob_linear_domain [Fin 1; Fin 0] [Fin 0; NInf]
           (Fin (1 / 2)) = Ok q.
Proof.
  destruct (existence_update_refines [Fin 1; Fin 0] [Fin 0; NInf] (1 / 2)
              (1 * exp 0 + (0 * 0 + 0))) as [Hlog Hlin].
  - repeat constructor; simpl; lra.
  - reflexivity.
  - lra.
  - reflexivity.
  - rewrite exp_0. lra.
  - eexists. split; [exact Hlog|exact Hlin].
Defined.

(** X9. A predicted existence probability of exactly 1 is returned
    unchanged, whatever the evidence. *)
Theorem existence_update_certain (weight_predictions LogRatio : list npfloat) :
  Forall nonneg weight_predictions →
  Exists (λ v, Np.is_zero v = false) weight_predictions →
  finite_on_support LogRatio weight_predictions →
  _update_existance_prob weight_predictions LogRatio (Fin 1) = Ok (Fin 1).
Proof.
  intros Hnn Hex Hfin.
  assert (Hlv : ∀ i a, weight_predictions !! i = Some a →
                       Np.is_zero a = false →
                       ∃ l, LogRatio !! i = Some l ∧ logval l).
  { intros i a Hi Hz. destruct (Hfin i a Hi Hz) as [l Hl]. by exists (Fin l). }
  assert (Hone : ∃ i a l, weight_predictions !! i = Some a
                          ∧ Np.is_zero a = false
                          ∧ LogRatio !! i = Some (Fin l)).
  { apply Exists_exists in Hex as (a & Hin & Hz).
    apply list_elem_of_lookup in Hin as [i Hi].
    destruct (Hfin i a Hi Hz) as [l Hl]. by exists i, a, l. }
  destruct (update_existance_prob_value weight_predictions LogRatio 1
              Hnn Hlv Hone) as (Hq & _); [lra|].
  pose proof (I_pos weight_predictions LogRatio Hnn Hlv Hone) as HI.
  rewrite Hq. do 2 f_equal. field. lra.
Qed.

Lemma existence_update_certain_witness :
  _update_existance_prob [Fin 1; Fin 0] [Fin 0; NInf] (Fin 1) = Ok (Fin 1).
Proof.
  apply existence_update_certain.
  - repeat constructor; simpl; lra.
  - left. simpl. Rdec.
  - intros [|[|i]] a Hi Hz; simpl in Hi; try done.
    + by exists 0.
    + injection Hi as <-. simpl in Hz. Rdec.
Defined.

Lemma mul_PInf_not_finite a : ¬ finite (Np.mul a PInf).
Proof.
  destruct a as [| | |r]; simpl; try tauto. unfold Np.inf_times.
  destruct (Rlt_dec 0 r); [tauto|]. destruct (Rlt_dec r 0); tauto.
Qed.

Lemma sum_not_finite x v :
  v ∈ x → ¬ finite v → Np.isfinite (Np.sum x) = false.
Proof.
  intros Hin Hv. destruct (Np.sum x) as [| | |s] eqn:Hs; try done.
  apply sum_Fin_inv in Hs. rewrite Forall_forall in Hs.
  exfalso. apply Hv. by apply Hs.
Qed.

(** X10. A log-ratio of plus infinity at a particle of nonzero weight: the
    direct formula falls back to exactly 1, while the log-domain update,
    the one [__call__] uses, returns NaN. *)
Theorem existence_update_infinite_ratio
  (weight_predictions LogRatio : list npfloat) (p : R) (i : nat) (a : npfloat) :
  Forall nonneg weight_predictions →
  length LogRatio = length weight_predictions →
  weight_predictions !! i = Some a → Np.is_zero a = false →
  LogRatio !! i = Some PInf →
  _update_existance_prob_linear_domain weight_predictions LogRatio (Fin p)
  = Ok (Fin 1)
  ∧ _update_existance_prob weight_predictions LogRatio (Fin p) = Ok NaN.
Proof.
  intros Hnn Hlen Hi Hz HL. split.
  - unfold _update_existance_prob_linear_domain.
    rewrite length_map, Hlen, Nat.eqb_refl. cbn [negb andb].
    rewrite broadcast_same_length by by rewrite length_map.
    rewrite (sum_not_finite _ (Np.mul a PInf)); [done| |apply mul_PInf_not_finite].
    apply list_elem_of_lookup. exists i.
    by rewrite lookup_zip_with, Hi, list_lookup_fmap, HL.
  - set (wp := weight_predictions) in *. set (L := LogRatio) in *.
    assert (HcL : ∀ j v, wp !! j = Some v → Np.is_zero v = false →
                         (j < length L)%nat).
    { intros j v Hj _. rewrite Hlen. by eapply lookup_lt_Some. }
    rewrite Forall_lookup in Hnn. pose proof (Hnn i a Hi) as Ha.
    destruct (nonneg_nonzero_log a Ha Hz) as (r & -> & Hpos & Hlog).
    set (X := zip_with Np.add L (map Np.log wp)).
    assert (Hin : PInf ∈ sel wp X).
    { apply (sel_elem wp X i (Fin r)); try done.
      unfold X. rewrite lookup_zip_with, HL, list_lookup_fmap, Hi.
      cbn -[Np.log]. by rewrite Hlog. }
    assert (Hl1 : _logsumexp (sel wp X) = Ok NaN).
    { pose proof (logsumexp_cases (sel wp X)) as Ho.
      destruct (np_max (sel wp X)) as [[| | |m]|e] eqn:Hmax; try done.
      - apply np_max_Fin in Hmax as [Hall _].
        rewrite Forall_forall in Hall. by specialize (Hall PInf Hin).
      - destruct Ho as [Ho _]. rewrite Ho in Hin. by apply elem_of_nil in Hin. }
    unfold _update_existance_prob. fold wp L.
    rewrite (take_idx_nonzero wp wp) by apply self_cover. cbn [rbind].
    rewrite (take_idx_nonzero wp L) by done. cbn [rbind].
    rewrite <- (sel_map Np.log), <- (sel_zip_with Np.add wp L). fold X.
    rewrite Hl1. cbn [rbind].
    destruct (logsumexp_nonempty
                (Np.log (Np.sub (Fin 1) (Fin p))
                   :: zip_with Np.add
                        (map (λ v, Np.add v (Np.log (Fin p))) (sel wp L))
                        (sel wp (map Np.log wp)))) as [l2 Hl2]; [done|].
    rewrite Hl2. done.
Qed.

Lemma existence_update_infinite_ratio_witness :
  _update_existance_prob_linear_domain [Fin 1] [PInf] (Fin (1 / 2)) = Ok (Fin 1)
  ∧ _update_existance_prob [Fin 1] [PInf] (Fin (1 / 2)) = Ok NaN.
Proof.
  apply (existence_update_infinite_ratio [Fin 1] [PInf] (1 / 2) 0 (Fin 1)).
  - repeat constructor; simpl; lra.
  - reflexivity.
  - reflexivity.
  - simpl. Rdec.
  - reflexivity.
Defined.

End ExistenceMore.

(** ** The systematic resampler, continued *)

Section ResamplerMore.
Context {G : Type} `{GL : GeneratorLaws G}.
Local Open Scope R_scope.

Lemma sysresample_loop_sorted N positions cumsum : ∀ fuel indices i j out,
  sysresample_loop fuel N positions cumsum indices i j = Ok out →
  length indices = N → (i ≤ N)%nat →
  (∀ k a, (k < i)%nat → indices !! k = Some a → (a ≤ j)%nat) →
  (∀ k1 k2 a b, (k1 ≤ k2)%nat → (k2 < i)%nat →
     indices !! k1 = Some a → indices !! k2 = Some b → (a ≤ b)%nat) →
  nondecreasing out.
Proof.
  induction fuel as [|fuel IH]; intros indices i j out Hout Hlen Hi Hle Hs;
    [done|].
  simpl in Hout. destruct (i <? N)%nat eqn:Ei.
  2:{ injection Hout as <-. apply Nat.ltb_ge in Ei.
      intros k1 k2 a b Hk Ha Hb. apply (Hs k1 k2 a b Hk); try done.
      apply lookup_lt_Some in Hb. lia. }
  apply Nat.ltb_lt in Ei.
  destruct (index positions i) as [p|]; simpl in Hout; [|done].
  destruct (index cumsum j) as [c|]; simpl in Hout; [|done].
  destruct (Np.lt p c).
  - destruct (setitem indices i j) as [ind'|] eqn:Es; simpl in Hout; [|done].
    apply setitem_Ok in Es as [-> Hlt].
    apply (IH _ _ _ _ Hout); [by rewrite length_insert|lia| |].
    + intros k a Hk Ha. destruct (decide (k = i)) as [->|Hne].
      * rewrite list_lookup_insert_eq in Ha by done. injection Ha as <-. lia.
      * rewrite list_lookup_insert_ne in Ha by done.
        apply (Hle k a); [lia|done].
    + intros k1 k2 a b Hk Hk2 Ha Hb.
      destruct (decide (k2 = i)) as [->|Hne2].
      * rewrite list_lookup_insert_eq in Hb by done. injection Hb as <-.
        destruct (decide (k1 = i)) as [->|Hne1].
        -- rewrite list_lookup_insert_eq in Ha by done. injection Ha as <-. lia.
        -- rewrite list_lookup_insert_ne in Ha by done.
           apply (Hle k1 a); [lia|done].
      * rewrite list_lookup_insert_ne in Hb by done.
        rewrite list_lookup_insert_ne in Ha by lia.
        apply (Hs k1 k2 a b); [done|lia|done|done].
  - apply (IH _ _ _ _ Hout); [done|done| |done].
    intros k a Hk Ha. specialize (Hle k a Hk Ha). lia.
Qed.

Lemma nondecreasing_short idx : (length idx ≤ 1)%nat → nondecreasing idx.
Proof.
  intros Hlen i j a b Hij Ha Hb.
  apply lookup_lt_Some in Ha as Hi. apply lookup_lt_Some in Hb as Hj.
  assert (i = j) as -> by lia. rewrite Ha in Hb. injection Hb as <-. lia.
Qed.

Lemma sysresample_sorted (weights : list npfloat) (Nsuv : Z)
  (rng : loc) (σ σ' : loc → G) (idx : list nat) :
  existsb Np.isnan weights = false →
  _sysresample weights Nsuv rng σ = (Ok idx, σ') →
  nondecreasing idx.
Proof.
  intros Hnan Hrun. unfold _sysresample in Hrun. rewrite Hnan in Hrun.
  apply mbind_Ok in Hrun as (u & σ1 & _ & Hrun).
  apply mbind_Ok in Hrun as (ind & σ2 & [Hind _]%lift_Ok & Hrun).
  apply lift_Ok in Hrun as [Hloop _].
  unfold np_zeros_int in Hind. destruct (_ <? 0)%Z; [done|].
  injection Hind as <-.
  apply (sysresample_loop_sorted _ _ _ _ _ _ _ _ Hloop).
  - by rewrite length_replicate.
  - lia.
  - intros k a Hk. lia.
  - intros k1 k2 a b _ Hk. lia.
Qed.

(** X12. Without a NaN among the weights, the indices returned are
    non-decreasing. *)
Theorem sysresample_nondecreasing (weights : list npfloat) (Nsuv : Z)
  (rng : loc) (σ σ' : loc → G) (idx : list nat) :
  existsb Np.isnan weights = false →
  _sysresample weights Nsuv rng σ = (Ok idx, σ') →
  nondecreasing idx.
Proof. exact (sysresample_sorted weights Nsuv rng σ σ' idx). Qed.

End ResamplerMore.

Section ResamplerMoreExamples.
Local Open Scope R_scope.

Lemma sysresample_nondecreasing_witness :
  ∃ idx σ',
    _sysresample [Fin (1 / 2); Fin (1 / 2)] 2 default_rng test_store
    = (Ok idx, σ')
    ∧ nondecreasing idx.
Proof.
  destruct (sysresample_normalised [Fin (1 / 2); Fin (1 / 2)] 2 default_rng
              test_store) as (idx & Hrun & _).
  - by repeat constructor.
  - simpl. lra.
  - lia.
  - exists idx. eexists. split; [exact Hrun|].
    by apply (sysresample_nondecreasing [Fin (1 / 2); Fin (1 / 2)] 2
                default_rng test_store _ idx eq_refl Hrun).
Defined.

End ResamplerMoreExamples.

Section ResamplerSelection.
Context {G : Type} `{GL : GeneratorLaws G}.
Local Open Scope R_scope.

Lemma lt_Fin p c : Np.lt (Fin p) (Fin c) = true ↔ p < c.
Proof. simpl. destruct (Rlt_dec p c); split; try done; lra. Qed.

Lemma index_map_Fin (xs : list R) i v :
  index (map Fin xs) i = Ok v → ∃ x, xs !! i = Some x ∧ v = Fin x.
Proof.
  unfold index. rewrite list_lookup_fmap.
  destruct (xs !! i) as [x|]; simpl; [|done]. intros [= <-]. by exists x.
Qed.

Lemma sysresample_loop_bracket N (ps cs : list R) :
  (∀ k1 k2 p1 p2, (k1 ≤ k2)%nat → ps !! k1 = Some p1 → ps !! k2 = Some p2 →
                  p1 <= p2) →
  ∀ fuel indices i j out,
    sysresample_loop fuel N (map Fin ps) (map Fin cs) indices i j = Ok out →
    length indices = N → (i ≤ N)%nat →
    (∀ t k c p, (t < j)%nat → (i ≤ k)%nat → cs !! t = Some c →
                ps !! k = Some p → c <= p) →
    (∀ k a, (k < i)%nat → indices !! k = Some a → brackets ps cs k a) →
    ∀ k a, out !! k = Some a → brackets ps cs k a.
Proof.
  intros Hmono.
  induction fuel as [|fuel IH]; intros indices i j out Hout Hlen Hi H2 H1;
    [done|].
  simpl in Hout. destruct (i <? N)%nat eqn:Ei.
  2:{ injection Hout as <-. apply Nat.ltb_ge in Ei.
      intros k a Ha. apply H1; [|done]. apply lookup_lt_Some in Ha. lia. }
  apply Nat.ltb_lt in Ei.
  destruct (index (map Fin ps) i) as [p|] eqn:Ep; simpl in Hout; [|done].
  destruct (index (map Fin cs) j) as [c|] eqn:Ec; simpl in Hout; [|done].
  apply index_map_Fin in Ep as (p' & Hp & ->).
  apply index_map_Fin in Ec as (c' & Hc & ->).
  destruct (Np.lt (Fin p') (Fin c')) eqn:Elt.
  - apply lt_Fin in Elt.
    destruct (setitem indices i j) as [ind'|] eqn:Es; simpl in Hout; [|done].
    apply setitem_Ok in Es as [-> Hlt].
    apply (IH _ _ _ _ Hout); [by rewrite length_insert|lia| |].
    + intros t k c p Ht Hk. apply H2; [done|lia].
    + intros k a Hk Ha. destruct (decide (k = i)) as [->|Hne].
      * rewrite list_lookup_insert_eq in Ha by done. injection Ha as <-.
        exists p', c'. repeat split; try done.
        intros t c2 Ht Hc2. by apply (H2 t i c2 p').
      * rewrite list_lookup_insert_ne in Ha by done. apply H1; [lia|done].
  - assert (c' <= p') as Hle.
    { destruct (Rlt_dec p' c') as [Hlt|Hge]; [|lra].
      apply lt_Fin in Hlt. congruence. }
    apply (IH _ _ _ _ Hout); [done|done| |done].
    intros t k c p Ht Hk Hct Hpk.
    destruct (decide (t = j)) as [->|Hne].
    + rewrite Hc in Hct. injection Hct as <-.
      pose proof (Hmono i k p' p Hk Hp Hpk). lra.
    + apply (H2 t k c p); [lia|done|done|done].
Qed.

Lemma cumsum_from_real (w : list npfloat) :
  Forall nonneg w → ∀ acc,
  ∃ cs, Np.cumsum_from (Fin acc) w = map Fin cs
        ∧ (∀ c, c ∈ cs → c <= acc + sumR valR w)
        ∧ (∀ c, cs !! 0%nat = Some c →
                ∃ v, w !! 0%nat = Some (Fin v) ∧ c = acc + v)
        ∧ (∀ t c, cs !! S t = Some c →
             ∃ c' v, cs !! t = Some c' ∧ w !! S t = Some (Fin v) ∧ c = c' + v).
Proof.
  induction 1 as [|a w Ha Hw IH]; intros acc.
  - exists []. repeat split; try done. intros c Hc. by apply elem_of_nil in Hc.
  - destruct a as [| | |r]; try done. simpl in Ha.
    destruct (IH (acc + r)) as (cs & Hcs & Hb & H0 & Hs).
    pose proof (sumR_valR_nonneg w Hw) as Hnn.
    exists ((acc + r) :: cs). simpl. rewrite Hcs. split; [done|].
    split; [|split].
    + intros c [->|Hin]%elem_of_cons; [lra|]. specialize (Hb c Hin). lra.
    + intros c [= <-]. by exists r.
    + intros [|t] c Hc; simpl in Hc.
      * destruct (H0 c Hc) as (v & Hv & ->). by exists (acc + r), v.
      * by apply Hs.
Qed.

Lemma cumsum_real (w : list npfloat) :
  Forall nonneg w →
  ∃ cs, Np.cumsum w = map Fin cs
        ∧ (∀ c, c ∈ cs → c <= sumR valR w)
        ∧ (∀ c, cs !! 0%nat = Some c → w !! 0%nat = Some (Fin c))
        ∧ (∀ t c, cs !! S t = Some c →
             ∃ c' v, cs !! t = Some c' ∧ w !! S t = Some (Fin v) ∧ c = c' + v).
Proof.
  intros Hall. destruct w as [|a w].
  - exists []. repeat split; try done. intros c Hc. by apply elem_of_nil in Hc.
  - apply Forall_cons in Hall as [Ha Hw].
    destruct a as [| | |r]; try done. simpl in Ha.
    destruct (cumsum_from_real w Hw r) as (cs & Hcs & Hb & H0 & Hs).
    exists (r :: cs). simpl. rewrite Hcs. split; [done|].
    pose proof (sumR_valR_nonneg w Hw) as Hnn.
    split; [|split].
    + intros c [->|Hin]%elem_of_cons; [lra|]. by apply Hb.
    + by intros c [= <-].
    + intros [|t] c Hc; simpl in Hc.
      * destruct (H0 c Hc) as (v & Hv & ->). by exists r, v.
      * by apply Hs.
Qed.

Lemma positions_real (u : R) (N : Z) :
  (0 < N)%Z →
  map (λ k : nat, Np.div (Np.add (Fin u) (Fin (INR k))) (Fin (IZR N)))
    (seq 0 (Z.to_nat N))
  = map Fin (map (λ k : nat, (u + INR k) / IZR N) (seq 0 (Z.to_nat N))).
Proof.
  intros HN. rewrite map_map. apply map_ext. intros k. simpl.
  destruct (Req_dec_T (IZR N) 0) as [E|_]; [|done].
  apply (eq_IZR N 0) in E. lia.
Qed.

Lemma positions_lookup (u : R) (N : Z) k p :
  map (λ k : nat, (u + INR k) / IZR N) (seq 0 (Z.to_nat N)) !! k = Some p →
  p = (u + INR k) / IZR N ∧ (k < Z.to_nat N)%nat.
Proof.
  rewrite list_lookup_fmap. intros Hk.
  destruct (seq 0 (Z.to_nat N) !! k) as [k'|] eqn:Es; [|done].
  apply lookup_seq in Es as [-> Hlt]. simpl in Hk. by injection Hk as <-.
Qed.

Lemma positions_mono (u : R) (N : Z) k1 k2 p1 p2 :
  (0 < N)%Z → (k1 ≤ k2)%nat →
  map (λ k : nat, (u + INR k) / IZR N) (seq 0 (Z.to_nat N)) !! k1 = Some p1 →
  map (λ k : nat, (u + INR k) / IZR N) (seq 0 (Z.to_nat N)) !! k2 = Some p2 →
  p1 <= p2.
Proof.
  intros HN Hk [-> _]%positions_lookup [-> _]%positions_lookup.
  assert (0 < IZR N) by by apply (IZR_lt 0).
  apply Rmult_le_compat_r; [left; by apply Rinv_0_lt_compat|].
  apply le_INR in Hk. lra.
Qed.

Lemma sysresample_inverts_cumsum (weights : list npfloat) (Nsuv : Z)
  (rng : loc)
  (σ σ' : loc → G) (idx : list nat) :
  Forall nonneg weights →
  _sysresample weights Nsuv rng σ = (Ok idx, σ') →
  ∀ k a, idx !! k = Some a →
    let p := ((gen_random (σ rng)).1 + INR k)
             / IZR (Z.min (Z.of_nat (length weights)) Nsuv) in
    ∃ c w,
      Np.cumsum weights !! a = Some (Fin c) ∧ p < c
      ∧ (∀ t c', (t < a)%nat → Np.cumsum weights !! t = Some (Fin c') →
                 c' <= p)
      ∧ weights !! a = Some (Fin w) ∧ 0 < w.
Proof.
  intros Hnn Hrun k a Hka p.
  assert (Hfin : Forall finite weights).
  { eapply Forall_impl; [exact Hnn|]. apply nonneg_finite. }
  pose proof (sysresample_length _ _ _ _ _ _ Hrun) as [HN0 Hlen].
  unfold _sysresample in Hrun. rewrite existsb_isnan_finite in Hrun by done.
  set (N := Z.min (Z.of_nat (length weights)) Nsuv) in *.
  pose proof (gen_random_range (σ rng)) as Hu.
  unfold mbind', rng_random in Hrun.
  destruct (gen_random (σ rng)) as [u g]. simpl in Hu. simpl in p.
  unfold lift, np_zeros_int in Hrun.
  assert ((N <? 0)%Z = false) as HNb by by apply Z.ltb_ge.
  rewrite HNb in Hrun.
  assert (HNpos : (0 < N)%Z).
  { apply lookup_lt_Some in Hka. lia. }
  rewrite positions_real in Hrun by done.
  destruct (cumsum_real weights Hnn) as (cs & Hcs & Hb & H0 & Hs).
  rewrite Hcs in Hrun.
  apply (f_equal fst) in Hrun. cbn [fst] in Hrun.
  set (ps := map (λ k : nat, (u + INR k) / IZR N) (seq 0 (Z.to_nat N))) in *.
  destruct (sysresample_loop_bracket (Z.to_nat N) ps cs) with
    (fuel := S (Z.to_nat N + length weights))
    (indices := replicate (Z.to_nat N) 0%nat) (i := 0%nat) (j := 0%nat)
    (out := idx) (k := k) (a := a)
    as (p' & c & Hp & Hc & Hlt & Hprev); try done.
  - intros k1 k2 p1 p2. by apply positions_mono.
  - by rewrite length_replicate.
  - lia.
  - intros t k' c p0 Ht. lia.
  - intros k' a' Hk'. lia.
  - apply positions_lookup in Hp as [-> Hk]. fold p in Hlt, Hprev.
    assert (0 <= p) as Hp0.
    { unfold p. apply Rmult_le_pos.
      - pose proof (pos_INR k). lra.
      - left. apply Rinv_0_lt_compat. by apply (IZR_lt 0). }
    assert (Hlk : ∀ t c', Np.cumsum weights !! t = Some (Fin c') →
                          cs !! t = Some c').
    { intros t c' Ht. rewrite Hcs, list_lookup_fmap in Ht.
      destruct (cs !! t); [|done]. by injection Ht as ->. }
    destruct a as [|t].
    + exists c, c. split; [by rewrite Hcs, list_lookup_fmap, Hc|].
      split; [done|]. split; [intros t c' Ht; lia|].
      split; [by apply H0|lra].
    + destruct (Hs t c Hc) as (c' & v & Hc' & Hv & ->).
      exists (c' + v), v. split; [by rewrite Hcs, list_lookup_fmap, Hc|].
      split; [done|]. split.
      { intros t' c2 Ht' Hc2. apply (Hprev t' c2 Ht'). by apply Hlk. }
      split; [done|].
      assert (c' <= p) by (apply (Hprev t c'); [lia|done]). lra.
Qed.

(** X13. Inverse of the cumulative weights. For finite nonnegative weights,
    each returned index [idx[k]] is the one whose step of the cumulative
    sums holds the position [(u + k)/N]: the position is below
    [cumsum[idx[k]]] and not below any earlier cumulative sum.  The
    particle selected has a positive weight: a particle of weight zero
    is never selected. *)
Theorem sysresample_selects (weights : list npfloat) (Nsuv : Z) (rng : loc)
  (σ σ' : loc → G) (idx : list nat) :
  Forall nonneg weights →
  _sysresample weights Nsuv rng σ = (Ok idx, σ') →
  ∀ k a, idx !! k = Some a →
    let p := ((gen_random (σ rng)).1 + INR k)
             / IZR (Z.min (Z.of_nat (length weights)) Nsuv) in
    ∃ c w,
      Np.cumsum weights !! a = Some (Fin c) ∧ p < c
      ∧ (∀ t c', (t < a)%nat → Np.cumsum weights !! t = Some (Fin c') →
                 c' <= p)
      ∧ weights !! a = Some (Fin w) ∧ 0 < w.
Proof. exact (sysresample_inverts_cumsum weights Nsuv rng σ σ' idx). Qed.

End ResamplerSelection.

Section ResamplerOutcome.
Context {G : Type} `{GL : GeneratorLaws G}.
Local Open Scope R_scope.

Lemma sysresample_loop_raise N positions cumsum : ∀ fuel indices i j e,
  sysresample_loop fuel N positions cumsum indices i j = Raise e →
  e = IndexError ∨ e = FuelExhausted.
Proof.
  induction fuel as [|fuel IH]; intros indices i j e He; simpl in He.
  - injection He as <-. by right.
  - destruct (i <? N)%nat; [|done].
    unfold index in He.
    destruct (positions !! i) as [p|]; simpl in He;
      [|injection He as <-; by left].
    destruct (cumsum !! j) as [c|]; simpl in He;
      [|injection He as <-; by left].
    destruct (Np.lt p c); [|by eapply IH].
    unfold setitem in He. destruct (i <? length indices)%nat; simpl in He;
      [by eapply IH|injection He as <-; by left].
Qed.

(** A position that no cumulative sum exceeds stops the loop: it cannot
    return. *)
Lemma sysresample_loop_overrun N (ps cs : list R) (k0 : nat) (p0 : R) :
  ps !! k0 = Some p0 → (k0 < N)%nat →
  (∀ c, c ∈ cs → c <= p0) →
  ∀ fuel indices i j out, (i ≤ k0)%nat →
    sysresample_loop fuel N (map Fin ps) (map Fin cs) indices i j ≠ Ok out.
Proof.
  intros Hp0 Hk0 Hb.
  induction fuel as [|fuel IH]; intros indices i j out Hi; simpl; [done|].
  assert ((i <? N)%nat = true) as -> by (apply Nat.ltb_lt; lia).
  destruct (index (map Fin ps) i) as [p|] eqn:Ep; simpl; [|done].
  destruct (index (map Fin cs) j) as [c|] eqn:Ec; simpl; [|done].
  apply index_map_Fin in Ep as (p' & Hp & ->).
  apply index_map_Fin in Ec as (c' & Hc & ->).
  destruct (Np.lt (Fin p') (Fin c')) eqn:Elt; [|by apply IH].
  apply lt_Fin in Elt.
  assert (i ≠ k0) as Hne.
  { intros ->. rewrite Hp0 in Hp. injection Hp as <-.
    assert (c' <= p0); [|lra]. apply Hb. by eapply list_elem_of_lookup_2. }
  destruct (setitem indices i j); simpl; [|done]. apply IH. lia.
Qed.

(** In exact arithmetic, for finite nonnegative weights and a requested
    count of at least one, the loop ends exactly when the last position
    [(u + N - 1)/N] is below the sum of the weights. *)
Lemma sysresample_returns_iff (weights : list npfloat) (Nsuv : Z)
  (rng : loc) (σ : loc → G) :
  Forall nonneg weights → weights ≠ [] → (1 ≤ Nsuv)%Z →
  let N := Z.min (Z.of_nat (length weights)) Nsuv in
  let last := ((gen_random (σ rng)).1 + (IZR N - 1)) / IZR N in
  (last < sumR valR weights →
     ∃ idx, (_sysresample weights Nsuv rng σ).1 = Ok idx
            ∧ length idx = Z.to_nat N
            ∧ Forall (λ i, i < length weights)%nat idx)
  ∧ (sumR valR weights <= last →
     (_sysresample weights Nsuv rng σ).1 = Raise IndexError).
Proof.
  intros Hnn Hne HNs N last.
  assert (Hfin : Forall finite weights).
  { eapply Forall_impl; [exact Hnn|]. apply nonneg_finite. }
  assert (HN : (1 ≤ N)%Z).
  { unfold N. destruct weights; [done|]. simpl length. lia. }
  assert (HNR : INR (Z.to_nat N) = IZR N) by by rewrite INR_IZR_INZ, Z2Nat.id by lia.
  assert (HNpos : 0 < IZR N) by (apply (IZR_lt 0); lia).
  pose proof (sysresample_total weights Nsuv rng σ) as Htotal.
  unfold _sysresample in *. fold N in Htotal |- *.
  rewrite existsb_isnan_finite in * by done.
  unfold mbind', rng_random in *. subst last.
  destruct (gen_random (σ rng)) as [u g]. cbn [fst] in *.
  unfold lift, np_zeros_int in *.
  assert ((N <? 0)%Z = false) as HNb by (apply Z.ltb_ge; lia).
  rewrite HNb in *. cbn [fst] in *.
  rewrite positions_real in * by lia.
  set (ps := map (λ k : nat, (u + INR k) / IZR N) (seq 0 (Z.to_nat N))) in *.
  assert (Hlast : ps !! (Z.to_nat N - 1)%nat = Some ((u + (IZR N - 1)) / IZR N)).
  { unfold ps. rewrite list_lookup_fmap, lookup_seq_lt by lia. simpl.
    do 2 f_equal. rewrite minus_INR by lia. rewrite HNR. simpl. lra. }
  split.
  - intros Hlt.
    destruct (sysresample_loop_in_range (Z.to_nat N) (map Fin ps)
                (Np.cumsum weights) (Fin (sumR valR weights))) with
      (fuel := S (Z.to_nat N + length weights))
      (indices := replicate (Z.to_nat N) 0%nat) (i := 0%nat) (j := 0%nat)
      as (out & Hout & Hlen & Hall).
    + unfold ps. by rewrite !length_map, length_seq.
    + by rewrite length_cumsum, cumsum_last.
    + apply Forall_map, Forall_lookup. intros k p Hp.
      apply lt_Fin.
      assert (p <= (u + (IZR N - 1)) / IZR N); [|lra].
      apply (positions_mono u N k (Z.to_nat N - 1) p _); try done; [lia|].
      apply positions_lookup in Hp as [_ Hk]. lia.
    + rewrite length_cumsum. lia.
    + lia.
    + by rewrite length_replicate.
    + rewrite length_cumsum. apply Forall_replicate.
      destruct weights; [done|simpl; lia].
    + exists out. rewrite length_cumsum in Hall. by rewrite Hout.
  - intros Hge.
    destruct (cumsum_real weights Hnn) as (cs & Hcs & Hb & _).
    rewrite Hcs in *.
    destruct (sysresample_loop (S (Z.to_nat N + length weights)) (Z.to_nat N)
                (map Fin ps) (map Fin cs) (replicate (Z.to_nat N) 0%nat) 0 0)
      as [out|e] eqn:Hloop.
    + exfalso. revert Hloop.
      apply (sysresample_loop_overrun (Z.to_nat N) ps cs (Z.to_nat N - 1)
               ((u + (IZR N - 1)) / IZR N)); [done|lia| |lia].
      intros c Hc. specialize (Hb c Hc). lra.
    + apply sysresample_loop_raise in Hloop as [->| ->]; [done|].
      by exfalso.
Qed.

(** X15. A negative count makes [_sysresample] raise ValueError, with or
    without a NaN among the weights; a count of zero, or an empty weight
    vector with a nonnegative count, gives the empty index array. *)
Theorem sysresample_degenerate_counts (weights : list npfloat) (Nsuv : Z)
  (rng : loc) (σ : loc → G) :
  ((Nsuv < 0)%Z → (_sysresample weights Nsuv rng σ).1 = Raise ValueError)
  ∧ ((0 ≤ Nsuv)%Z → Nsuv = 0%Z ∨ weights = [] →
     (_sysresample weights Nsuv rng σ).1 = Ok []).
Proof.
  unfold _sysresample. set (N := Z.min _ _). split.
  - intros Hneg. assert ((N <? 0)%Z = true) as HN by (apply Z.ltb_lt; lia).
    destruct (existsb Np.isnan weights).
    + unfold rng_choice. by rewrite HN.
    + unfold mbind', rng_random. destruct (gen_random (σ rng)) as [u g].
      unfold lift, np_zeros_int. by rewrite HN.
  - intros Hpos Hz.
    assert (N = 0%Z) as -> by (destruct Hz as [->| ->]; simpl in *; lia).
    destruct (existsb Np.isnan weights).
    + unfold rng_choice. simpl. rewrite andb_false_r.
      pose proof (gen_choice_length (length weights) 0 (σ rng)) as Hl.
      destruct (gen_choice _ _ _) as [idx g]. simpl in *.
      by destruct idx.
    + unfold mbind', rng_random. by destruct (gen_random (σ rng)) as [u g].
Qed.

Lemma sysresample_loop_range N positions cumsum :
  ∀ fuel indices i j out,
    sysresample_loop fuel N positions cumsum indices i j = Ok out →
    Forall (λ e, e < length cumsum)%nat indices →
    Forall (λ e, e < length cumsum)%nat out.
Proof.
  induction fuel as [|fuel IH]; intros indices i j out Hout Hall;
    simpl in Hout; [done|].
  destruct (i <? N)%nat; [|by injection Hout as <-].
  unfold index in Hout.
  destruct (positions !! i) as [p|]; simpl in Hout; [|done].
  destruct (cumsum !! j) as [c|] eqn:Ec; simpl in Hout; [|done].
  destruct (Np.lt p c); [|by eapply IH].
  unfold setitem in Hout.
  destruct (i <? length indices)%nat; simpl in Hout; [|done].
  eapply IH; [exact Hout|]. apply Forall_insert; [done|].
  by apply lookup_lt_Some in Ec.
Qed.

(** X11. What the resampler returns. Without a NaN among the weights, a
    returned index array has [min(len(weights), Nsuv)] entries, each of
    them the index of a weight, and the generator has been advanced by
    exactly one [random()]; a result is returned only for a nonnegative
    [Nsuv]. *)
Theorem sysresample_returned_shape (weights : list npfloat) (Nsuv : Z)
  (rng : loc) (σ σ' : loc → G) (idx : list nat) :
  existsb Np.isnan weights = false →
  _sysresample weights Nsuv rng σ = (Ok idx, σ') →
  (0 ≤ Nsuv)%Z
  ∧ length idx = Nat.min (length weights) (Z.to_nat Nsuv)
  ∧ Forall (λ i, i < length weights)%nat idx
  ∧ σ' = <[rng:=(gen_random (σ rng)).2]> σ.
Proof.
  intros Hnan Hrun.
  destruct (sysresample_length weights Nsuv rng σ σ' idx Hrun) as [HN Hlen].
  revert Hrun. unfold _sysresample. rewrite Hnan.
  set (N := Z.min _ _) in *.
  unfold mbind', rng_random. destruct (gen_random (σ rng)) as [u g].
  unfold lift, np_zeros_int.
  destruct (N <? 0)%Z eqn:EN; [done|]. cbn [snd].
  intros Hrun.
  assert (Hσ : σ' = <[rng:=g]> σ).
  { apply (f_equal snd) in Hrun. cbv beta iota in Hrun. by cbn [snd] in Hrun. }
  apply (f_equal fst) in Hrun. cbv beta iota in Hrun. cbn [fst] in Hrun.
  split; [lia|]. split; [rewrite Hlen; lia|]. split; [|done].
  rewrite <- (length_cumsum weights).
  eapply sysresample_loop_range; [exact Hrun|].
  rewrite length_cumsum. destruct weights as [|a weights].
  - assert (Z.to_nat N = 0%nat) as -> by (subst N; simpl; lia). constructor.
  - apply Forall_replicate. simpl. lia.
Qed.

(** X14. How the resampler fails. Without a NaN among the weights and
    with a nonnegative [Nsuv], the only exception [_sysresample] raises
    is IndexError, from an index that ran past the cumulative sums, and
    it is raised after the generator has been advanced by one
    [random()]. *)
Theorem sysresample_failure (weights : list npfloat) (Nsuv : Z)
  (rng : loc) (σ σ' : loc → G) (e : exn) :
  existsb Np.isnan weights = false → (0 ≤ Nsuv)%Z →
  _sysresample weights Nsuv rng σ = (Raise e, σ') →
  e = IndexError ∧ σ' = <[rng:=(gen_random (σ rng)).2]> σ.
Proof.
  intros Hnan HN Hrun.
  pose proof (sysresample_total weights Nsuv rng σ) as Hfuel.
  rewrite Hrun in Hfuel. cbn [fst] in Hfuel.
  revert Hrun. unfold _sysresample. rewrite Hnan.
  set (N := Z.min _ _) in *.
  unfold mbind', rng_random. destruct (gen_random (σ rng)) as [u g].
  unfold lift, np_zeros_int.
  destruct (Z.ltb_spec N 0) as [Hneg|_]; [subst N; lia|]. cbn [snd].
  intros Hrun.
  assert (Hσ : σ' = <[rng:=g]> σ).
  { apply (f_equal snd) in Hrun. cbv beta iota in Hrun. by cbn [snd] in Hrun. }
  apply (f_equal fst) in Hrun. cbv beta iota in Hrun. cbn [fst] in Hrun.
  apply sysresample_loop_raise in Hrun as [->| ->]; [done|].
  by destruct Hfuel.
Qed.



End ResamplerOutcome.

Section ResamplerOutcomeExamples.
Local Open Scope R_scope.

Lemma sysresample_selects_witness :
  ∃ a w, [Fin (1 / 2); Fin 0; Fin (1 / 2)] !! a = Some (Fin w) ∧ 0 < w.
Proof.
  destruct (sysresample_normalised [Fin (1 / 2); Fin 0; Fin (1 / 2)] 2
              default_rng test_store) as (idx & Hrun & Hlen & _).
  - by repeat constructor.
  - simpl. lra.
  - lia.
  - destruct (lookup_lt_is_Some_2 idx 0) as [a Ha]; [rewrite Hlen; simpl; lia|].
    assert (Hnn : Forall nonneg [Fin (1 / 2); Fin 0; Fin (1 / 2)])
      by (repeat constructor; simpl; lra).
    destruct (sysresample_selects _ _ _ _ _ _ Hnn Hrun 0%nat a Ha)
      as (c & w & _ & _ & _ & Hw & Hpos).
    by exists a, w.
Defined.

Lemma sysresample_returned_shape_witness :
  ∃ idx σ',
    _sysresample [Fin (1 / 2); Fin (1 / 2)] 2 default_rng test_store
    = (Ok idx, σ')
    ∧ length idx = 2%nat
    ∧ Forall (λ i, i < 2)%nat idx.
Proof.
  destruct (sysresample_normalised [Fin (1 / 2); Fin (1 / 2)] 2 default_rng
              test_store) as (idx & Hrun & _).
  - by repeat constructor.
  - simpl. lra.
  - lia.
  - destruct (sysresample_returned_shape [Fin (1 / 2); Fin (1 / 2)] 2
                default_rng test_store _ idx eq_refl Hrun)
      as (_ & Hlen & Hrange & _).
    exists idx. eexists. split; [exact Hrun|]. by split.
Defined.

Lemma sysresample_overrun_example :
  ∃ σ', _sysresample [Fin (1 / 2); Fin (1 / 4)] 1 default_rng test_store
        = (Raise IndexError, σ').
Proof.
  eexists. unfold _sysresample. simpl existsb. cbv iota.
  unfold mbind', rng_random, lift, np_zeros_int. simpl.
  change (Z.min (Z.of_nat 2) 1) with 1%Z.
  Rdec. unfold Np.lt. Rdec. done.
Qed.

Lemma sysresample_failure_witness :
  ∃ σ',
    _sysresample [Fin (1 / 2); Fin (1 / 4)] 1 default_rng test_store
    = (Raise IndexError, σ')
    ∧ σ' = <[default_rng:=(gen_random (test_store default_rng)).2]> test_store.
Proof.
  destruct sysresample_overrun_example as [σ' Hrun].
  exists σ'. split; [exact Hrun|].
  by destruct (sysresample_failure [Fin (1 / 2); Fin (1 / 4)] 1 default_rng
                 test_store σ' IndexError eq_refl ltac:(lia) Hrun).
Defined.

Lemma sysresample_degenerate_counts_witness :
  (_sysresample [Fin 1] (-1) default_rng test_store).1 = Raise ValueError
  ∧ (_sysresample [] 3 default_rng test_store).1 = Ok [].
Proof.
  split.
  - apply (sysresample_degenerate_counts [Fin 1] (-1) default_rng test_store).
    lia.
  - apply (sysresample_degenerate_counts [] 3 default_rng test_store);
      [lia|by right].
Defined.

End ResamplerOutcomeExamples.

(** ** The read-only queries, continued *)

Section QueriesMore.
Local Open Scope R_scope.

Lemma mul_swap w a b :
  Np.mul (Np.mul w a) b = Np.mul (Np.mul w b) a.
Proof.
  destruct w as [| | |x], a as [| | |y], b as [| | |z]; simpl; try done;
    unfold Np.inf_times;
    repeat (match goal with
            | |- context [Rlt_dec ?u ?v] => destruct (Rlt_dec u v)
            end; simpl; try done; unfold Np.inf_times);
    try (f_equal; lra); try (exfalso; nra).
  all: exfalso;
    match goal with
    | n : ¬ 0 < ?v, n0 : ¬ ?v < 0 |- _ =>
        assert (v = 0) as E by lra; rewrite E in *; lra
    end.
Qed.

Lemma sum_map_swap {A} (f g : A → npfloat) (l : list A) :
  (∀ x, f x = g x) → Np.sum (map f l) = Np.sum (map g l).
Proof. intros Hfg. f_equal. apply map_ext. intros x. apply Hfg. Qed.

Lemma sum_zip_swap (a b : nat) (ws : list npfloat) :
  ∀ rs : list (list npfloat),
  Np.sum (zip_with (λ wi row, Np.mul (Np.mul wi (default NaN (row !! a)))
                                (default NaN (row !! b))) ws rs)
  = Np.sum (zip_with (λ wi row, Np.mul (Np.mul wi (default NaN (row !! b)))
                                  (default NaN (row !! a))) ws rs).
Proof.
  induction ws as [|wi ws IH]; intros [|row rs']; try done.
  cbn [zip_with]. unfold Np.sum in *. cbn [foldr].
  by rewrite IH, mul_swap.
Qed.

Lemma square_entry (F : nat → nat → npfloat) (n a b : nat) :
  entry (Array2 n (map (λ a, map (λ c, F a c) (seq 0 n)) (seq 0 n))) a b
  = if ((a <? n) && (b <? n))%nat then Some (F a b) else None.
Proof.
  unfold entry. cbn [rows]. rewrite list_lookup_fmap.
  destruct (Nat.ltb_spec a n) as [Ha|Ha];
    destruct (Nat.ltb_spec b n) as [Hb|Hb]; cbn [andb].
  - rewrite lookup_seq_lt by done. cbn -[seq].
    by rewrite list_lookup_fmap, lookup_seq_lt by done.
  - rewrite lookup_seq_lt by done. cbn -[seq].
    by rewrite list_lookup_fmap, lookup_seq_ge by lia.
  - by rewrite lookup_seq_ge by lia.
  - by rewrite lookup_seq_ge by lia.
Qed.

(** X25. The matrix that [covar] returns, whenever it returns one, is
    square, with as many rows as columns, and symmetric, whatever the
    values (NaN and infinities included) and whether or not a size-one
    axis was broadcast. *)
Theorem covar_symmetric {G : Type} (self : @BerParticleFilter G)
  (C : ndarray2) :
  covar self = Ok C →
  length (rows C) = ncols C
  ∧ Forall (λ row, length row = ncols C) (rows C)
  ∧ ∀ a b, entry C a b = entry C b a.
Proof.
  unfold covar. intros Hcov.
  apply rbind_Ok in Hcov as (mu & _ & Hcov).
  apply rbind_Ok in Hcov as (d & _ & Hein).
  unfold einsum_i_id_ic in Hein. destruct (negb _ && _ && _); [done|].
  injection Hein as <-. cbn [rows ncols].
  split; [by rewrite length_map, length_seq|].
  split.
  { apply Forall_map, Forall_forall. intros a _.
    by rewrite length_map, length_seq. }
  intros a b. rewrite !square_entry.
  rewrite (andb_comm (b <? ncols d)%nat).
  destruct (_ && _); [|done]. f_equal.
  destruct (weights_surv self) as [|w0 [|w1 w]];
    destruct (rows d) as [|r0 [|r1 rs]];
    first [ done
          | apply sum_zip_swap
          | apply sum_map_swap; intros x; apply mul_swap ].
Qed.

(** One surviving particle and no surviving weight: the axis of size one
    is broadcast against the empty one, and the sum over no term is 0. *)
Example einsum_broadcasts :
  einsum_i_id_ic [] (Array2 2 [[Fin 1; Fin 2]])
  = Ok (Array2 2 [[Fin 0; Fin 0]; [Fin 0; Fin 0]]).
Proof. reflexivity. Qed.

Lemma vecmat_entry_bounds (w : list npfloat) (c : nat) (lo hi : R) :
  Forall nonneg w → ∀ rs : list (list npfloat),
  length w = length rs →
  Forall (λ row, ∃ x, row !! c = Some (Fin x) ∧ lo <= x <= hi) rs →
  ∃ s, Np.sum (zip_with (λ wi row, Np.mul wi (default NaN (row !! c))) w rs)
       = Fin s
       ∧ lo * sumR valR w <= s <= hi * sumR valR w.
Proof.
  induction 1 as [|a w Ha Hw IH]; intros [|row rs] Hlen Hrs; try done.
  - exists 0. split; [done|]. simpl. lra.
  - apply Forall_cons in Hrs as [(x & Hx & Hb) Hrs].
    simpl in Hlen. injection Hlen as Hlen.
    destruct (IH rs Hlen Hrs) as (s & Hs & Hsb).
    destruct a as [| | |r]; try done. simpl in Ha.
    exists (r * x + s). cbn [zip_with]. unfold Np.sum in *. cbn [foldr].
    rewrite Hs, Hx. split; [done|]. simpl. nra.
Qed.

(** X24. When there are surviving weights, [mean] averages the surviving
    population and ignores the newborn one; with nonnegative weights
    that sum to one, each coordinate of the mean lies between the
    smallest and the largest value of that coordinate among the
    surviving particles. *)
Theorem mean_within_range {G : Type} (self : @BerParticleFilter G)
  (c : nat) (lo hi : R) :
  weights_surv self ≠ [] →
  Forall nonneg (weights_surv self) →
  sumR valR (weights_surv self) = 1 →
  length (weights_surv self) = nrows (particles_surv self) →
  (c < ncols (particles_surv self))%nat →
  Forall (λ row, ∃ x, row !! c = Some (Fin x) ∧ lo <= x <= hi)
    (rows (particles_surv self)) →
  ∃ mu m,
    mean self = Ok mu
    ∧ mean self = vecmat (weights_surv self) (particles_surv self)
    ∧ length mu = ncols (particles_surv self)
    ∧ mu !! c = Some (Fin m) ∧ lo <= m <= hi.
Proof.
  intros Hne Hnn Hsum Hlen Hc Hrows.
  destruct (vecmat_entry_bounds _ c lo hi Hnn _ Hlen Hrows) as (m & Hm & Hb).
  assert (Hmean : mean self = vecmat (weights_surv self) (particles_surv self)).
  { unfold mean. destruct (weights_surv self); [done|].
    by destruct (Nat.ltb_spec 0 (length (n :: l))); [|simpl in *; lia]. }
  rewrite Hmean. unfold vecmat. unfold nrows in Hlen.
  rewrite Hlen, Nat.eqb_refl.
  eexists _, m. split; [done|]. split; [done|].
  split; [by rewrite length_map, length_seq|].
  rewrite Hsum in Hb. split; [|lra].
  rewrite list_lookup_fmap, lookup_seq_lt by done. cbn. by rewrite Hm.
Qed.

Lemma argmax_from_spec (x : list npfloat) :
  Forall finite x → ∀ (b : R) (ib i : nat),
  let k := argmax_from (Fin b) ib i x in
  (k = ib ∧ Forall (λ v, valR v <= b) x)
  ∨ (∃ t v, k = (i + t)%nat ∧ x !! t = Some (Fin v) ∧ b < v
            ∧ Forall (λ u, valR u <= v) x
            ∧ ∀ t' v', (t' < t)%nat → x !! t' = Some (Fin v') → v' < v).
Proof.
  induction 1 as [|a x Ha Hx IH]; intros b ib i; [left; by split|].
  destruct a as [| | |r]; try done. cbn -[Nat.add].
  destruct (Rlt_dec b r) as [Hlt|Hge]; cbn -[Nat.add].
  - right. destruct (IH r i (S i)) as [[Hk Hall]|(t & v & Hk & Ht & Hv & Hall & He)].
    + exists 0%nat, r. rewrite Hk, Nat.add_0_r.
      repeat split; try done; [constructor; [simpl; lra|done]|].
      intros t' v' Ht'. lia.
    + exists (S t), v. rewrite Hk.
      split; [lia|]. split; [done|]. split; [lra|].
      split; [constructor; [simpl; lra|done]|].
      intros [|t'] v' Ht' Hv'; simpl in Hv'.
      * injection Hv' as <-. lra.
      * apply (He t' v'); [lia|done].
  - destruct (IH b ib (S i)) as [[Hk Hall]|(t & v & Hk & Ht & Hv & Hall & He)].
    + left. split; [done|]. constructor; [simpl; lra|done].
    + right. exists (S t), v. rewrite Hk.
      split; [lia|]. split; [done|]. split; [done|].
      split; [constructor; [simpl; lra|done]|].
      intros [|t'] v' Ht' Hv'; simpl in Hv'.
      * injection Hv' as <-. lra.
      * apply (He t' v'); [lia|done].
Qed.

(** X26. [maxap] raises ValueError when there is no surviving weight.  With
    finite surviving weights and a particle for each, it returns the
    particle of the largest weight, the first one when several weights
    are the largest. *)
Theorem maxap_spec {G : Type} (self : @BerParticleFilter G) :
  (weights_surv self = [] → maxap self = Raise ValueError)
  ∧ (weights_surv self ≠ [] → Forall finite (weights_surv self) →
     length (weights_surv self) = nrows (particles_surv self) →
     ∃ i wi row,
       maxap self = Ok row
       ∧ rows (particles_surv self) !! i = Some row
       ∧ weights_surv self !! i = Some (Fin wi)
       ∧ Forall (λ u, valR u <= wi) (weights_surv self)
       ∧ ∀ j wj, (j < i)%nat → weights_surv self !! j = Some (Fin wj) →
                 wj < wi).
Proof.
  unfold maxap. split; [by intros ->|].
  intros Hne Hfin Hlen. unfold nrows in Hlen.
  destruct (weights_surv self) as [|a ws] eqn:Ew; [done|].
  apply Forall_cons in Hfin as [Ha Hfin].
  destruct a as [| | |r]; try done. cbn [np_argmax rbind].
  assert (Hrow : ∀ i, (i < S (length ws))%nat →
                      ∃ row, rows (particles_surv self) !! i = Some row).
  { intros i Hi. apply lookup_lt_is_Some_2. simpl in Hlen. lia. }
  destruct (argmax_from_spec ws Hfin r 0 1)
    as [[Hk Hall]|(t & v & Hk & Ht & Hv & Hall & He)]; rewrite Hk.
  - destruct (Hrow 0%nat) as [row Hr]; [lia|].
    exists 0%nat, r, row. unfold index. rewrite Hr.
    split; [done|]. split; [done|]. split; [done|].
    split; [constructor; [simpl; lra|done]|]. intros j wj Hj. lia.
  - destruct (Hrow (1 + t)%nat) as [row Hr].
    { apply lookup_lt_Some in Ht. lia. }
    exists (1 + t)%nat, v, row. unfold index. rewrite Hr.
    split; [done|]. split; [done|]. split; [done|].
    split; [constructor; [simpl; lra|done]|].
    intros [|j] wj Hj Hwj; simpl in Hwj.
    + injection Hwj as <-. lra.
    + apply (He j wj); [lia|done].
Qed.

End QueriesMore.

Section TransitionValue.
Context {G : Type} `{GL : GeneratorLaws G}.
Local Open Scope R_scope.

(** In exact arithmetic: the state returned by a transition from a
    well-formed state, field by field, and the store it leaves. *)
Lemma call_value (self : @BerParticleFilter G) measurements (σ : loc → G) :
  collaborators_ok self → wf_state self →
  let lr := likelihood_fn self (propagated self) measurements in
  let g1 := (gen_random (σ (rng self))).2 in
  let born := birth_model self measurements (Nbirth self) g1 in
  let Nsurv := length (rows (particles_surv self)) in
  ∃ w0 idx r q',
    0 < predicted_prob self <= 1
    ∧ Forall nonneg (predicted_weights self)
    ∧ sumR valR (predicted_weights self) = 1
    ∧ length (predicted_weights self)
      = (length (weights_surv self) + length (weights_born self))%nat
    ∧ finite_on_support lr.1 (predicted_weights self)
    ∧ finite_on_support lr.2 (predicted_weights self)
    ∧ nrows (propagated self)
      = (length (weights_surv self) + length (weights_born self))%nat
    ∧ _update_existance_prob (predicted_weights self) lr.2
        (Fin (predicted_prob self)) = Ok (Fin q')
    ∧ 0 < q' <= 1
    ∧ _weight_update lr.1 (predicted_weights self) = Ok w0
    ∧ Forall nonneg (normalize w0)
    ∧ sumR valR (normalize w0) = 1
    ∧ length (normalize w0)
      = (length (weights_surv self) + length (weights_born self))%nat
    ∧ _sysresample (normalize w0) (Nsuv self) (rng self) σ
      = (Ok idx, <[rng self:=g1]> σ)
    ∧ take_idx (rows (propagated self)) idx = Ok r
    ∧ __call__ self measurements σ
      = (Ok {| likelihood_fn := likelihood_fn self;
               birth_model := birth_model self;
               motion_model := motion_model self;
               Nsuv := Nsuv self;
               Nbirth := Nbirth self;
               prob_birth := prob_birth self;
               prob_surv := prob_surv self;
               prob := np_float (Fin q');
               particles_surv := Array2 (ncols (propagated self)) r;
               weights_surv :=
                 replicate (Z.to_nat (Nsuv self)) (Fin (1 / IZR (Nsuv self)));
               particles_born := born.1;
               weights_born :=
                 replicate (Z.to_nat (Nbirth self))
                   (Fin (1 / IZR (Nbirth self)));
               N_eff := ess (normalize w0);
               N_eff_surv :=
                 if (Nsurv =? 0)%nat then NaN
                 else ess (take Nsurv (normalize w0));
               N_eff_surv_normalized :=
                 if (Nsurv =? 0)%nat then NaN
                 else ess (normalize (take Nsurv (normalize w0)));
               N_eff_born := ess (drop Nsurv (normalize w0));
               N_eff_born_normalized :=
                 ess (normalize (drop Nsurv (normalize w0)));
               rng := rng self |},
         <[rng self:=born.2]> (<[rng self:=g1]> σ)).
Proof.
  intros Hc Hwf lr g1 born Nsurv. subst lr g1 born Nsurv. revert Hc Hwf.
  intros [Hmot Hlen Hfin Hbirth] [Hdim Hls Hlb Hws Hwb Hq Hpb Hps HNs HNb Hmass].
  unfold predicted_mass in Hmass.
  destruct self as [lf bm mm Ns Nb [tb vb] [ts vs] [tq vq] ps ws pb wb
                      ne1 ne2 ne3 ne4 ne5 rg].
  simpl in Hmot, Hlen, Hfin, Hbirth, Hdim, Hls, Hlb, Hws, Hwb, Hq, Hpb, Hps, HNs, HNb, Hmass.
  destruct vq as [| | |q]; try done.
  destruct vb as [| | |b]; try done.
  destruct vs as [| | |s]; try done.
  simpl in Hmot, Hlen, Hfin, Hbirth, Hdim, Hls, Hlb, Hws, Hwb, Hq, Hpb, Hps, HNs, HNb, Hmass.
  pose proof (sumR_valR_nonneg ws Hws) as HSs.
  pose proof (sumR_valR_nonneg wb Hwb) as HSb.
  set (qp := b * (1 + - q) + s * q).
  assert (HA : 0 <= s * q) by nra.
  assert (HB : 0 <= b * (1 + - q)) by nra.
  assert (Hqp : 0 < qp <= 1).
  { unfold qp. split; [|nra].
    destruct (Rle_lt_dec (b * (1 + - q) + s * q) 0) as [Hle|]; [|done].
    assert (s * q = 0) as E1 by lra. assert (b * (1 + - q) = 0) as E2 by lra.
    replace (1 - q) with (1 + - q) in Hmass by lra.
    rewrite E1, E2 in Hmass. lra. }
  unfold predicted_weights, predicted_prob, propagated.
  cbn [prob particles_surv particles_born motion_model
    prob_birth prob_surv weights_surv weights_born likelihood_fn Nsuv Nbirth
    rng birth_model val valR].
  replace (b * (1 - q) + s * q) with qp by (unfold qp; lra).
  unfold __call__. cbn [prob particles_surv particles_born motion_model
    prob_birth prob_surv weights_surv weights_born likelihood_fn Nsuv Nbirth
    rng birth_model].
  erewrite mbind_lift_eq.
  2:{ unfold np_concatenate2. by rewrite Hdim, Nat.eqb_refl. }
  set (particles := Array2 (ncols pb) (rows ps ++ rows pb)).
  set (particles_p := mm particles).
  assert (Hnp : nrows particles_p = (length ws + length wb)%nat).
  { unfold particles_p. rewrite Hmot. unfold nrows, particles. simpl.
    rewrite length_app. unfold nrows in Hls, Hlb. lia. }
  set (QP := sc_lift2 Np.add _ _).
  assert (HQP : val QP = Fin qp) by reflexivity.
  assert (HQPz : Np.is_zero (val QP) = false).
  { rewrite HQP. simpl. destruct (Req_dec_T qp 0); [lra|done]. }
  erewrite mbind_lift_eq; [|by apply sc_div_nonzero].
  erewrite mbind_lift_eq; [|by apply sc_div_nonzero].
  set (CS := sc_lift2 Np.div _ QP).
  set (CB := sc_lift2 Np.div _ QP).
  assert (HCS : val CS = Fin (s * q / qp)).
  { unfold CS, QP. simpl. fold qp. destruct (Req_dec_T qp 0); [lra|done]. }
  assert (HCB : val CB = Fin (b * (1 + - q) / qp)).
  { unfold CB, QP. simpl. fold qp. destruct (Req_dec_T qp 0); [lra|done]. }
  rewrite HCS, HCB, HQP.
  set (wp0 := map _ ws ++ map _ wb).
  assert (Hcs0 : 0 <= s * q / qp).
  { apply Rmult_le_pos; [done|]. left. apply Rinv_0_lt_compat. lra. }
  assert (Hcb0 : 0 <= b * (1 + - q) / qp).
  { apply Rmult_le_pos; [done|]. left. apply Rinv_0_lt_compat. lra. }
  destruct (scale_nonneg _ ws Hcs0 Hws) as [Hn1 Hs1].
  destruct (scale_nonneg _ wb Hcb0 Hwb) as [Hn2 Hs2].
  assert (Hwp0 : Forall nonneg wp0) by by apply Forall_app.
  assert (Hwp0s : 0 < sumR valR wp0).
  { unfold wp0. rewrite sumR_app, Hs1, Hs2.
    replace (s * q / qp * sumR valR ws + b * (1 + - q) / qp * sumR valR wb)
      with ((s * q * sumR valR ws + b * (1 - q) * sumR valR wb) / qp)
      by (field; lra).
    apply Rdiv_lt_0_compat; lra. }
  destruct (normalize_nonneg wp0 Hwp0 Hwp0s) as (Hwp & Hwps & Hwpe).
  set (wp := normalize wp0) in *.
  assert (Hwpl : length wp = (length ws + length wb)%nat).
  { unfold wp, wp0. by rewrite length_normalize, length_app, !length_map. }
  specialize (Hlen particles_p measurements).
  specialize (Hfin particles_p measurements).
  destruct (lf particles_p measurements) as [LogLt LogRatio].
  simpl in Hlen, Hfin. destruct Hlen as [HlL HlR]. destruct Hfin as [HfL HfR].
  cbn [fst snd].
  assert (HsupL : finite_on_support LogLt wp).
  { apply finite_support_of_finite; [done|]. lia. }
  assert (HsupR : finite_on_support LogRatio wp).
  { apply finite_support_of_finite; [done|]. lia. }
  destruct (update_existance_prob_finite wp LogRatio qp Hwp Hwpe HsupR Hqp)
    as (l1 & l2 & q' & _ & _ & Hupd & _ & Hq').
  erewrite mbind_lift_eq; [|exact Hupd].
  destruct (weight_update_spec LogLt wp Hwp Hwpe HsupL)
    as (out & x & lse & Hout & _ & _ & Hlo & _ & _ & Hon & Hos).
  erewrite mbind_lift_eq; [|exact Hout].
  assert (Hos' : sumR valR out = 1).
  { rewrite sum_finite in Hos; [by injection Hos|].
    eapply Forall_impl; [exact Hon|]. apply nonneg_finite. }
  destruct (normalize_nonneg out Hon) as (Hw & Hws1 & _); [lra|].
  set (w := normalize out) in *.
  destruct (sysresample_normalised w Ns rg σ) as (idx & Hidx & Hil & Hir);
    [eapply Forall_impl; [exact Hw|]; apply nonneg_finite|done|done|].
  erewrite mbind_step; [|exact Hidx].
  assert (Hwl : length w = nrows particles_p).
  { unfold w. rewrite length_normalize, Hlo. lia. }
  assert (Hwl' : length w = (length ws + length wb)%nat) by lia.
  destruct (take_idx_in_range (rows particles_p) idx) as [r Hr].
  { eapply Forall_impl; [exact Hir|]. intros i Hi. simpl in Hi.
    unfold nrows in Hwl. lia. }
  erewrite mbind_lift_eq; [|unfold take_rows; rewrite Hr; reflexivity].
  erewrite mbind_lift_eq.
  2:{ unfold np_ones. by destruct (Z.ltb_spec Ns 0); [lia|]. }
  unfold mbind' at 1, call_birth. rewrite fn_lookup_insert.
  destruct (bm measurements Nb _) as [pb' g']. cbn [fst snd].
  erewrite mbind_lift_eq.
  2:{ unfold np_ones. by destruct (Z.ltb_spec Nb 0); [lia|]. }
  unfold override, __init__, mbind', mret'.
  rewrite !uniform_weights by done.
  exists out, idx, r, q'.
  repeat (split; [done|]). reflexivity.
Qed.

End TransitionValue.

Section TransitionMore.
Context {G : Type} `{GL : GeneratorLaws G}.
Local Open Scope R_scope.

Lemma square_sum_bounds (w : list npfloat) :
  Forall nonneg w →
  sumR (λ v, valR v * valR v) w <= sumR valR w * sumR valR w
  ∧ sumR valR w * sumR valR w
    <= INR (length w) * sumR (λ v, valR v * valR v) w.
Proof.
  induction 1 as [|a w Ha Hw [IH1 IH2]]; [simpl; lra|].
  change (length (a :: w)) with (S (length w)). rewrite S_INR. simpl.
  apply nonneg_valR in Ha as [_ Ha].
  pose proof (sumR_valR_nonneg w Hw) as Hs.
  pose proof (pos_INR (length w)) as Hn.
  assert (HQ0 : 0 <= sumR (λ v, valR v * valR v) w).
  { apply sumR_nonneg, Forall_forall. intros v _.
    pose proof (Rle_0_sqr (valR v)) as Hq. by unfold Rsqr in Hq. }
  set (x := valR a) in *. set (s := sumR valR w) in *.
  set (Q := sumR (λ v, valR v * valR v) w) in *.
  set (n := INR (length w)) in *.
  split; [nra|].
  destruct (Req_dec_T n 0) as [E|Hne].
  - rewrite E in IH2 |- *.
    assert (s = 0) as ->.
    { apply Rsqr_0_uniq. pose proof (Rle_0_sqr s) as Hq.
      unfold Rsqr in *. lra. }
    nra.
  - assert (0 < n) as Hpos by lra.
    assert (2 * x * s <= n * (x * x) + Q); [|nra].
    apply (Rmult_le_reg_l n); [done|].
    pose proof (Rle_0_sqr (n * x - s)) as Hsq. unfold Rsqr in Hsq. nra.
Qed.

(** The effective sample size of a normalised weight vector lies between
    1 and the number of weights. *)
Lemma ess_bounds (w : list npfloat) :
  Forall nonneg w → sumR valR w = 1 →
  ∃ e, ess w = Fin e ∧ 1 <= e <= INR (length w).
Proof.
  intros Hw Hs. destruct (square_sum_bounds w Hw) as [H1 H2].
  rewrite Hs in H1, H2.
  set (Q := sumR (λ v, valR v * valR v) w) in *.
  assert (HQ : Np.sum (map Np.square w) = Fin Q).
  { apply sum_Fin_ext. eapply Forall_impl; [exact Hw|].
    by intros [| | |r] Hr. }
  pose proof (pos_INR (length w)) as Hn.
  assert (0 < Q) as HQpos by nra.
  exists (1 / Q). unfold ess. rewrite HQ. simpl.
  destruct (Req_dec_T Q 0); [lra|]. split; [done|].
  assert (0 < / Q) by by apply Rinv_0_lt_compat.
  unfold Rdiv. split.
  - apply (Rmult_le_reg_r Q); [done|]. rewrite Rmult_assoc, Rinv_l by lra. lra.
  - apply (Rmult_le_reg_r Q); [done|]. rewrite Rmult_assoc, Rinv_l by lra. lra.
Qed.

(** The transition theorems below are first proved together with the
    fact that, in exact arithmetic, the transition returns. *)
Lemma exact_transition_ess (self : @BerParticleFilter G) measurements
  (σ : loc → G) :
  collaborators_ok self → wf_state self →
  ∃ st' σ' e,
    __call__ self measurements σ = (Ok st', σ')
    ∧ N_eff st' = Fin e
    ∧ 1 <= e <= INR (length (weights_surv self) + length (weights_born self))
    ∧ (rows (particles_surv self) = [] →
       N_eff_surv st' = NaN ∧ N_eff_surv_normalized st' = NaN).
Proof.
  intros Hc Hwf.
  destruct (call_value self measurements σ Hc Hwf)
    as (w0 & idx & r & q' & _ & _ & _ & _ & _ & _ & _ & _ & _ & _
        & Hw & Hs & Hl & _ & _ & Hrun).
  destruct (ess_bounds _ Hw Hs) as (e & He & Hb). rewrite Hl in Hb.
  eexists _, _, e. split; [exact Hrun|]. cbn.
  split; [done|]. split; [done|]. by intros ->.
Qed.

Lemma exact_transition_generator (self : @BerParticleFilter G) measurements
  (σ : loc → G) :
  collaborators_ok self → wf_state self →
  ∃ st' σ',
    __call__ self measurements σ = (Ok st', σ')
    ∧ rng st' = rng self
    ∧ σ' (rng self)
      = (birth_model self measurements (Nbirth self)
           (gen_random (σ (rng self))).2).2
    ∧ particles_born st'
      = (birth_model self measurements (Nbirth self)
           (gen_random (σ (rng self))).2).1
    ∧ ∀ l, l ≠ rng self → σ' l = σ l.
Proof.
  intros Hc Hwf.
  destruct (call_value self measurements σ Hc Hwf)
    as (w0 & idx & r & q' & _ & _ & _ & _ & _ & _ & _ & _ & _ & _
        & _ & _ & _ & _ & _ & Hrun).
  eexists _, _. split; [exact Hrun|]. cbn.
  split; [done|]. split; [by rewrite fn_lookup_insert|]. split; [done|].
  intros l Hl. by rewrite !fn_lookup_insert_ne.
Qed.

Lemma exact_transition_existence_value (self : @BerParticleFilter G) measurements
  (σ : loc → G) :
  collaborators_ok self → wf_state self →
  let qp := predicted_prob self in
  let I := integral (predicted_weights self)
             (likelihood_fn self (propagated self) measurements).2 in
  ∃ st' σ',
    __call__ self measurements σ = (Ok st', σ')
    ∧ prob st' = np_float (Fin (I * qp / (1 - qp + qp * I)))
    ∧ 0 < I.
Proof.
  intros Hc Hwf qp I. subst qp I.
  destruct (call_value self measurements σ Hc Hwf)
    as (w0 & idx & r & q' & Hqp & Hwp & Hs & Hlen & _ & HsR & Hnp & Hupd & _ & _
        & _ & _ & _ & _ & _ & Hrun).
  set (L := (likelihood_fn self (propagated self) measurements).2) in *.
  set (wp := predicted_weights self) in *.
  destruct (likelihood_length self Hc (propagated self) measurements)
    as [_ HlR].
  destruct (likelihood_finite self Hc (propagated self) measurements)
    as [_ HfR].
  fold L in HlR, HfR.
  assert (HL : Forall logval L).
  { eapply Forall_impl; [exact HfR|]. apply finite_logval. }
  assert (HlenL : length L = length wp) by lia.
  assert (Hlv : ∀ i a, wp !! i = Some a → Np.is_zero a = false →
                       ∃ l, L !! i = Some l ∧ logval l)
    by by apply support_of_logval.
  assert (Hone : ∃ i a l, wp !! i = Some a ∧ Np.is_zero a = false
                          ∧ L !! i = Some (Fin l)).
  { assert (Hex : Exists (λ v, Np.is_zero v = false) wp)
      by (apply sum_pos_exists; [done|lra]).
    apply Exists_exists in Hex as (a & Hin & Hz).
    apply list_elem_of_lookup in Hin as [i Hi].
    destruct (HsR i a Hi Hz) as [l Hl]. by exists i, a, l. }
  destruct (update_existance_prob_value wp L (predicted_prob self)
              Hwp Hlv Hone Hqp) as (Hval & _).
  pose proof (I_pos wp L Hwp Hlv Hone) as HI.
  rewrite integral_on_support in Hval, HI by done.
  fold (integral wp L) in Hval, HI.
  rewrite Hupd in Hval. injection Hval as ->.
  eexists _, _. split; [exact Hrun|]. by split.
Qed.

Lemma exact_transition_survivors (self : @BerParticleFilter G) measurements
  (σ : loc → G) :
  collaborators_ok self → wf_state self →
  ∃ st' σ' idx w,
    __call__ self measurements σ = (Ok st', σ')
    ∧ take_rows (propagated self) idx = Ok (particles_surv st')
    ∧ nondecreasing idx
    ∧ _weight_update (likelihood_fn self (propagated self) measurements).1
        (predicted_weights self) = Ok w
    ∧ Forall (λ i, ∃ v, normalize w !! i = Some (Fin v) ∧ 0 < v) idx.
Proof.
  intros Hc Hwf.
  destruct (call_value self measurements σ Hc Hwf)
    as (w0 & idx & r & q' & _ & _ & _ & _ & _ & _ & _ & _ & _ & Hw0
        & Hw & Hs & Hl & Hidx & Hr & Hrun).
  assert (Hfin : Forall finite (normalize w0)).
  { eapply Forall_impl; [exact Hw|]. apply nonneg_finite. }
  eexists _, _, idx, w0. split; [exact Hrun|]. cbn.
  split; [unfold take_rows; by rewrite Hr|].
  split.
  { eapply sysresample_sorted; [|exact Hidx].
    by apply existsb_isnan_finite. }
  split; [done|].
  apply Forall_lookup. intros k a Hk.
  destruct (sysresample_inverts_cumsum _ _ _ _ _ _ Hw Hidx k a Hk)
    as (c & v & _ & _ & _ & Hv & Hpos).
  by exists v.
Qed.

(** X19. Diagnostics. In the state returned by a transition from a
    well-formed state, the joint effective sample size is a finite number
    between 1 and the size of the joint population; when there was no
    surviving particle, as on the first transition, the two effective
    sample sizes of the surviving subset are NaN. *)
Theorem transition_ess (self : @BerParticleFilter G) measurements
  (σ σ' : loc → G) (st' : @BerParticleFilter G) :
  collaborators_ok self → wf_state self →
  __call__ self measurements σ = (Ok st', σ') →
  ∃ e,
    N_eff st' = Fin e
    ∧ 1 <= e <= INR (length (weights_surv self) + length (weights_born self))
    ∧ (rows (particles_surv self) = [] →
       N_eff_surv st' = NaN ∧ N_eff_surv_normalized st' = NaN).
Proof.
  intros Hc Hwf Hcall.
  destruct (exact_transition_ess self measurements σ Hc Hwf)
    as (st'' & σ'' & e & Hcall' & He).
  rewrite Hcall in Hcall'. injection Hcall' as <- <-. by exists e.
Qed.

(** X20. The random source. A transition from a well-formed state that
    returns has drawn exactly one [random()] and then handed the
    generator to the birth model, whose particles are the newborn ones of
    the returned state; that state holds the same generator object as
    its parent, and no other generator of the store is touched. *)
Theorem transition_generator (self : @BerParticleFilter G) measurements
  (σ σ' : loc → G) (st' : @BerParticleFilter G) :
  collaborators_ok self → wf_state self →
  __call__ self measurements σ = (Ok st', σ') →
  rng st' = rng self
  ∧ σ' (rng self)
    = (birth_model self measurements (Nbirth self)
         (gen_random (σ (rng self))).2).2
  ∧ particles_born st'
    = (birth_model self measurements (Nbirth self)
         (gen_random (σ (rng self))).2).1
  ∧ ∀ l, l ≠ rng self → σ' l = σ l.
Proof.
  intros Hc Hwf Hcall.
  destruct (exact_transition_generator self measurements σ Hc Hwf)
    as (st'' & σ'' & Hcall' & Hrest).
  rewrite Hcall in Hcall'. by injection Hcall' as <- <-.
Qed.

(** X21. The existence probability of the state returned by a transition
    from a well-formed state is the Bernoulli update
    [I q_p / (1 - q_p + q_p I)] of the predicted probability
    [q_p = prob_birth (1 - q) + prob_surv q], with [I] the integral of
    [exp(LogRatio)] against the predicted weights. *)
Theorem transition_existence_value (self : @BerParticleFilter G) measurements
  (σ σ' : loc → G) (st' : @BerParticleFilter G) :
  collaborators_ok self → wf_state self →
  __call__ self measurements σ = (Ok st', σ') →
  let qp := predicted_prob self in
  let I := integral (predicted_weights self)
             (likelihood_fn self (propagated self) measurements).2 in
  prob st' = np_float (Fin (I * qp / (1 - qp + qp * I))) ∧ 0 < I.
Proof.
  intros Hc Hwf Hcall qp I.
  destruct (exact_transition_existence_value self measurements σ Hc Hwf)
    as (st'' & σ'' & Hcall' & Hrest).
  rewrite Hcall in Hcall'. by injection Hcall' as <- <-.
Qed.

(** X22. The survivors. In the state returned by a transition from a
    well-formed state, the surviving particles are rows of the
    propagated joint population, taken at non-decreasing row indices,
    and every row taken has a positive posterior weight. *)
Theorem transition_survivors (self : @BerParticleFilter G) measurements
  (σ σ' : loc → G) (st' : @BerParticleFilter G) :
  collaborators_ok self → wf_state self →
  __call__ self measurements σ = (Ok st', σ') →
  ∃ idx w,
    take_rows (propagated self) idx = Ok (particles_surv st')
    ∧ nondecreasing idx
    ∧ _weight_update (likelihood_fn self (propagated self) measurements).1
        (predicted_weights self) = Ok w
    ∧ Forall (λ i, ∃ v, normalize w !! i = Some (Fin v) ∧ 0 < v) idx.
Proof.
  intros Hc Hwf Hcall.
  destruct (exact_transition_survivors self measurements σ Hc Hwf)
    as (st'' & σ'' & idx & w & Hcall' & Hrest).
  rewrite Hcall in Hcall'. injection Hcall' as <- <-. by exists idx, w.
Qed.

End TransitionMore.

(** Reduce the projections of an explicit state, and nothing else. *)
Ltac fields :=
  cbn [likelihood_fn birth_model motion_model Nsuv Nbirth prob_birth prob_surv
       prob particles_surv weights_surv particles_born weights_born N_eff
       N_eff_surv N_eff_surv_normalized N_eff_born N_eff_born_normalized rng
       val ncols rows fst snd].

Section RunFacts.
Context {G : Type} `{GL : GeneratorLaws G}.
Local Open Scope R_scope.

Lemma sumR_replicate (n : nat) (x : npfloat) :
  sumR valR (replicate n x) = INR n * valR x.
Proof.
  induction n as [|n IH]; [simpl; lra|].
  rewrite S_INR. simpl. rewrite IH. lra.
Qed.

Lemma uniform_sum (N : Z) :
  (1 ≤ N)%Z → sumR valR (replicate (Z.to_nat N) (Fin (1 / IZR N))) = 1.
Proof.
  intros HN. rewrite sumR_replicate, INR_IZR_INZ, Z2Nat.id by lia. simpl.
  assert (0 < IZR N) by (apply (IZR_lt 0); lia). field. lra.
Qed.

Lemma uniform_nonneg (N : Z) :
  (0 ≤ N)%Z → Forall nonneg (replicate (Z.to_nat N) (Fin (1 / IZR N))).
Proof.
  intros HN. destruct (Z.eq_dec N 0%Z) as [->|Hne]; [by constructor|].
  apply Forall_replicate. simpl.
  assert (0 < IZR N) by (apply (IZR_lt 0); lia).
  left. apply Rdiv_lt_0_compat; lra.
Qed.

(** In exact arithmetic, one transition keeps a state runnable, and gives
    it [Nsuv] surviving and [Nbirth] newborn particles. *)
Lemma call_runnable (self : @BerParticleFilter G) measurements (σ : loc → G) :
  runnable self →
  ∃ st' σ',
    __call__ self measurements σ = (Ok st', σ')
    ∧ runnable st'
    ∧ Nsuv st' = Nsuv self ∧ Nbirth st' = Nbirth self
    ∧ nrows (particles_surv st') = Z.to_nat (Nsuv self)
    ∧ nrows (particles_born st') = Z.to_nat (Nbirth self)
    ∧ length (weights_surv st') = Z.to_nat (Nsuv self)
    ∧ length (weights_born st') = Z.to_nat (Nbirth self).
Proof.
  intros [Hwf Hc Hmd Hbd HNs Hen HNb1 Hps Hpb0].
  destruct (call_value self measurements σ Hc Hwf)
    as (w0 & idx & r & q' & _ & _ & _ & _ & _ & _ & _ & _ & Hq' & _
        & _ & _ & Hl & Hidx & Hr & Hrun).
  pose proof Hwf as [Hdim Hls Hlb Hws Hwb Hq Hpb Hpsu HN0 HNb Hmass].
  apply sysresample_length in Hidx as [_ Hidx]. rewrite Hl in Hidx.
  apply take_idx_length in Hr.
  assert (Hrows : length r = Z.to_nat (Nsuv self)) by lia.
  pose proof (birth_rows self Hc measurements (Nbirth self)
                (gen_random (σ (rng self))).2 HNb) as Hbr.
  eexists _, _. split; [exact Hrun|].
  split; [|cbn; unfold nrows; cbn; by rewrite !length_replicate].
  split; fields.
  - split; fields.
    + unfold propagated. by rewrite Hmd, Hbd.
    + unfold nrows. fields. by rewrite length_replicate.
    + by rewrite length_replicate.
    + by apply uniform_nonneg.
    + by apply uniform_nonneg.
    + simpl. lra.
    + done.
    + done.
    + done.
    + done.
    + unfold predicted_mass. fields. rewrite uniform_sum by done.
      pose proof (sumR_valR_nonneg _ (uniform_nonneg (Nbirth self) HNb)).
      destruct (val (prob_birth self)) as [| | |b]; try done.
      simpl in Hpb |- *.
      assert (0 < valR (val (prob_surv self)) * q')
        by (apply Rmult_lt_0_compat; lra).
      assert (0 <= b * (1 - q')) by (apply Rmult_le_pos; lra).
      set (S := sumR valR _) in *.
      assert (0 <= b * (1 - q') * S) by by apply Rmult_le_pos.
      lra.
  - destruct Hc as [H1 H2 H3 H4]. by split; fields.
  - done.
  - intros m n g. by rewrite !Hbd.
  - done.
  - rewrite !length_replicate. lia.
  - done.
  - done.
  - done.
Qed.

(** In exact arithmetic every transition of a run from a runnable state
    returns. *)
Lemma exact_run (self : @BerParticleFilter G)
  (measurements : list (option Measurements)) (σ : loc → G) :
  runnable self →
  ∃ st' σ',
    run self measurements σ = (Ok st', σ')
    ∧ runnable st'
    ∧ Nsuv st' = Nsuv self ∧ Nbirth st' = Nbirth self
    ∧ (measurements ≠ [] →
       nrows (particles_surv st') = Z.to_nat (Nsuv self)
       ∧ nrows (particles_born st') = Z.to_nat (Nbirth self)
       ∧ length (weights_surv st') = Z.to_nat (Nsuv self)
       ∧ length (weights_born st') = Z.to_nat (Nbirth self)).
Proof.
  revert self σ.
  induction measurements as [|m ms IH]; intros self σ Hrun.
  - exists self, σ. do 4 (split; [done|]). intros Hne. by destruct Hne.
  - destruct (call_runnable self m σ Hrun)
      as (st1 & σ1 & Hcall & Hrun1 & HNs & HNb & Hp1 & Hp2 & Hp3 & Hp4).
    destruct (IH st1 σ1 Hrun1) as (st' & σ' & Hrest & Hrun' & HNs' & HNb' & Hpop).
    exists st', σ'. simpl. rewrite (mbind_step _ _ _ _ _ Hcall).
    split; [done|]. split; [done|].
    split; [congruence|]. split; [congruence|].
    intros _. destruct ms as [|m' ms].
    + simpl in Hrest. unfold mret' in Hrest. by injection Hrest as <- <-.
    + rewrite <- HNs, <- HNb. by apply Hpop.
Qed.

(** X23. Runs. Along a run of transitions that all return, from a
    runnable state and on any sequence of measurement sets, absent ones
    included, the final state is runnable again, with the same [Nsuv] and
    [Nbirth]; after at least one transition it holds exactly [Nsuv]
    surviving and [Nbirth] newborn particles, with one weight each. *)
Theorem run_invariant (self : @BerParticleFilter G)
  (measurements : list (option Measurements)) (σ σ' : loc → G)
  (st' : @BerParticleFilter G) :
  runnable self →
  run self measurements σ = (Ok st', σ') →
  runnable st'
  ∧ Nsuv st' = Nsuv self ∧ Nbirth st' = Nbirth self
  ∧ (measurements ≠ [] →
     nrows (particles_surv st') = Z.to_nat (Nsuv self)
     ∧ nrows (particles_born st') = Z.to_nat (Nbirth self)
     ∧ length (weights_surv st') = Z.to_nat (Nsuv self)
     ∧ length (weights_born st') = Z.to_nat (Nbirth self)).
Proof.
  intros Hr Hrun.
  destruct (exact_run self measurements σ Hr) as (st'' & σ'' & Hrun' & Hrest).
  rewrite Hrun in Hrun'. by injection Hrun' as <- <-.
Qed.

End RunFacts.

(** ** Construction with the defaults *)

Section ConstructionMore.
Context {G : Type} `{Generator G}.
Local Open Scope R_scope.

(** X16. With the newborn particles and weights left out, the constructor
    first draws the newborn particles from the birth model on the
    generator it was given, which it advances whatever follows, and then
    builds the weights [1/Nbirth * np.ones(Nbirth)]: ZeroDivisionError
    for [Nbirth = 0], ValueError for a negative [Nbirth], and otherwise
    [Nbirth] weights [1/Nbirth] that sum to one, beside an empty
    surviving population of the dimension of the newborn one and an
    existence probability of 0. *)
Theorem init_defaults (Nsuv Nbirth : Z) (prob_birth prob_surv : scalar)
  (likelihood_fn : Likelihood) (birth_model : @BirthModel G)
  (motion_model : MotionModel) (rng : loc) (σ : loc → G) :
  let born := birth_model None Nbirth (σ rng) in
  let out := __init__ Nsuv Nbirth prob_birth prob_surv likelihood_fn
               birth_model motion_model default_prob None None None None
               NaN NaN NaN NaN NaN rng σ in
  out.2 = <[rng:=born.2]> σ
  ∧ match (Nbirth ?= 0)%Z with
    | Eq => out.1 = Raise ZeroDivisionError
    | Lt => out.1 = Raise ValueError
    | Gt => ∃ st, out.1 = Ok st
              ∧ particles_born st = born.1
              ∧ weights_born st
                = replicate (Z.to_nat Nbirth) (Fin (1 / IZR Nbirth))
              ∧ sumR valR (weights_born st) = 1
              ∧ weights_surv st = []
              ∧ particles_surv st = Array2 (ncols born.1) []
              ∧ prob st = py_float (Fin 0)
    end.
Proof.
  intros born out. subst out born.
  unfold __init__, mbind', call_birth, lift, mret', py_inv_int, np_ones.
  destruct (birth_model None Nbirth (σ rng)) as [p g]. cbn [fst snd].
  destruct (Z.compare_spec Nbirth 0) as [->|Hlt|Hgt].
  - done.
  - destruct (Z.eqb_spec Nbirth 0) as [|_]; [lia|].
    destruct (Z.ltb_spec Nbirth 0) as [_|]; [|lia]. done.
  - destruct (Z.eqb_spec Nbirth 0) as [|_]; [lia|].
    destruct (Z.ltb_spec Nbirth 0) as [|_]; [lia|]. cbn [rbind fst snd].
    split; [done|]. eexists. split; [done|]. cbn.
    assert (Hw : map (Np.mul (Fin (1 / IZR Nbirth)))
                   (replicate (Z.to_nat Nbirth) (Fin 1))
                 = replicate (Z.to_nat Nbirth) (Fin (1 / IZR Nbirth))).
    { induction (Z.to_nat Nbirth) as [|n IH]; [done|].
      cbn [replicate map]. rewrite IH. f_equal. cbn. f_equal. lra. }
    rewrite Hw. repeat split; try done. apply uniform_sum. lia.
Qed.

End ConstructionMore.

Section ConstructionMoreExamples.
Local Open Scope R_scope.

Lemma init_defaults_witness :
  ∃ st : @BerParticleFilter unit,
    (__init__ 2 2 (py_float (Fin (1 / 100))) (py_float (Fin (99 / 100)))
       test_likelihood test_birth_model test_motion_model default_prob
       None None None None NaN NaN NaN NaN NaN default_rng test_store).1
    = Ok st
    ∧ weights_born st = [Fin (1 / 2); Fin (1 / 2)]
    ∧ sumR valR (weights_born st) = 1
    ∧ weights_surv st = [].
Proof.
  destruct (init_defaults 2 2 (py_float (Fin (1 / 100)))
              (py_float (Fin (99 / 100))) test_likelihood test_birth_model
              test_motion_model default_rng test_store)
    as (_ & st & Hst & _ & Hw & Hs & Hws & _).
  exists st. split; [exact Hst|]. split; [exact Hw|].
  split; [exact Hs|exact Hws].
Defined.

End ConstructionMoreExamples.

(** ** What a transition leaves alone, and how it fails *)

Section TransitionFrame.
Context {G : Type} `{Generator G}.
Local Open Scope R_scope.

Lemma frame_bind {A B} (l : loc) (c : M G A) (k : A → M G B) :
  (∀ σ l', l' ≠ l → (c σ).2 l' = σ l') →
  (∀ a σ l', l' ≠ l → (k a σ).2 l' = σ l') →
  ∀ σ l', l' ≠ l → (mbind' c k σ).2 l' = σ l'.
Proof.
  intros Hc Hk σ l' Hl. unfold mbind'. specialize (Hc σ l' Hl).
  destruct (c σ) as [[a|e] σ1]; cbn [snd] in *; [|done].
  by rewrite Hk.
Qed.

Lemma frame_sysresample (w : list npfloat) (N : Z) (l : loc) :
  ∀ (σ : loc → G) l', l' ≠ l → (_sysresample w N l σ).2 l' = σ l'.
Proof.
  intros σ l' Hl. unfold _sysresample.
  destruct (existsb Np.isnan w).
  - unfold rng_choice. destruct (_ <? _)%Z; [done|].
    destruct (_ && _); [done|].
    destruct (gen_choice _ _ _) as [idx g]. cbn [snd].
    by rewrite fn_lookup_insert_ne.
  - unfold mbind', rng_random, lift.
    destruct (gen_random _) as [u g].
    destruct (np_zeros_int _); cbn [snd]; by rewrite fn_lookup_insert_ne.
Qed.

Lemma frame_call_birth (bm : @BirthModel G) m n (l : loc) :
  ∀ (σ : loc → G) l', l' ≠ l → (call_birth bm m n l σ).2 l' = σ l'.
Proof.
  intros σ l' Hl. unfold call_birth. destruct (bm _ _ _) as [p g].
  cbn [snd]. by rewrite fn_lookup_insert_ne.
Qed.

Lemma call_frame_store (self : @BerParticleFilter G) measurements :
  ∀ (σ : loc → G) l, l ≠ rng self →
    (__call__ self measurements σ).2 l = σ l.
Proof.
  unfold __call__.
  apply frame_bind; [done|]. intros particles.
  apply frame_bind; [done|]. intros c_surv.
  apply frame_bind; [done|]. intros c_born.
  destruct (likelihood_fn self _ measurements) as [LogLt LogRatio].
  apply frame_bind; [done|]. intros q'.
  apply frame_bind; [done|]. intros w.
  apply frame_bind; [apply frame_sysresample|]. intros idx.
  apply frame_bind; [done|]. intros ps.
  apply frame_bind; [done|]. intros ones_s.
  apply frame_bind; [apply frame_call_birth|]. intros pb.
  apply frame_bind; [done|]. intros ones_b. done.
Qed.

(** X17. Whatever its outcome, a transition leaves every generator other than
    the one the state refers to as it was; when it returns a state, that
    state has the collaborators, the counts, the birth and survival
    probabilities and the generator reference of the state it was called
    on, and a numpy scalar as its existence probability. *)
Theorem call_frame (self : @BerParticleFilter G) measurements
  (σ : loc → G) :
  (∀ l, l ≠ rng self → (__call__ self measurements σ).2 l = σ l)
  ∧ ∀ st', (__call__ self measurements σ).1 = Ok st' →
      likelihood_fn st' = likelihood_fn self
      ∧ birth_model st' = birth_model self
      ∧ motion_model st' = motion_model self
      ∧ Nsuv st' = Nsuv self ∧ Nbirth st' = Nbirth self
      ∧ prob_birth st' = prob_birth self ∧ prob_surv st' = prob_surv self
      ∧ rng st' = rng self
      ∧ is_np (prob st') = true.
Proof.
  split; [apply call_frame_store|].
  intros st' Hcall.
  destruct (__call__ self measurements σ) as [r σ'] eqn:E.
  cbn [fst] in Hcall. subst r. rename E into Hcall.
  unfold __call__ in Hcall.
  apply mbind_Ok in Hcall as (particles & σ1 & _ & Hcall).
  apply mbind_Ok in Hcall as (c_surv & σ2 & _ & Hcall).
  apply mbind_Ok in Hcall as (c_born & σ3 & _ & Hcall).
  destruct (likelihood_fn self _ measurements) as [LogLt LogRatio].
  apply mbind_Ok in Hcall as (q' & σ4 & _ & Hcall).
  apply mbind_Ok in Hcall as (w & σ5 & _ & Hcall).
  apply mbind_Ok in Hcall as (idx & σ6 & _ & Hcall).
  apply mbind_Ok in Hcall as (ps' & σ7 & _ & Hcall).
  apply mbind_Ok in Hcall as (ones_s & σ8 & _ & Hcall).
  apply mbind_Ok in Hcall as (pb' & σ9 & _ & Hcall).
  apply mbind_Ok in Hcall as (ones_b & σ10 & _ & Hcall).
  unfold override, __init__, mbind', mret' in Hcall.
  injection Hcall as <- _. by repeat split.
Qed.

Lemma rbind_Raise {A B} (r : result A) (k : A → result B) e :
  rbind r k = Raise e → r = Raise e ∨ ∃ a, r = Ok a ∧ k a = Raise e.
Proof.
  destruct r as [a|e']; intros E; [right; by exists a|].
  left. cbn [rbind] in E. by injection E as ->.
Qed.

Lemma mbind_Raise {A B} (c : M G A) (k : A → M G B) σ e σ' :
  mbind' c k σ = (Raise e, σ') →
  c σ = (Raise e, σ') ∨ ∃ a σ1, c σ = (Ok a, σ1) ∧ k a σ1 = (Raise e, σ').
Proof.
  unfold mbind'. destruct (c σ) as [[a|e'] σ1]; intros E;
    [right; by exists a, σ1|].
  left. by injection E as -> ->.
Qed.

Lemma take_idx_Raise {A} (a : list A) idx e :
  take_idx a idx = Raise e → e = IndexError.
Proof.
  induction idx as [|i idx IH]; [done|]. cbn [take_idx].
  destruct (a !! i); [|by intros [= <-]].
  destruct (take_idx a idx); [done|]. intros [= <-]. by apply IH.
Qed.

Lemma put_idx_go_Raise {A} idx : ∀ (a vals : list A) e,
  put_idx_go a idx vals = Raise e → e = IndexError.
Proof.
  induction idx as [|i idx IH]; intros a [|v vals] e; try done.
  cbn [put_idx_go]. unfold setitem. destruct (_ <? _)%nat.
  - cbn [rbind]. apply IH.
  - by intros [= <-].
Qed.

Lemma put_idx_Raise {A} (a : list A) idx vals e :
  put_idx a idx vals = Raise e → e = ValueError ∨ e = IndexError.
Proof.
  unfold put_idx. destruct (_ =? _)%nat.
  - intros ?%put_idx_go_Raise. by right.
  - destruct vals as [|v [|]]; try (intros [= <-]; by left).
    intros ?%put_idx_go_Raise. by right.
Qed.

Lemma logsumexp_Raise x e : _logsumexp x = Raise e → e = ValueError.
Proof. unfold _logsumexp. destruct x; [by intros [= <-]|done]. Qed.

Lemma weight_update_Raise L wp e :
  _weight_update L wp = Raise e → e = ValueError ∨ e = IndexError.
Proof.
  unfold _weight_update.
  intros [E|(y & _ & [E|(wnz & _ & [E|(lse & _ & E)]%rbind_Raise)]%rbind_Raise)]%rbind_Raise.
  - right. by apply take_idx_Raise in E.
  - right. by apply take_idx_Raise in E.
  - left. by apply logsumexp_Raise in E.
  - by apply put_idx_Raise in E.
Qed.

Lemma update_existance_prob_Raise wp L p e :
  _update_existance_prob wp L p = Raise e → e = ValueError ∨ e = IndexError.
Proof.
  unfold _update_existance_prob.
  intros [E|(w & _ & [E|(y & _ & [E|(l1 & _ & [E|(l2 & _ & E)]%rbind_Raise)]%rbind_Raise)]%rbind_Raise)]%rbind_Raise.
  - right. by apply take_idx_Raise in E.
  - right. by apply take_idx_Raise in E.
  - left. by apply logsumexp_Raise in E.
  - left. by apply logsumexp_Raise in E.
  - done.
Qed.

Lemma sysresample_Raise (w : list npfloat) (N : Z) (l : loc) (σ σ' : loc → G)
  e :
  _sysresample w N l σ = (Raise e, σ') → e = ValueError ∨ e = IndexError.
Proof.
  intros E. pose proof (sysresample_total w N l σ) as Hfuel.
  rewrite E in Hfuel. cbn [fst] in Hfuel. revert E.
  unfold _sysresample. destruct (existsb Np.isnan w).
  - unfold rng_choice, lift. destruct (_ <? _)%Z; [intros [= <- _]; by left|].
    destruct (_ && _); [intros [= <- _]; by left|].
    by destruct (gen_choice _ _ _).
  - unfold mbind', rng_random, lift. destruct (gen_random _) as [u g].
    unfold np_zeros_int. destruct (_ <? _)%Z; [intros [= <- _]; by left|].
    intros E. apply (f_equal fst) in E. cbv beta iota in E. cbn [fst] in E.
    apply sysresample_loop_raise in E as [->| ->]; [by right|]. done.
Qed.

(** X18. A transition raises nothing but ValueError, IndexError and
    ZeroDivisionError; ZeroDivisionError comes from the division by the
    predicted existence probability, which only raises between Python
    floats, so the existence and the birth and survival probabilities
    are then all Python floats, and no generator has been advanced. *)
Theorem call_error_kinds (self : @BerParticleFilter G) measurements
  (σ σ' : loc → G) (e : exn) :
  __call__ self measurements σ = (Raise e, σ') →
  (e = ValueError ∨ e = IndexError ∨ e = ZeroDivisionError)
  ∧ (e = ZeroDivisionError →
     σ' = σ
     ∧ is_np (prob self) = false
     ∧ is_np (prob_birth self) = false
     ∧ is_np (prob_surv self) = false
     ∧ Np.is_zero
         (Np.add (Np.mul (val (prob_birth self))
                    (Np.sub (Fin 1) (val (prob self))))
            (Np.mul (val (prob_surv self)) (val (prob self)))) = true).
Proof.
  intros Hcall. unfold __call__ in Hcall.
  assert (Hdiv : ∀ a c σ1 σ2,
    lift (sc_div a
            (sc_lift2 Np.add
               (sc_lift2 Np.mul (prob_birth self)
                  (sc_lift2 Np.sub (py_float (Fin 1)) (prob self)))
               (sc_lift2 Np.mul (prob_surv self) (prob self)))) σ1
    = (Raise c, σ2 : loc → G) →
    c = ZeroDivisionError ∧ σ2 = σ1
    ∧ is_np (prob self) = false
    ∧ is_np (prob_birth self) = false
    ∧ is_np (prob_surv self) = false
    ∧ Np.is_zero
        (Np.add (Np.mul (val (prob_birth self))
                   (Np.sub (Fin 1) (val (prob self))))
           (Np.mul (val (prob_surv self)) (val (prob self)))) = true).
  { intros a c σ1 σ2. unfold lift, sc_div.
    destruct (negb _ && _) eqn:Ec; [|done]. intros [= <- <-].
    apply andb_true_iff in Ec as [Hnp Hz]. cbn in Hnp, Hz.
    apply negb_true_iff, orb_false_iff in Hnp as [_ Hnp].
    apply orb_false_iff in Hnp as [Hb Hs].
    apply orb_false_iff in Hb as [Hb Hq].
    apply orb_false_iff in Hs as [Hs _]. done. }
  apply mbind_Raise in Hcall as [E|(particles & σ1 & E1 & Hcall)].
  { unfold lift, np_concatenate2 in E. destruct (_ =? _)%nat; [done|].
    injection E as <- _. split; [by left|done]. }
  apply lift_Ok in E1 as [_ ->].
  apply mbind_Raise in Hcall as [E|(c_surv & σ2 & E2 & Hcall)].
  { apply Hdiv in E as (-> & -> & Hrest). split; [by right; right|done]. }
  apply lift_Ok in E2 as [_ ->].
  apply mbind_Raise in Hcall as [E|(c_born & σ3 & E3 & Hcall)].
  { apply Hdiv in E as (-> & -> & Hrest). split; [by right; right|done]. }
  apply lift_Ok in E3 as [_ ->].
  assert (Hkind : e = ValueError ∨ e = IndexError);
    [|destruct Hkind as [-> | ->]; (split; [tauto|done])].
  destruct (likelihood_fn self _ measurements) as [LogLt LogRatio].
  apply mbind_Raise in Hcall as [E|(q' & σ4 & _ & Hcall)].
  { injection E as E _. by apply update_existance_prob_Raise in E. }
  apply mbind_Raise in Hcall as [E|(w & σ5 & _ & Hcall)].
  { injection E as E _. by apply weight_update_Raise in E. }
  apply mbind_Raise in Hcall as [E|(idx & σ6 & _ & Hcall)].
  { by apply sysresample_Raise in E. }
  apply mbind_Raise in Hcall as [E|(ps' & σ7 & _ & Hcall)].
  { injection E as E _. unfold take_rows in E.
    apply rbind_Raise in E as [E|(r & _ & E)]; [|done].
    right. by apply take_idx_Raise in E. }
  apply mbind_Raise in Hcall as [E|(ones_s & σ8 & _ & Hcall)].
  { injection E as E _. unfold np_ones in E.
    destruct (_ <? _)%Z; [|done]. injection E as <-. by left. }
  apply mbind_Raise in Hcall as [E|(pb' & σ9 & _ & Hcall)].
  { unfold call_birth in E. by destruct (birth_model self _ _ _). }
  apply mbind_Raise in Hcall as [E|(ones_b & σ10 & _ & Hcall)].
  { injection E as E _. unfold np_ones in E.
    destruct (_ <? _)%Z; [|done]. injection E as <-. by left. }
  by unfold override, __init__, mbind', mret' in Hcall.
Qed.

End TransitionFrame.

Section TransitionFrameExamples.
Local Open Scope R_scope.

Lemma no_birth_raises :
  __call__ constructed_no_birth None test_store
  = (Raise ZeroDivisionError, test_store).
Proof.
  unfold __call__, constructed_no_birth, mbind', lift, np_concatenate2.
  cbn [particles_surv particles_born ncols rows Nat.eqb app prob prob_birth
       prob_surv].
  unfold sc_div, sc_lift2, default_prob, py_float, Np.is_zero.
  cbn [is_np val orb negb andb Np.mul Np.sub Np.add Np.neg].
  match goal with
  | |- context [Req_dec_T ?a ?b] => destruct (Req_dec_T a b) as [_|Hne]
  end; [done|]. exfalso. apply Hne. lra.
Qed.

Lemma call_error_kinds_witness :
  test_store = test_store
  ∧ is_np (prob constructed_no_birth) = false
  ∧ is_np (prob_birth constructed_no_birth) = false
  ∧ is_np (prob_surv constructed_no_birth) = false
  ∧ Np.is_zero
      (Np.add (Np.mul (val (prob_birth constructed_no_birth))
                 (Np.sub (Fin 1) (val (prob constructed_no_birth))))
         (Np.mul (val (prob_surv constructed_no_birth))
            (val (prob constructed_no_birth)))) = true.
Proof.
  exact (proj2 (call_error_kinds constructed_no_birth None test_store
                  test_store ZeroDivisionError no_birth_raises) eq_refl).
Defined.

Lemma call_frame_witness :
  ∃ st' : @BerParticleFilter unit,
    (__call__ (constructed 2 2) None test_store).1 = Ok st'
    ∧ Nsuv st' = 2%Z ∧ Nbirth st' = 2%Z
    ∧ rng st' = default_rng
    ∧ is_np (prob st') = true.
Proof.
  destruct (call_returns (constructed 2 2) None test_store
              (test_collaborators_ok 2 2) constructed_wf_2_2)
    as (st' & σ' & q' & Hcall & _).
  exists st'. apply (f_equal fst) in Hcall. cbn [fst] in Hcall.
  split; [exact Hcall|].
  destruct (call_frame (constructed 2 2) None test_store) as [_ Hcfg].
  destruct (Hcfg st' Hcall) as (_ & _ & _ & HN & HB & _ & _ & Hr & Hnp).
  by rewrite HN, HB, Hr.
Defined.

End TransitionFrameExamples.

(** ** The extended properties on the example states *)

Section MoreExamples.
Local Open Scope R_scope.

Lemma tracked_collaborators_ok : collaborators_ok tracked.
Proof.
  destruct (test_collaborators_ok 2 2) as [Hm Hl Hf Hb]. by split.
Qed.

Lemma tracked_wf : wf_state tracked.
Proof.
  split; simpl; try done; try lia; try lra.
  - repeat constructor; simpl; lra.
  - repeat constructor; simpl; lra.
  - unfold predicted_mass. simpl. lra.
Qed.

Lemma constructed_runnable : runnable (constructed 2 2).
Proof.
  split; simpl; try done; try lia; try lra.
  - exact constructed_wf_2_2.
  - exact (test_collaborators_ok 2 2).
Qed.

Lemma tracked_call :
  ∃ st' σ', __call__ tracked None test_store = (Ok st', σ').
Proof.
  destruct (call_returns tracked None test_store tracked_collaborators_ok
              tracked_wf) as (st' & σ' & q' & Hrun & _). by exists st', σ'.
Qed.

Lemma covar_tracked : ∃ C, covar tracked = Ok C.
Proof.
  eexists. unfold covar, mean, vecmat, np_subtract, einsum_i_id_ic.
  cbn [tracked weights_surv particles_surv length Nat.ltb Nat.leb Nat.eqb
       rows ncols rbind seq map]. reflexivity.
Qed.

Lemma transition_ess_witness :
  ∃ (st' : @BerParticleFilter unit) σ' e,
    __call__ tracked None test_store = (Ok st', σ')
    ∧ N_eff st' = Fin e
    ∧ 1 <= e <= INR (length (weights_surv tracked)
                     + length (weights_born tracked)).
Proof.
  destruct tracked_call as (st' & σ' & Hcall).
  destruct (transition_ess tracked None test_store σ' st'
              tracked_collaborators_ok tracked_wf Hcall) as (e & He & Hb & _).
  by exists st', σ', e.
Defined.

Lemma transition_generator_witness :
  ∃ (st' : @BerParticleFilter unit) σ',
    __call__ tracked None test_store = (Ok st', σ')
    ∧ rng st' = default_rng
    ∧ ∀ l, l ≠ default_rng → σ' l = test_store l.
Proof.
  destruct tracked_call as (st' & σ' & Hcall).
  destruct (transition_generator tracked None test_store σ' st'
              tracked_collaborators_ok tracked_wf Hcall)
    as (Hr & _ & _ & Hf).
  by exists st', σ'.
Defined.

Lemma transition_existence_value_witness :
  ∃ (st' : @BerParticleFilter unit) σ',
    __call__ tracked None test_store = (Ok st', σ')
    ∧ prob st'
      = np_float
          (Fin (integral (predicted_weights tracked)
                  (likelihood_fn tracked (propagated tracked) None).2
                * predicted_prob tracked
                / (1 - predicted_prob tracked
                   + predicted_prob tracked
                     * integral (predicted_weights tracked)
                         (likelihood_fn tracked (propagated tracked) None).2))).
Proof.
  destruct tracked_call as (st' & σ' & Hcall).
  destruct (transition_existence_value tracked None test_store σ' st'
              tracked_collaborators_ok tracked_wf Hcall) as (Hp & _).
  by exists st', σ'.
Defined.

Lemma transition_survivors_witness :
  ∃ (st' : @BerParticleFilter unit) σ' idx,
    __call__ tracked None test_store = (Ok st', σ')
    ∧ take_rows (propagated tracked) idx = Ok (particles_surv st')
    ∧ nondecreasing idx.
Proof.
  destruct tracked_call as (st' & σ' & Hcall).
  destruct (transition_survivors tracked None test_store σ' st'
              tracked_collaborators_ok tracked_wf Hcall)
    as (idx & w & Ht & Hn & _).
  by exists st', σ', idx.
Defined.

Lemma run_invariant_witness :
  ∃ (st' : @BerParticleFilter unit) σ',
    run (constructed 2 2) [None; None] test_store = (Ok st', σ')
    ∧ runnable st'
    ∧ nrows (particles_surv st') = 2%nat
    ∧ nrows (particles_born st') = 2%nat.
Proof.
  destruct (exact_run (constructed 2 2) [None; None] test_store
              constructed_runnable) as (st' & σ' & Hrun & _).
  destruct (run_invariant (constructed 2 2) [None; None] test_store σ' st'
              constructed_runnable Hrun) as (Hr & _ & _ & Hn).
  destruct Hn as (Hs & Hb & _); [done|].
  by exists st', σ'.
Defined.

Lemma covar_symmetric_witness :
  ∃ C, covar tracked = Ok C
       ∧ length (rows C) = ncols C
       ∧ ∀ a b, entry C a b = entry C b a.
Proof.
  destruct covar_tracked as [C HC]. exists C. split; [exact HC|].
  destruct (covar_symmetric tracked C HC) as (Hr & _ & Hs). by split.
Defined.

Lemma mean_within_range_witness :
  ∃ mu m, mean tracked = Ok mu ∧ mu !! 1%nat = Some (Fin m) ∧ 0 <= m <= 4.
Proof.
  destruct (mean_within_range tracked 1 0 4) as (mu & m & Hm & _ & _ & Hc & Hb).
  - done.
  - repeat constructor; simpl; lra.
  - simpl. lra.
  - done.
  - simpl. lia.
  - repeat constructor; eexists; (split; [reflexivity|lra]).
  - by exists mu, m.
Defined.

Lemma maxap_spec_witness :
  ∃ i wi row,
    maxap tracked = Ok row
    ∧ rows (particles_surv tracked) !! i = Some row
    ∧ weights_surv tracked !! i = Some (Fin wi)
    ∧ Forall (λ u, valR u <= wi) (weights_surv tracked).
Proof.
  destruct (maxap_spec tracked) as [_ Hmax].
  destruct Hmax as (i & wi & row & Hm & Hr & Hw & Hall & _).
  - done.
  - by repeat constructor.
  - done.
  - by exists i, wi, row.
Defined.

End MoreExamples.
